(** * The RPC bridge of the UnrealIRCd web panel (backend/rpc/client.go)

    A shallow embedding of [RPCClient]: the request-ID counter, the map of
    pending calls, the channels the callers wait on, the two receive loops
    and the session operations, followed by the properties of the bridge
    that the specification states.

    Go values are modelled as follows.
    - [int64] is [Z] with the wrap-around of [c.reqID++] written out.
    - [map[int64]chan *RPCResponse] is a [gmap Z chan].
    - A channel made by [make(chan *RPCResponse, 1)] is an index into a
      heap of channel states (one buffer slot, a closed flag); the channel
      operations follow the Go language specification, including the
      run-time panics and the cases in which an operation blocks.
    - A pointer that may be nil is an [option].
    - The mutex is modelled by atomicity: the code between a Lock and its
      Unlock is one step of the model, and so is each blocking operation
      outside the critical sections (a write, a read, a select, a channel
      send). The one section that can end without its unlock, the write
      that panics, is accounted for by [mutex_step], which runs the steps
      under the state of the mutex. *)

From Stdlib Require Import ZArith String Ascii List Lia Bool.
From stdpp Require Import base option list gmap strings.
From Stdlib Require Import DecimalString.

Local Open Scope Z_scope.
Set Warnings "-register-all".

(** ** Machine integers *)

Definition int64_max : Z := 2 ^ 63 - 1.
Definition int64_min : Z := - 2 ^ 63.

(** Two's complement wrap-around of a 64-bit signed integer. *)
Definition wrap64 (z : Z) : Z := (z + 2 ^ 63) mod 2 ^ 64 - 2 ^ 63.

(** ** Wire types *)

(** A JSON value, as [encoding/json] sees the Go value held by an
    [interface{}]. *)
Inductive json : Type :=
  | JNull
  | JBool (b : bool)
  | JNumber (n : Z)
  | JString (s : string)
  | JArray (items : list json)
  | JObject (members : list (string * json)).

(** [json.RawMessage]: undecoded JSON text. *)
Definition RawMessage : Type := string.

(** [RPCRequest]. [Params] is an [interface{}]: [None] is the nil interface,
    [Some v] an interface holding a Go value that is written as the JSON
    value [v], its strings coerced to UTF-8 where they are written. *)
Record RPCRequest : Type := mkRequest {
  req_JSONRPC : string;
  Method : string;
  Params : option json;
  req_ID : Z
}.

Record RPCError : Type := mkError {
  Code : Z;
  Message : string;
  Data : string
}.

(** [RPCResponse]. [Result] is a byte slice, nil when the key is absent;
    [Error] is a pointer. *)
Record RPCResponse : Type := mkResponse {
  resp_JSONRPC : string;
  Result : option RawMessage;
  Error : option RPCError;
  resp_ID : Z
}.

(** ** Channels *)

(** A channel is identified by its index in the heap of channels. *)
Abbreviation chan := nat.

(** State of a channel of capacity 1 carrying [*RPCResponse] values. *)
Record chan_state : Type := mkChan {
  buf : option RPCResponse;
  closed : bool
}.

Definition new_chan : chan_state := {| buf := None; closed := false |}.

(** Outcome of a channel operation. *)
Inductive chan_res (A : Type) : Type :=
  | ChanOk (a : A)
  | ChanBlock
  | ChanPanic.
Arguments ChanOk {A} a.
Arguments ChanBlock {A}.
Arguments ChanPanic {A}.

Abbreviation heap := (list chan_state).

(** [ch <- v]: panics on a closed channel, blocks while the buffer is full. *)
Definition chan_send (h : heap) (ch : chan) (v : RPCResponse) : chan_res heap :=
  match h !! ch with
  | None => ChanPanic
  | Some st =>
      if closed st then ChanPanic
      else match buf st with
           | Some _ => ChanBlock
           | None => ChanOk (<[ch := {| buf := Some v; closed := false |}]> h)
           end
  end.

(** A receive can proceed when a value is buffered or the channel is closed. *)
Definition chan_recv_ready (h : heap) (ch : chan) : bool :=
  match h !! ch with
  | None => false
  | Some st => match buf st with Some _ => true | None => closed st end
  end.

(** [<-ch]: the buffered value, or nil (the zero value of a pointer) from a
    closed and drained channel. *)
Definition chan_recv (h : heap) (ch : chan) : chan_res (option RPCResponse * heap) :=
  match h !! ch with
  | None => ChanBlock
  | Some st =>
      match buf st with
      | Some v => ChanOk (Some v, <[ch := {| buf := None; closed := closed st |}]> h)
      | None => if closed st then ChanOk (None, h) else ChanBlock
      end
  end.

(** [close(ch)]: panics when the channel is already closed. *)
Definition chan_close (h : heap) (ch : chan) : chan_res heap :=
  match h !! ch with
  | None => ChanPanic
  | Some st =>
      if closed st then ChanPanic
      else ChanOk (<[ch := {| buf := buf st; closed := true |}]> h)
  end.

(** ** The client *)

(** A transport handle ([*websocket.Conn] or [net.Conn]). *)
Definition Conn : Type := nat.

Record RPCClient : Type := mkClient {
  url : string;
  username : string;
  password : string;
  conn : option Conn;
  socketConn : option Conn;
  reqID : Z;
  pending : gmap Z chan;
  isSocket : bool
}.

(** The client together with the channels allocated so far. *)
Record World : Type := mkWorld {
  client : RPCClient;
  chans : heap
}.

Definition NewRPCClient (u n p : string) : RPCClient :=
  {| url := u; username := n; password := p;
     conn := None; socketConn := None;
     reqID := 0; pending := ∅; isSocket := false |}.

Definition set_reqID (v : Z) (c : RPCClient) : RPCClient :=
  {| url := url c; username := username c; password := password c;
     conn := conn c; socketConn := socketConn c;
     reqID := v; pending := pending c; isSocket := isSocket c |}.

Definition set_pending (p : gmap Z chan) (c : RPCClient) : RPCClient :=
  {| url := url c; username := username c; password := password c;
     conn := conn c; socketConn := socketConn c;
     reqID := reqID c; pending := p; isSocket := isSocket c |}.

Definition set_conn (v : option Conn) (s : bool) (c : RPCClient) : RPCClient :=
  {| url := url c; username := username c; password := password c;
     conn := v; socketConn := socketConn c;
     reqID := reqID c; pending := pending c; isSocket := s |}.

Definition set_socketConn (v : option Conn) (s : bool) (c : RPCClient) : RPCClient :=
  {| url := url c; username := username c; password := password c;
     conn := conn c; socketConn := v;
     reqID := reqID c; pending := pending c; isSocket := s |}.

(** ** Observable actions *)

(** The parts of a parsed URL that [connectWebSocket] uses. *)
Record URL : Type := mkURL {
  Scheme : string;
  Host : string;
  Path : string
}.

Inductive log_msg : Type :=
  | LogNotConnected
  | LogCreatedPending (id : Z)
  | LogSendFailed
  | LogRequestSent
  | LogReceivedResponse (id : Z)
  | LogRPCError (code : Z) (msg : string)
  | LogUnmarshalResultFailed
  | LogCallCompleted
  | LogCtxCancelled (id : Z)
  | LogTimeout (id : Z)
  | LogConnNil
  | LogReadError
  | LogFoundPending (id : Z)
  | LogNoPending (id : Z)
  | LogHandlerStopped
  | LogSocketLine
  | LogSocketUnmarshalFailed
  | LogClosingWebSocket
  | LogCleaningUp (n : nat)
  | LogClosingPending (id : Z)
  | LogDisconnected
  | LogDialFailed
  | LogInvalidURL
  | LogConnected
  | LogLoginFailed
  | LogAuthenticated.

Inductive loop_kind : Type := WebSocketLoop | SocketLoop.

Inductive effect : Type :=
  | Log (m : log_msg)
  | DialUnix (path : string)
  | DialWebSocket (target : URL) (authorization : string)
  | WriteJSON (cn : Conn) (req : RPCRequest) (ok : bool)
  | Send (ch : chan) (r : RPCResponse)
  | Close (ch : chan)
  | CloseConn (cn : Conn)
  | Go (k : loop_kind).

(** ** [call] *)

(** What [call] returns; [CallPanic] is a run-time panic of the calling
    goroutine. [CallOk payload] is a nil error, [payload] being the raw
    result that was unmarshaled into the caller's [result], if any. *)
Inductive call_result : Type :=
  | CallOk (payload : option RawMessage)
  | ErrNotConnected
  | ErrSendFailed
  | ErrRPC (code : Z) (msg : string)
  | ErrUnmarshal
  | ErrCtx
  | ErrTimeout
  | CallPanic.

(** The [result] argument: nil, or a pointer to a structure into which
    [json.Unmarshal] succeeds exactly on the raw messages accepted by the
    given predicate. *)
Definition dest : Type := option (RawMessage -> bool).

(** Lines 349-363: the first critical section. The counter is incremented
    before the connection check. *)
Definition call_begin (w : World) : World * list effect * (call_result + Z * chan) :=
  let c := client w in
  let id := wrap64 (reqID c + 1) in
  let c1 := set_reqID id c in
  match conn c with
  | None => ({| client := c1; chans := chans w |}, [Log LogNotConnected], inl ErrNotConnected)
  | Some _ =>
      let respCh := length (chans w) in
      ({| client := set_pending (<[id := respCh]> (pending c1)) c1;
          chans := chans w ++ [new_chan] |},
       [Log (LogCreatedPending id)], inr (id, respCh))
  end.

(** Lines 365-371. *)
Definition make_request (method : string) (params : option json) (id : Z) : RPCRequest :=
  {| req_JSONRPC := "2.0"; Method := method; Params := params; req_ID := id |}.

(** Lines 377-380: the write, under the read lock. [werr] is the
    transport's answer. Calling [WriteJSON] through a nil
    [*websocket.Conn] (the handle was cleared since registration)
    dereferences nil. *)
Inductive send_result : Type := SendOk | SendFailed | SendPanic.

Definition call_send (req : RPCRequest) (werr : bool) (w : World) : list effect * send_result :=
  match conn (client w) with
  | None => ([], SendPanic)
  | Some cn =>
      if werr then ([WriteJSON cn req false; Log LogSendFailed], SendFailed)
      else ([WriteJSON cn req true; Log LogRequestSent], SendOk)
  end.

(** Lines 384-386, 417-419 and 424-426: [delete(c.pending, reqID)] in a
    critical section of its own. *)
Definition call_unregister (id : Z) (w : World) : World :=
  {| client := set_pending (delete id (pending (client w))) (client w); chans := chans w |}.

(** The per-call deadline of line 422, in nanoseconds. *)
Definition callTimeout : Z := 30 * 1000000000.

(** What the [select] of line 393 sees: whether [ctx.Done()] is closed and
    how long ago the select started. *)
Record wait_env : Type := mkWaitEnv {
  ctx_done : bool;
  elapsed : Z
}.

Inductive select_case : Type := SelResp | SelCtxDone | SelTimeout.

Definition case_ready (h : heap) (ch : chan) (e : wait_env) (k : select_case) : bool :=
  match k with
  | SelResp => chan_recv_ready h ch
  | SelCtxDone => ctx_done e
  | SelTimeout => callTimeout <=? elapsed e
  end.

(** Lines 395-413: what the caller makes of the value it received. A nil
    pointer (received from a closed channel) is dereferenced by
    [resp.Error]. *)
Definition call_finish (d : dest) (v : option RPCResponse) : list effect * call_result :=
  match v with
  | None => ([], CallPanic)
  | Some resp =>
      match Error resp with
      | Some e =>
          ([Log (LogReceivedResponse (resp_ID resp)); Log (LogRPCError (Code e) (Message e))],
           ErrRPC (Code e) (Message e))
      | None =>
          match d, Result resp with
          | Some valid, Some raw =>
              if valid raw
              then ([Log (LogReceivedResponse (resp_ID resp)); Log LogCallCompleted],
                    CallOk (Some raw))
              else ([Log (LogReceivedResponse (resp_ID resp)); Log LogUnmarshalResultFailed],
                    ErrUnmarshal)
          | _, _ => ([Log (LogReceivedResponse (resp_ID resp)); Log LogCallCompleted], CallOk None)
          end
      end
  end.

(** How [call] goes on after the select: it returns, or it has taken the
    context or the timer case and unregisters before it returns. *)
Inductive wait_next : Type :=
  | Return (r : call_result)
  | GiveUp (r : call_result).

(** Lines 393-428 without the two critical sections: the select, taking
    the case [k]. [None] when [k] is not ready, so that the select cannot
    take it. *)
Definition call_wait (id : Z) (respCh : chan) (d : dest) (e : wait_env) (k : select_case)
    (w : World) : option (World * list effect * wait_next) :=
  if case_ready (chans w) respCh e k then
    match k with
    | SelResp =>
        match chan_recv (chans w) respCh with
        | ChanOk (v, h) =>
            let '(l, r) := call_finish d v in
            Some ({| client := client w; chans := h |}, l, Return r)
        | _ => None
        end
    | SelCtxDone => Some (w, [Log (LogCtxCancelled id)], GiveUp ErrCtx)
    | SelTimeout => Some (w, [Log (LogTimeout id)], GiveUp ErrTimeout)
    end
  else None.

(** [call] as one function, for a caller considered on its own. The
    environment gives the transport's answer to the write, the case the
    select takes, and what the other goroutines did to the shared state
    while this caller was outside its critical sections: [before_write]
    between registration and the write, [while_waiting] up to the select,
    [before_unregister] between a write error or the select and the
    removal of the entry. *)
Record call_env : Type := mkCallEnv {
  write_err : bool;
  before_write : World -> World;
  while_waiting : World -> World;
  before_unregister : World -> World;
  wenv : wait_env;
  pick : select_case
}.

Definition call (e : call_env) (method : string) (params : option json) (d : dest)
    (w : World) : option (World * list effect * call_result) :=
  let '(w1, l1, r1) := call_begin w in
  match r1 with
  | inl r => Some (w1, l1, r)
  | inr (id, respCh) =>
      let w2 := before_write e w1 in
      match call_send (make_request method params id) (write_err e) w2 with
      | (l2, SendPanic) => Some (w2, l1 ++ l2, CallPanic)
      | (l2, SendFailed) =>
          Some (call_unregister id (before_unregister e w2), l1 ++ l2, ErrSendFailed)
      | (l2, SendOk) =>
          match call_wait id respCh d (wenv e) (pick e) (while_waiting e w2) with
          | Some (w3, l3, Return r) => Some (w3, l1 ++ l2 ++ l3, r)
          | Some (w3, l3, GiveUp r) =>
              Some (call_unregister id (before_unregister e w3), l1 ++ l2 ++ l3, r)
          | None => None
          end
      end
  end.

(** ** The receive loops *)

(** What a read of the transport yields: the transport is closed (or the
    read failed), or a message arrived that does not decode as an
    [RPCResponse], or one that does. *)
Inductive inbound : Type :=
  | Closed
  | Malformed (raw : string)
  | Frame (r : RPCResponse).

(** [conn.ReadJSON(&response)] reads the next message and decodes it; every
    failure of either is the returned error. *)
Definition ReadJSON (f : inbound) : option RPCResponse :=
  match f with
  | Frame r => Some r
  | Closed | Malformed _ => None
  end.

(** Lines 299-306: the handle is read under the read lock; a nil handle
    stops the loop. *)
Definition hm_top (w : World) : list effect * bool :=
  match conn (client w) with
  | None => ([Log LogConnNil; Log LogHandlerStopped], false)
  | Some _ => ([], true)
  end.

(** Lines 310-316: the blocking read; an error stops the loop. *)
Definition hm_read (f : inbound) : list effect * option RPCResponse :=
  match ReadJSON f with
  | None => ([Log LogReadError; Log LogHandlerStopped], None)
  | Some r => ([], Some r)
  end.

(** Lines 330-339 without line 335: the critical section that claims the
    entry of the response's ID. *)
Definition hm_claim (r : RPCResponse) (w : World) : World * list effect * option chan :=
  let c := client w in
  match pending c !! resp_ID r with
  | Some ch =>
      ({| client := set_pending (delete (resp_ID r) (pending c)) c; chans := chans w |},
       [Log (LogFoundPending (resp_ID r))], Some ch)
  | None => (w, [Log (LogNoPending (resp_ID r))], None)
  end.

(** Line 335: [ch <- &response], after the unlock. *)
Definition hm_deliver (ch : chan) (r : RPCResponse) (w : World) : chan_res (World * list effect) :=
  match chan_send (chans w) ch r with
  | ChanOk h => ChanOk ({| client := client w; chans := h |}, [Send ch r])
  | ChanBlock => ChanBlock
  | ChanPanic => ChanPanic
  end.

(** How a scanned line goes on: the scanner stopped, the line did not
    decode and is skipped, or it decoded. *)
Inductive scanned : Type :=
  | ScanStop
  | ScanSkip
  | ScanFrame (r : RPCResponse).

(** [handleSocketMessages], lines 243-251: [scanner.Scan] and
    [json.Unmarshal]; a line that does not decode is logged and the loop
    continues. *)
Definition hs_read (f : inbound) : list effect * scanned :=
  match f with
  | Closed => ([], ScanStop)
  | Malformed _ => ([Log LogSocketLine; Log LogSocketUnmarshalFailed], ScanSkip)
  | Frame r => ([Log LogSocketLine], ScanFrame r)
  end.

(** Lines 254-256: the entry is looked up under the read lock, not
    removed. *)
Definition hs_claim (r : RPCResponse) (w : World) : option chan :=
  pending (client w) !! resp_ID r.

(** Lines 258-263: [select { case ch <- &response: default: }], a send that
    drops the value instead of blocking on a full buffer. *)
Definition hs_deliver (ch : chan) (r : RPCResponse) (w : World) : chan_res (World * list effect) :=
  match chan_send (chans w) ch r with
  | ChanOk h => ChanOk ({| client := client w; chans := h |}, [Send ch r])
  | ChanBlock => ChanOk (w, [])
  | ChanPanic => ChanPanic
  end.

(** Where a loop run on its own over the messages [fs] ends up: it
    returned, or it is blocked reading with all of [fs] consumed. *)
Inductive loop_status : Type := Returned | Reading.

Record loop_run : Type := mkRun {
  run_world : World;
  run_effects : list effect;
  run_status : loop_status;
  run_unread : list inbound
}.

Definition run_cons (l : list effect) (r : chan_res loop_run) : chan_res loop_run :=
  match r with
  | ChanOk x => ChanOk {| run_world := run_world x; run_effects := l ++ run_effects x;
                          run_status := run_status x; run_unread := run_unread x |}
  | ChanBlock => ChanBlock
  | ChanPanic => ChanPanic
  end.

(** [handleMessages] run over the inbound messages [fs], no other goroutine
    taking a step in between. A loop that stops leaves the messages behind
    it unread. *)
Fixpoint handleMessages (fs : list inbound) (w : World) : chan_res loop_run :=
  match hm_top w with
  | (l0, false) => ChanOk (mkRun w l0 Returned fs)
  | (l0, true) =>
      match fs with
      | [] => ChanOk (mkRun w l0 Reading [])
      | f :: fs' =>
          match hm_read f with
          | (l1, None) => ChanOk (mkRun w (l0 ++ l1) Returned fs')
          | (l1, Some r) =>
              match hm_claim r w with
              | (w1, l2, None) => run_cons (l0 ++ l1 ++ l2) (handleMessages fs' w1)
              | (w1, l2, Some ch) =>
                  match hm_deliver ch r w1 with
                  | ChanOk (w2, l3) => run_cons (l0 ++ l1 ++ l2 ++ l3) (handleMessages fs' w2)
                  | ChanBlock => ChanBlock
                  | ChanPanic => ChanPanic
                  end
              end
          end
      end
  end.

(** [handleSocketMessages] run over the scanned lines [fs]. *)
Fixpoint handleSocketMessages (fs : list inbound) (w : World) : chan_res loop_run :=
  match fs with
  | [] => ChanOk (mkRun w [] Reading [])
  | f :: fs' =>
      match hs_read f with
      | (l1, ScanStop) => ChanOk (mkRun w l1 Returned fs')
      | (l1, ScanSkip) => run_cons l1 (handleSocketMessages fs' w)
      | (l1, ScanFrame r) =>
          match hs_claim r w with
          | None => run_cons l1 (handleSocketMessages fs' w)
          | Some ch =>
              match hs_deliver ch r w with
              | ChanOk (w2, l2) => run_cons (l1 ++ l2) (handleSocketMessages fs' w2)
              | ChanBlock => ChanBlock
              | ChanPanic => ChanPanic
              end
          end
      end
  end.

(** ** [Disconnect] *)

(** Lines 610-613: [close] on every pending channel. *)
Fixpoint close_all (l : list (Z * chan)) (h : heap) : chan_res (heap * list effect) :=
  match l with
  | [] => ChanOk (h, [])
  | (id, ch) :: l' =>
      match chan_close h ch with
      | ChanOk h1 =>
          match close_all l' h1 with
          | ChanOk (h2, e) => ChanOk (h2, Log (LogClosingPending id) :: Close ch :: e)
          | ChanBlock => ChanBlock
          | ChanPanic => ChanPanic
          end
      | ChanBlock => ChanBlock
      | ChanPanic => ChanPanic
      end
  end.

(** Lines 595-617, one critical section. Go ranges over the map in an
    unspecified order; the order of [map_to_list] stands for it. *)
Definition Disconnect (w : World) : chan_res (World * list effect) :=
  let c := client w in
  let e1 := match conn c with
            | Some cn => [Log LogClosingWebSocket; CloseConn cn]
            | None => []
            end in
  match close_all (map_to_list (pending c)) (chans w) with
  | ChanOk (h, e2) =>
      ChanOk ({| client := set_pending ∅ (set_conn None (isSocket c) c); chans := h |},
              e1 ++ Log (LogCleaningUp (size (pending c))) :: e2 ++ [Log LogDisconnected])
  | ChanBlock => ChanBlock
  | ChanPanic => ChanPanic
  end.

(** [IsConnected], lines 586-592. *)
Definition IsConnected (w : World) : bool :=
  match conn (client w) with Some _ => true | None => false end.

(** ** [Connect] *)

Definition is_unix_url (u : string) : bool := String.eqb u "unix" || String.eqb u "".

(** Lines 168-173: the scheme aliases. *)
Definition ws_scheme (s : string) : string :=
  if String.eqb s "http" || String.eqb s "tcp" then "ws"
  else if String.eqb s "https" || String.eqb s "tls" then "wss"
  else s.

Definition final_url (u : URL) : URL :=
  {| Scheme := ws_scheme (Scheme u); Host := Host u; Path := Path u |}.

(** The bytes of a Go string. *)
Definition bytes_of (s : string) : list Z :=
  map (fun a => Z.of_N (N_of_ascii a)) (list_ascii_of_string s).

Definition base64_chars : string :=
  "ABCDEFGHIJKLMNOPQRSTUVWXYZabcdefghijklmnopqrstuvwxyz0123456789+/".

(** [chars[n]]; every index that [base64Encode] uses is below 64. *)
Definition chars_at (n : Z) : ascii :=
  match String.get (Z.to_nat n) base64_chars with
  | Some a => a
  | None => "="%char
  end.

(** Lines 630-658: one iteration of the loop for each group of three
    bytes, the last group padded. *)
Fixpoint base64_groups (s : list Z) : list ascii :=
  match s with
  | [] => []
  | [a] =>
      [chars_at (Z.shiftr a 2); chars_at (Z.shiftl (Z.land a 3) 4); "="%char; "="%char]
  | [a; b] =>
      [chars_at (Z.shiftr a 2);
       chars_at (Z.lor (Z.shiftl (Z.land a 3) 4) (Z.shiftr b 4));
       chars_at (Z.shiftl (Z.land b 15) 2); "="%char]
  | a :: b :: c :: rest =>
      [chars_at (Z.shiftr a 2);
       chars_at (Z.lor (Z.shiftl (Z.land a 3) 4) (Z.shiftr b 4));
       chars_at (Z.lor (Z.shiftl (Z.land b 15) 2) (Z.shiftr c 6));
       chars_at (Z.land c 63)] ++ base64_groups rest
  end.

Definition base64Encode (s : string) : string :=
  string_of_list_ascii (base64_groups (bytes_of s)).

(** Lines 620-623. *)
Definition basicAuth (user pass : string) : string :=
  base64Encode (String.append user (String.append ":" pass)).

(** Line 183: the Authorization header of the handshake. *)
Definition authHeader (c : RPCClient) : string :=
  String.append "Basic " (basicAuth (username c) (password c)).

(** Line 132. *)
Definition socketPath : string := "/home/valerie/unrealircd/data/rpc.socket".

Inductive connect_result : Type :=
  | ConnectOk
  | ErrDialUnix
  | ErrInvalidURL
  | ErrDialWebSocket.

(** What the environment answers to [Connect]: the result of [url.Parse]
    and the handle returned by the dialer, if the dial succeeds. *)
Record connect_env : Type := mkConnectEnv {
  parsed : option URL;
  dialed : option Conn
}.

(** Lines 131-150. *)
Definition connectUnixSocket (e : connect_env) (w : World)
  : World * list effect * connect_result :=
  match dialed e with
  | None => (w, [DialUnix socketPath; Log LogDialFailed], ErrDialUnix)
  | Some cn =>
      ({| client := set_socketConn (Some cn) true (client w); chans := chans w |},
       [DialUnix socketPath; Log LogConnected; Go SocketLoop], ConnectOk)
  end.

(** Lines 153-238. The credentials travel in the Authorization header of
    the handshake. *)
Definition connectWebSocket (e : connect_env) (w : World)
  : World * list effect * connect_result :=
  match parsed e with
  | None => (w, [Log LogInvalidURL], ErrInvalidURL)
  | Some u =>
      let dial := DialWebSocket (final_url u) (authHeader (client w)) in
      match dialed e with
      | None => (w, [dial; Log LogDialFailed], ErrDialWebSocket)
      | Some cn =>
          ({| client := set_conn (Some cn) false (client w); chans := chans w |},
           [dial; Log LogConnected; Go WebSocketLoop], ConnectOk)
      end
  end.

(** Lines 115-128, one critical section. *)
Definition Connect (e : connect_env) (w : World) : World * list effect * connect_result :=
  if is_unix_url (url (client w)) then connectUnixSocket e w else connectWebSocket e w.

(** ** [authenticate] *)

Inductive auth_result : Type :=
  | AuthOk
  | ErrLoginFailed (cause : call_result)
  | AuthPanic.

(** [AuthParams] as the parameters of a request: the two fields under
    their JSON names, in declaration order. *)
Definition AuthParams (user pass : string) : json :=
  JObject [("username"%string, JString user); ("password"%string, JString pass)].

(** Lines 272-292. The result is unmarshaled into a [json.RawMessage],
    which accepts every raw message. *)
Definition authenticate (e : call_env) (w : World) : option (World * list effect * auth_result) :=
  let c := client w in
  match call e "user.login" (Some (AuthParams (username c) (password c))) (Some (fun _ => true)) w with
  | None => None
  | Some (w1, l, CallOk _) => Some (w1, l ++ [Log LogAuthenticated], AuthOk)
  | Some (w1, l, CallPanic) => Some (w1, l, AuthPanic)
  | Some (w1, l, r) => Some (w1, l ++ [Log LogLoginFailed], ErrLoginFailed r)
  end.

(** ** The wire codec

    The client encodes requests with [conn.WriteJSON], which is
    [encoding/json] driven by the struct tags of [RPCRequest]. The byte
    level (quoting, escapes, white space) belongs to [encoding/json]; what
    is modelled is the JSON value that is written and what a decoder makes
    of a JSON value: which members the object has, under which keys, in
    which order, when [params] is left out, and what the package does to
    the values on the way: a string is written, and read, coerced to
    well-formed UTF-8; a key selects a field of the struct without regard
    to case; a number read into an [interface{}] becomes a [float64]; an
    object read into an [interface{}] becomes a map. *)

(** *** Strings: coercion to UTF-8 *)

Definition byte_of (a : ascii) : Z := Z.of_N (N_of_ascii a).

Definition between (lo hi : Z) (a : ascii) : bool :=
  (lo <=? byte_of a) && (byte_of a <=? hi).

(** The rest of a sequence of [n] bytes, after its first byte: the second
    byte in the range that the first byte accepts, the others
    continuation bytes. The result is the width [n], or 0 when the bytes
    are not there or not in range. *)
Definition tail_width (n : nat) (lo hi : Z) (t : string) : nat :=
  match n, t with
  | 2%nat, String b1 _ => if between lo hi b1 then 2%nat else 0%nat
  | 3%nat, String b1 (String b2 _) =>
      if between lo hi b1 && between 128 191 b2 then 3%nat else 0%nat
  | 4%nat, String b1 (String b2 (String b3 _)) =>
      if between lo hi b1 && between 128 191 b2 && between 128 191 b3 then 4%nat else 0%nat
  | _, _ => 0%nat
  end.

(** [utf8.DecodeRuneInString], as far as the codec uses it: the width of
    the well-formed sequence at the head of [s], and 0 when there is none
    (the function then returns [RuneError] with width 1). The first byte
    fixes the width and the range of the second byte: no overlong forms,
    no surrogates, nothing above U+10FFFF. *)
Definition rune_width (s : string) : nat :=
  match s with
  | EmptyString => 0%nat
  | String b0 t =>
      let x := byte_of b0 in
      if x <? 128 then 1%nat
      else if x <? 194 then 0%nat
      else if x <? 224 then tail_width 2 128 191 t
      else if x =? 224 then tail_width 3 160 191 t
      else if x <? 237 then tail_width 3 128 191 t
      else if x =? 237 then tail_width 3 128 159 t
      else if x <? 240 then tail_width 3 128 191 t
      else if x =? 240 then tail_width 4 144 191 t
      else if x <? 244 then tail_width 4 128 191 t
      else if x =? 244 then tail_width 4 128 143 t
      else 0%nat
  end.

(** [utf8.ValidString]. [skip] counts the bytes left of the sequence that
    is being stepped over. *)
Fixpoint valid_from (skip : nat) (s : string) : bool :=
  match s with
  | EmptyString => true
  | String a t =>
      match skip with
      | S k => valid_from k t
      | O =>
          match rune_width s with
          | O => false
          | S k => valid_from k t
          end
      end
  end.

Definition ValidString (s : string) : bool := valid_from 0 s.

(** What the encoder and the decoder make of a Go string: each byte that
    starts no well-formed sequence is replaced by U+FFFD (the bytes EF BF
    BD), everything else is kept. *)
Fixpoint coerce_from (skip : nat) (s : string) : string :=
  match s with
  | EmptyString => EmptyString
  | String a t =>
      match skip with
      | S k => String a (coerce_from k t)
      | O =>
          match rune_width s with
          | O => String "239" (String "191" (String "189" (coerce_from 0 t)))
          | S k => String a (coerce_from k t)
          end
      end
  end.

Definition coerce_utf8 (s : string) : string := coerce_from 0 s.

(** *** Encoding *)

(** A Go value that holds strings, written as JSON: every string and every
    key is coerced. *)
Fixpoint encode_value (v : json) : json :=
  match v with
  | JString s => JString (coerce_utf8 s)
  | JArray l => JArray (map encode_value l)
  | JObject ms => JObject (map (fun kv => (coerce_utf8 kv.1, encode_value kv.2)) ms)
  | _ => v
  end.

(** The object built from the tags of [RPCRequest]: the fields in
    declaration order, [params] omitted when the interface is nil
    ([omitempty]). *)
Definition marshal_request (r : RPCRequest) : json :=
  JObject ([("jsonrpc"%string, JString (coerce_utf8 (req_JSONRPC r)));
            ("method"%string, JString (coerce_utf8 (Method r)))]
           ++ match Params r with
              | Some v => [("params"%string, encode_value v)]
              | None => []
              end
           ++ [("id"%string, JNumber (req_ID r))]).

(** *** Decoding *)

(** The [float64] nearest to a natural number (ties to even), which is
    what [strconv.ParseFloat] gives for an integer literal. *)
Definition round_float64 (a : Z) : Z :=
  let e := Z.log2 a in
  if e <? 53 then a
  else
    let sh := e - 52 in
    let q := Z.shiftr a sh in
    let r := a - Z.shiftl q sh in
    let half := Z.shiftl 1 (sh - 1) in
    let q' := if (half <? r) || ((r =? half) && Z.odd q) then q + 1 else q in
    Z.shiftl q' sh.

(** A number read into an [interface{}]: a [float64], an error when the
    number is out of its range. *)
Definition float64_of_int (n : Z) : option Z :=
  let m := round_float64 (Z.abs n) in
  if m <? 2 ^ 1024 then Some (Z.sgn n * m) else None.

(** [m[k] = v] on a map whose entries are listed in the order of their
    keys, which is the order in which the map is written. *)
Fixpoint insert_member (k : string) (v : json) (ms : list (string * json))
  : list (string * json) :=
  match ms with
  | [] => [(k, v)]
  | (k', v') :: ms' =>
      match String.compare k k' with
      | Lt => (k, v) :: ms
      | Eq => (k, v) :: ms'
      | Gt => (k', v') :: insert_member k v ms'
      end
  end.

(** The elements of an array and the members of an object, decoded with
    [dec]; the members are put into the map [m] one after the other, a
    later member replacing an earlier one with the same key. *)
Section containers.
Variable dec : json -> option json.

Fixpoint decode_items (l : list json) : option (list json) :=
  match l with
  | [] => Some []
  | x :: l' =>
      match dec x, decode_items l' with
      | Some y, Some ys => Some (y :: ys)
      | _, _ => None
      end
  end.

Fixpoint decode_members (ms m : list (string * json)) : option (list (string * json)) :=
  match ms with
  | [] => Some m
  | kv :: ms' =>
      match dec kv.2 with
      | Some y => decode_members ms' (insert_member (coerce_utf8 kv.1) y m)
      | None => None
      end
  end.
End containers.

(** Decoding a JSON value into an [interface{}]: null is nil, a number a
    [float64], a string the string coerced, an array a slice, an object a
    [map[string]interface{}]. *)
Fixpoint decode_value (v : json) : option json :=
  match v with
  | JNull => Some JNull
  | JBool b => Some (JBool b)
  | JNumber n => JNumber <$> float64_of_int n
  | JString s => Some (JString (coerce_utf8 s))
  | JArray l => JArray <$> decode_items decode_value l
  | JObject ms => JObject <$> decode_members decode_value ms []
  end.

(** Decoding a JSON value into a field of type [string], [int64] and
    [interface{}]: null leaves a string or an integer as it is and makes an
    interface nil; a value of another kind is a type error. *)
Definition set_string (v : json) (old : string) : option string :=
  match v with
  | JString s => Some (coerce_utf8 s)
  | JNull => Some old
  | _ => None
  end.

Definition set_int64 (v : json) (old : Z) : option Z :=
  match v with
  | JNumber n => if (int64_min <=? n) && (n <=? int64_max) then Some n else None
  | JNull => Some old
  | _ => None
  end.

Definition set_interface (v : json) : option (option json) :=
  match v with
  | JNull => Some None
  | _ => Some <$> decode_value v
  end.

(** The folded form of a name, equal for two names exactly when they are
    equal under simple case folding. ASCII letters fold to upper case, and
    two letters outside ASCII fold into ASCII: U+017F (long s, the bytes
    C5 BF) to S and U+212A (Kelvin sign, E2 84 AA) to K. The other
    characters are left as they are; they fold to characters outside
    ASCII and the tags compared with are ASCII. *)
Fixpoint foldName (s : string) : string :=
  match s with
  | EmptyString => EmptyString
  | String a t =>
      if between 97 122 a then String (ascii_of_N (N_of_ascii a - 32)) (foldName t)
      else
        match t with
        | String b t' =>
            if Ascii.eqb a "197" && Ascii.eqb b "191" then String "S" (foldName t')
            else
              match t' with
              | String c t'' =>
                  if Ascii.eqb a "226" && Ascii.eqb b "132" && Ascii.eqb c "170"
                  then String "K" (foldName t'')
                  else String a (foldName t)
              | EmptyString => String a (foldName t)
              end
        | EmptyString => String a (foldName t)
        end
  end.

(** The JSON names of the fields of [RPCRequest], in declaration order. *)
Definition request_tags : list string := ["jsonrpc"; "method"; "params"; "id"]%string.

(** The field that a key selects: the one whose name is the key, or else
    the first whose name equals the key under case folding. *)
Definition field_named (k : string) : option string :=
  match find (String.eqb k) request_tags with
  | Some tag => Some tag
  | None => find (fun tag => String.eqb (foldName tag) (foldName k)) request_tags
  end.

(** One member of the object decoded into the struct; a key that selects
    no field is skipped. *)
Definition unmarshal_member (k : string) (v : json) (r : RPCRequest) : option RPCRequest :=
  match field_named (coerce_utf8 k) with
  | None => Some r
  | Some tag =>
      if String.eqb tag "jsonrpc" then
        s ← set_string v (req_JSONRPC r);
        Some {| req_JSONRPC := s; Method := Method r; Params := Params r; req_ID := req_ID r |}
      else if String.eqb tag "method" then
        s ← set_string v (Method r);
        Some {| req_JSONRPC := req_JSONRPC r; Method := s; Params := Params r;
                req_ID := req_ID r |}
      else if String.eqb tag "params" then
        p ← set_interface v;
        Some {| req_JSONRPC := req_JSONRPC r; Method := Method r; Params := p;
                req_ID := req_ID r |}
      else
        n ← set_int64 v (req_ID r);
        Some {| req_JSONRPC := req_JSONRPC r; Method := Method r; Params := Params r;
                req_ID := n |}
  end.

Fixpoint unmarshal_members (ms : list (string * json)) (r : RPCRequest) : option RPCRequest :=
  match ms with
  | [] => Some r
  | (k, v) :: ms' => r1 ← unmarshal_member k v r; unmarshal_members ms' r1
  end.

(** [json.Unmarshal] into a zero [RPCRequest]. *)
Definition unmarshal_request (j : json) : option RPCRequest :=
  let zero := {| req_JSONRPC := ""; Method := ""; Params := None; req_ID := 0 |} in
  match j with
  | JObject ms => unmarshal_members ms zero
  | JNull => Some zero
  | _ => None
  end.

(** The keys of a JSON object. *)
Definition keys (j : json) : list string :=
  match j with
  | JObject ms => ms.*1
  | _ => []
  end.

(** ** The goroutines of one client

    Any number of goroutines run [call] while the receive loops started by
    [Connect] run in the background. Each goroutine is at one of the points
    at which the code holds no lock; an event lets one goroutine run to its
    next such point. *)

(** A goroutine inside [call]: registered and about to write [req] (whose
    ID is the local [reqID]); suspended in the select; about to remove its
    entry and return [r]; or returned. The local variables [respCh] and
    [result] are carried along. *)
Inductive call_pc : Type :=
  | PcSend (respCh : chan) (req : RPCRequest) (d : dest)
  | PcWait (id : Z) (respCh : chan) (d : dest)
  | PcGiveUp (id : Z) (respCh : chan) (r : call_result)
  | PcDone (r : call_result).

(** A receive loop: at the top of [handleMessages]'s loop, about to read,
    holding a decoded response, holding a claimed channel and the response
    to send on it, or returned. *)
Inductive loop_pc : Type :=
  | LpTop
  | LpRead
  | LpClaim (r : RPCResponse)
  | LpSend (ch : chan) (r : RPCResponse)
  | LpDone.

(** Where an iteration starts: [handleSocketMessages] has no check of the
    handle. *)
Definition loop_start (k : loop_kind) : loop_pc :=
  match k with
  | WebSocketLoop => LpTop
  | SocketLoop => LpRead
  end.

Record System : Type := mkSystem {
  world : World;
  callers : list call_pc;
  loops : list (loop_kind * loop_pc)
}.

Inductive event : Type :=
  | EvConnect (e : connect_env)
  | EvCall (method : string) (params : option json) (d : dest)
  | EvWrite (t : nat) (werr : bool)
  | EvSelect (t : nat) (e : wait_env) (k : select_case)
  | EvUnregister (t : nat)
  | EvTop (i : nat)
  | EvRead (i : nat) (f : inbound)
  | EvClaim (i : nat)
  | EvDeliver (i : nat)
  | EvDisconnect.

(** Result of an event: the goroutine took its step, or it cannot take it
    now (it is not at that point, or it would block), or the step panics in
    a channel operation of a receive loop or of [Disconnect]. *)
Inductive step_res : Type :=
  | Stepped (s : System) (l : list effect)
  | Stuck
  | Crash.

Definition spawned (l : list effect) : list (loop_kind * loop_pc) :=
  omap (fun e => match e with Go k => Some (k, loop_start k) | _ => None end) l.

Definition with_caller (s : System) (w : World) (t : nat) (pc : call_pc) : System :=
  {| world := w; callers := <[t := pc]> (callers s); loops := loops s |}.

Definition with_loop (s : System) (w : World) (i : nat) (k : loop_kind) (pc : loop_pc) : System :=
  {| world := w; callers := callers s; loops := <[i := (k, pc)]> (loops s) |}.

Definition sys_step (ev : event) (s : System) : step_res :=
  match ev with
  | EvConnect e =>
      let '(w, l, _) := Connect e (world s) in
      Stepped {| world := w; callers := callers s; loops := loops s ++ spawned l |} l
  | EvCall method params d =>
      match call_begin (world s) with
      | (w, l, inl r) =>
          Stepped {| world := w; callers := callers s ++ [PcDone r]; loops := loops s |} l
      | (w, l, inr (id, respCh)) =>
          Stepped {| world := w;
                     callers := callers s ++ [PcSend respCh (make_request method params id) d];
                     loops := loops s |} l
      end
  | EvWrite t werr =>
      match callers s !! t with
      | Some (PcSend respCh req d) =>
          match call_send req werr (world s) with
          | (l, SendOk) => Stepped (with_caller s (world s) t (PcWait (req_ID req) respCh d)) l
          | (l, SendFailed) =>
              Stepped (with_caller s (world s) t (PcGiveUp (req_ID req) respCh ErrSendFailed)) l
          | (l, SendPanic) => Stepped (with_caller s (world s) t (PcDone CallPanic)) l
          end
      | _ => Stuck
      end
  | EvSelect t e k =>
      match callers s !! t with
      | Some (PcWait id respCh d) =>
          match call_wait id respCh d e k (world s) with
          | Some (w, l, Return r) => Stepped (with_caller s w t (PcDone r)) l
          | Some (w, l, GiveUp r) => Stepped (with_caller s w t (PcGiveUp id respCh r)) l
          | None => Stuck
          end
      | _ => Stuck
      end
  | EvUnregister t =>
      match callers s !! t with
      | Some (PcGiveUp id respCh r) =>
          Stepped (with_caller s (call_unregister id (world s)) t (PcDone r)) []
      | _ => Stuck
      end
  | EvTop i =>
      match loops s !! i with
      | Some (WebSocketLoop, LpTop) =>
          match hm_top (world s) with
          | (l, true) => Stepped (with_loop s (world s) i WebSocketLoop LpRead) l
          | (l, false) => Stepped (with_loop s (world s) i WebSocketLoop LpDone) l
          end
      | _ => Stuck
      end
  | EvRead i f =>
      match loops s !! i with
      | Some (WebSocketLoop, LpRead) =>
          match hm_read f with
          | (l, Some r) => Stepped (with_loop s (world s) i WebSocketLoop (LpClaim r)) l
          | (l, None) => Stepped (with_loop s (world s) i WebSocketLoop LpDone) l
          end
      | Some (SocketLoop, LpRead) =>
          match hs_read f with
          | (l, ScanFrame r) => Stepped (with_loop s (world s) i SocketLoop (LpClaim r)) l
          | (l, ScanSkip) => Stepped (with_loop s (world s) i SocketLoop LpRead) l
          | (l, ScanStop) => Stepped (with_loop s (world s) i SocketLoop LpDone) l
          end
      | _ => Stuck
      end
  | EvClaim i =>
      match loops s !! i with
      | Some (WebSocketLoop, LpClaim r) =>
          match hm_claim r (world s) with
          | (w, l, Some ch) => Stepped (with_loop s w i WebSocketLoop (LpSend ch r)) l
          | (w, l, None) => Stepped (with_loop s w i WebSocketLoop LpTop) l
          end
      | Some (SocketLoop, LpClaim r) =>
          match hs_claim r (world s) with
          | Some ch => Stepped (with_loop s (world s) i SocketLoop (LpSend ch r)) []
          | None => Stepped (with_loop s (world s) i SocketLoop LpRead) []
          end
      | _ => Stuck
      end
  | EvDeliver i =>
      match loops s !! i with
      | Some (k, LpSend ch r) =>
          match match k with
                | WebSocketLoop => hm_deliver ch r (world s)
                | SocketLoop => hs_deliver ch r (world s)
                end with
          | ChanOk (w, l) => Stepped (with_loop s w i k (loop_start k)) l
          | ChanBlock => Stuck
          | ChanPanic => Crash
          end
      | _ => Stuck
      end
  | EvDisconnect =>
      match Disconnect (world s) with
      | ChanOk (w, l) => Stepped {| world := w; callers := callers s; loops := loops s |} l
      | ChanBlock => Stuck
      | ChanPanic => Crash
      end
  end.

(** A schedule run from [s], with the effects in the order they happen. *)
Fixpoint run (tr : list event) (s : System) : step_res :=
  match tr with
  | [] => Stepped s []
  | ev :: tr' =>
      match sys_step ev s with
      | Stepped s1 l1 =>
          match run tr' s1 with
          | Stepped s2 l2 => Stepped s2 (l1 ++ l2)
          | r => r
          end
      | r => r
      end
  end.

(** A client fresh from [NewRPCClient], no goroutine running yet. *)
Definition init_system (u n p : string) : System :=
  {| world := {| client := NewRPCClient u n p; chans := [] |};
     callers := []; loops := [] |}.

Definition reachable (s : System) : Prop :=
  exists u n p tr l, run tr (init_system u n p) = Stepped s l.

(** ** The mutex

    [sys_step] takes every critical section as one step. That is what the
    mutex gives as long as every section ends by releasing it. One section
    may not: lines 378-380 call [WriteJSON] between [RLock] and [RUnlock]
    without [defer], so a write through a nil handle panics with the read
    lock held and the lock is never released. From then on no [Lock()]
    returns (lines 118, 330, 349, 384, 417, 424 and 598), and once a
    goroutine waits in [Lock()] no [RLock()] returns either (lines 254,
    299 and 378). The other sections release the lock on every path,
    [Connect] and [Disconnect] by [defer]. *)

Inductive lock_use : Type := NoLock | ReadLock | WriteLock.

(** The lock that the step of an event takes first. *)
Definition lock_of (ev : event) (s : System) : lock_use :=
  match ev with
  | EvConnect _ | EvCall _ _ _ | EvUnregister _ | EvDisconnect => WriteLock
  | EvWrite _ _ | EvTop _ => ReadLock
  | EvClaim i =>
      match loops s !! i with
      | Some (SocketLoop, _) => ReadLock
      | _ => WriteLock
      end
  | EvSelect _ _ _ | EvRead _ _ | EvDeliver _ => NoLock
  end.

(** The goroutines together with the state of the mutex: whether a read
    lock is held that will never be released, and whether a goroutine
    waits in [Lock()]. *)
Record Guarded : Type := mkGuarded {
  sys : System;
  rlock_leaked : bool;
  lock_waiting : bool
}.

(** The step panics between [RLock] and [RUnlock]: a write through a nil
    handle. *)
Definition leaks (ev : event) (s : System) : bool :=
  match ev with
  | EvWrite t werr =>
      match callers s !! t with
      | Some (PcSend _ req _) =>
          match call_send req werr (world s) with
          | (_, SendPanic) => true
          | _ => false
          end
      | _ => false
      end
  | _ => false
  end.

(** The goroutine cannot get the lock it asks for. *)
Definition blocked (ev : event) (g : Guarded) : bool :=
  match lock_of ev (sys g) with
  | NoLock => false
  | ReadLock => lock_waiting g
  | WriteLock => rlock_leaked g
  end.

(** Result of an event under the mutex: the goroutine took its step; or
    it is blocked in [Lock()] or [RLock()], where it stays; or it cannot
    take the step now; or the step panics in a channel operation. *)
Inductive guarded_res : Type :=
  | Ran (g : Guarded) (l : list effect)
  | Blocked (g : Guarded)
  | NotNow
  | Panics.

Definition mutex_step (ev : event) (g : Guarded) : guarded_res :=
  match sys_step ev (sys g) with
  | Stuck => NotNow
  | r =>
      if blocked ev g then
        Blocked {| sys := sys g; rlock_leaked := rlock_leaked g;
                   lock_waiting :=
                     match lock_of ev (sys g) with
                     | WriteLock => true
                     | _ => lock_waiting g
                     end |}
      else
        match r with
        | Stepped s l =>
            Ran {| sys := s; rlock_leaked := rlock_leaked g || leaks ev (sys g);
                   lock_waiting := lock_waiting g |} l
        | _ => Panics
        end
  end.

(** A schedule under the mutex. A goroutine that blocks stays where it
    is and the schedule goes on with the others. *)
Fixpoint mutex_run (tr : list event) (g : Guarded) : option (Guarded * list effect) :=
  match tr with
  | [] => Some (g, [])
  | ev :: tr' =>
      match mutex_step ev g with
      | Ran g1 l1 =>
          match mutex_run tr' g1 with
          | Some (g2, l2) => Some (g2, l1 ++ l2)
          | None => None
          end
      | Blocked g1 => mutex_run tr' g1
      | _ => None
      end
  end.

(** The mutex free: no lock held, no goroutine waiting. *)
Definition unlocked (s : System) : Guarded :=
  {| sys := s; rlock_leaked := false; lock_waiting := false |}.

Definition reachable_guarded (g : Guarded) : Prop :=
  exists u n p tr l, mutex_run tr (unlocked (init_system u n p)) = Some (g, l).

(** No step of the schedule panics holding the read lock. *)
Fixpoint leak_free (tr : list event) (s : System) : bool :=
  match tr with
  | [] => true
  | ev :: tr' =>
      negb (leaks ev s) &&
      match sys_step ev s with
      | Stepped s1 _ => leak_free tr' s1
      | _ => true
      end
  end.

(** * Properties *)

Abbreviation pend s := (pending (client (world s))).
Abbreviation heap_of s := (chans (world s)).
Abbreviation counter s := (reqID (client (world s))).

(** The ID and the channel a goroutine inside [call] holds in its local
    variables. *)
Definition pc_local (pc : call_pc) : option (Z * chan) :=
  match pc with
  | PcSend ch req _ => Some (req_ID req, ch)
  | PcWait id ch _ | PcGiveUp id ch _ => Some (id, ch)
  | PcDone _ => None
  end.

Definition owns (s : System) (t : nat) (id : Z) (ch : chan) : Prop :=
  exists pc, callers s !! t = Some pc /\ pc_local pc = Some (id, ch).

(** A receive loop has claimed [ch] and is about to send [r] on it. *)
Definition held (s : System) (ch : chan) (r : RPCResponse) : Prop :=
  exists i k, loops s !! i = Some (k, LpSend ch r).

Definition unix (s : System) : bool := is_unix_url (url (client (world s))).

(** The requests handed to the transport. *)
Definition requests (l : list effect) : list RPCRequest :=
  omap (fun e => match e with WriteJSON _ req _ => Some req | _ => None end) l.

(** An effect is a send on [ch] or the close of [ch]. *)
Definition touches (ch : chan) (e : effect) : bool :=
  match e with
  | Send c _ | Close c => Nat.eqb c ch
  | _ => false
  end.

(** How many times [ch] was sent on or closed. *)
Fixpoint deliveries (ch : chan) (l : list effect) : nat :=
  match l with
  | [] => 0%nat
  | e :: l' => ((if touches ch e then 1 else 0) + deliveries ch l')%nat
  end.

(** The invariant of the pending map, the channels and the goroutines:
    a registered channel is open and empty and registered once; so is a
    channel claimed by a loop, which is no longer registered; a client of
    the UNIX socket has no WebSocket handle and no entry; a goroutine
    inside [call] is the only one with its channel, and whatever is
    registered, claimed or buffered for that channel carries its ID. *)
Record wf (s : System) : Prop := mkWf {
  wf_pending : forall id ch, pend s !! id = Some ch -> heap_of s !! ch = Some new_chan;
  wf_inj : forall id1 id2 ch, pend s !! id1 = Some ch -> pend s !! id2 = Some ch -> id1 = id2;
  wf_held : forall ch r, held s ch r ->
    heap_of s !! ch = Some new_chan /\ forall id, pend s !! id <> Some ch;
  wf_held_inj : forall i j k1 k2 ch r1 r2,
    loops s !! i = Some (k1, LpSend ch r1) -> loops s !! j = Some (k2, LpSend ch r2) -> i = j;
  wf_unix : unix s = true -> conn (client (world s)) = None /\ pend s = ∅;
  wf_kind : forall i k pc, loops s !! i = Some (k, pc) ->
    k = if unix s then SocketLoop else WebSocketLoop;
  wf_owner : forall t id ch, owns s t id ch ->
    (ch < length (heap_of s))%nat /\
    (forall id', pend s !! id' = Some ch -> id' = id) /\
    (forall r, held s ch r -> resp_ID r = id) /\
    (forall st r, heap_of s !! ch = Some st -> buf st = Some r -> resp_ID r = id);
  wf_owner_inj : forall t1 t2 id1 id2 ch, owns s t1 id1 ch -> owns s t2 id2 ch -> t1 = t2
}.

(** A channel that can still be sent on or closed: registered, claimed, or
    not made yet. *)
Definition live (s : System) (ch : chan) : Prop :=
  (exists id, pend s !! id = Some ch) \/ (exists r, held s ch r) \/
  (length (heap_of s) <= ch)%nat.

(** The IDs in use lie below the counter, and no two goroutines inside
    [call] carry the same ID. *)
Record ids_ok (s : System) : Prop := mkIdsOk {
  ids_counter : 0 <= counter s <= int64_max;
  ids_pending : forall id ch, pend s !! id = Some ch -> 0 < id <= counter s;
  ids_owner : forall t id ch, owns s t id ch -> 0 < id <= counter s;
  ids_owner_inj : forall t1 t2 id ch1 ch2,
    owns s t1 id ch1 -> owns s t2 id ch2 -> t1 = t2
}.

(** The two invariants together. *)
Definition inv (s : System) : Prop := wf s /\ ids_ok s.

(** What one step does to the shared state and to the goroutines. Every
    step of a well-formed system has one of these shapes. *)
Inductive shape (s : System) : System -> list effect -> Prop :=
  | sh_connect w l ls :
      pending (client w) = pend s -> chans w = heap_of s ->
      reqID (client w) = counter s ->
      url (client w) = url (client (world s)) ->
      (unix s = true -> conn (client w) = conn (client (world s))) ->
      (forall c, deliveries c l = 0%nat) -> requests l = [] ->
      ls = [] \/ ls = [(if unix s then SocketLoop else WebSocketLoop,
                        loop_start (if unix s then SocketLoop else WebSocketLoop))] ->
      shape s {| world := w; callers := callers s; loops := loops s ++ ls |} l
  | sh_register cn m prm d :
      conn (client (world s)) = Some cn ->
      shape s
        {| world :=
             {| client := set_pending (<[wrap64 (counter s + 1) := length (heap_of s)]> (pend s))
                            (set_reqID (wrap64 (counter s + 1)) (client (world s)));
                chans := heap_of s ++ [new_chan] |};
           callers := callers s ++
             [PcSend (length (heap_of s)) (make_request m prm (wrap64 (counter s + 1))) d];
           loops := loops s |}
        [Log (LogCreatedPending (wrap64 (counter s + 1)))]
  | sh_refused :
      conn (client (world s)) = None ->
      shape s
        {| world := {| client := set_reqID (wrap64 (counter s + 1)) (client (world s));
                       chans := heap_of s |};
           callers := callers s ++ [PcDone ErrNotConnected];
           loops := loops s |}
        [Log LogNotConnected]
  | sh_caller t pc pc' l :
      callers s !! t = Some pc ->
      pc_local pc' = None \/ pc_local pc' = pc_local pc ->
      (forall c, deliveries c l = 0%nat) ->
      (conn (client (world s)) = None -> requests l = []) ->
      shape s (with_caller s (world s) t pc') l
  | sh_recv t id ch d st l r :
      callers s !! t = Some (PcWait id ch d) ->
      heap_of s !! ch = Some st ->
      is_Some (buf st) \/ closed st = true ->
      (forall c, deliveries c l = 0%nat) -> requests l = [] ->
      shape s
        (with_caller s
           {| client := client (world s);
              chans := match buf st with
                       | Some _ => <[ch := {| buf := None; closed := closed st |}]> (heap_of s)
                       | None => heap_of s
                       end |}
           t (PcDone r)) l
  | sh_unregister t id ch r :
      callers s !! t = Some (PcGiveUp id ch r) ->
      shape s (with_caller s (call_unregister id (world s)) t (PcDone r)) []
  | sh_loop i k pc pc' l :
      loops s !! i = Some (k, pc) ->
      (forall c r, pc' <> LpSend c r) ->
      (forall c, deliveries c l = 0%nat) -> requests l = [] ->
      shape s (with_loop s (world s) i k pc') l
  | sh_claim i r ch :
      loops s !! i = Some (WebSocketLoop, LpClaim r) ->
      pend s !! resp_ID r = Some ch ->
      shape s (with_loop s (call_unregister (resp_ID r) (world s)) i WebSocketLoop (LpSend ch r))
        [Log (LogFoundPending (resp_ID r))]
  | sh_deliver i k ch r :
      loops s !! i = Some (k, LpSend ch r) ->
      shape s
        (with_loop s
           {| client := client (world s);
              chans := <[ch := {| buf := Some r; closed := false |}]> (heap_of s) |}
           i k (loop_start k))
        [Send ch r]
  | sh_disconnect h l :
      length h = length (heap_of s) ->
      (forall c id, pend s !! id = Some c -> h !! c = Some {| buf := None; closed := true |}) ->
      (forall c, (forall id, pend s !! id <> Some c) -> h !! c = heap_of s !! c) ->
      (forall c id, pend s !! id = Some c -> deliveries c l = 1%nat) ->
      (forall c, (forall id, pend s !! id <> Some c) -> deliveries c l = 0%nat) ->
      requests l = [] ->
      shape s
        {| world := {| client := set_pending ∅ (set_conn None (isSocket (client (world s)))
                                                  (client (world s)));
                       chans := h |};
           callers := callers s; loops := loops s |} l.

(** The IDs taken by the calls of a schedule, in the order of their
    critical sections: the value of the local [reqID] of each. *)
Fixpoint allocated (tr : list event) (s : System) : list Z :=
  match tr with
  | [] => []
  | ev :: tr' =>
      match sys_step ev s with
      | Stepped s1 _ =>
          match ev with
          | EvCall _ _ _ => counter s1 :: allocated tr' s1
          | _ => allocated tr' s1
          end
      | _ => []
      end
  end.

(** Every registration of a schedule goes to an ID that is not in the map. *)
Fixpoint registers_fresh (tr : list event) (s : System) : Prop :=
  match tr with
  | [] => True
  | ev :: tr' =>
      match sys_step ev s with
      | Stepped s1 _ =>
          match ev with
          | EvCall _ _ _ => pend s !! counter s1 = None
          | _ => True
          end /\ registers_fresh tr' s1
      | _ => True
      end
  end.

(** Strictly increasing. *)
Fixpoint increasing (l : list Z) : Prop :=
  match l with
  | [] => True
  | x :: l' => Forall (fun y => x < y) l' /\ increasing l'
  end.

Definition is_call (ev : event) : bool :=
  match ev with
  | EvCall _ _ _ => true
  | _ => false
  end.

(** A step resolves the call [id] when it takes the entry of [id] out of
    the map: the receive loop claiming it, the caller giving up on a
    timeout, a cancellation or a failed write, or [Disconnect]. *)
Definition resolved (id : Z) (s s1 : System) : bool :=
  bool_decide (is_Some (pend s !! id)) && bool_decide (pend s1 !! id = None).

Fixpoint resolutions (id : Z) (tr : list event) (s : System) : nat :=
  match tr with
  | [] => 0%nat
  | ev :: tr' =>
      match sys_step ev s with
      | Stepped s1 _ => ((if resolved id s s1 then 1 else 0) + resolutions id tr' s1)%nat
      | _ => 0%nat
      end
  end.

(** Keys in strictly increasing order, byte by byte, as the keys of a map
    are written. *)
Fixpoint strictly_sorted (ks : list string) : bool :=
  match ks with
  | [] => true
  | k :: ks' => forallb (String.ltb k) ks' && strictly_sorted ks'
  end.

(** A value that an [interface{}] holds after decoding, and that is
    written as it is: strings are well-formed UTF-8, numbers are integers
    that a [float64] holds exactly (every integer up to 2^53 in absolute
    value is one), the keys of an object are in strictly increasing
    order. *)
Fixpoint generic (v : json) : bool :=
  match v with
  | JNull | JBool _ => true
  | JNumber n =>
      match float64_of_int n with
      | Some m => m =? n
      | None => false
      end
  | JString s => ValidString s
  | JArray l => forallb generic l
  | JObject ms =>
      strictly_sorted ms.*1 && forallb (fun kv => ValidString kv.1 && generic kv.2) ms
  end.

(** A request that the codec can carry: the ID is an [int64], the strings
    are well-formed UTF-8, and the parameters, when present, do not encode
    to null and are a value as a decoder produces it. *)
Definition representable (r : RPCRequest) : Prop :=
  int64_min <= req_ID r <= int64_max /\
  ValidString (req_JSONRPC r) = true /\ ValidString (Method r) = true /\
  match Params r with
  | None => True
  | Some v => v <> JNull /\ generic v = true
  end.

(** ** Example schedules *)

Definition ws_env : connect_env :=
  {| parsed := Some {| Scheme := "wss"; Host := "irc.example.org:8600"; Path := "/" |};
     dialed := Some 7%nat |}.

Definition three_calls : list event :=
  [EvConnect ws_env; EvCall "stats.get" None None; EvCall "user.list" None None;
   EvWrite 0 false; EvCall "channel.list" None None; EvDisconnect].

Definition dA : dest := Some (fun _ => true).

Definition two_dispatched : list event :=
  [EvConnect ws_env; EvCall "stats.get" None dA; EvCall "user.list" None dA;
   EvWrite 0 false; EvWrite 1 false].

Definition two_waiting : System :=
  match run two_dispatched (init_system "wss://irc.example.org:8600/" "panel" "secret") with
  | Stepped s _ => s
  | _ => init_system "" "" ""
  end.

Definition respA : RPCResponse :=
  {| resp_JSONRPC := "2.0"; Result := Some "[3,2,1]"%string; Error := None; resp_ID := 1 |}.
Definition respB : RPCResponse :=
  {| resp_JSONRPC := "2.0"; Result := Some "[]"%string; Error := None; resp_ID := 2 |}.

Definition late_and_duplicate : list event :=
  [EvConnect ws_env; EvCall "stats.get" None dA; EvWrite 0 false;
   EvTop 0; EvRead 0 (Frame respA); EvClaim 0;
   EvSelect 0 (mkWaitEnv false callTimeout) SelTimeout; EvDeliver 0; EvUnregister 0;
   EvTop 0; EvRead 0 (Frame respA); EvClaim 0; EvDisconnect].

Definition one_dispatched : list event :=
  [EvConnect ws_env; EvCall "stats.get" None dA; EvWrite 0 false].

Definition one_waiting : System :=
  match run one_dispatched (init_system "wss://irc.example.org:8600/" "panel" "secret") with
  | Stepped s _ => s
  | _ => init_system "" "" ""
  end.

Definition failing_write : call_env :=
  {| write_err := true; before_write := fun w => w; while_waiting := fun w => w;
     before_unregister := fun w => w; wenv := mkWaitEnv false 0; pick := SelResp |}.

Definition unix_env : connect_env := {| parsed := None; dialed := Some 3%nat |}.

(** * The rest of the client and its callers *)

(** ** Base64, read back

    The decoding of RFC 4648, section 4, against which [base64Encode] is
    checked: four characters of the alphabet give three bytes, a final
    group padded with one or two [=] gives two bytes or one. *)

(** The value of a character of the alphabet: [A]-[Z] are 0 to 25,
    [a]-[z] 26 to 51, [0]-[9] 52 to 61, [+] is 62 and [/] is 63. *)
Definition base64_index (a : ascii) : option Z :=
  let n := Z.of_N (N_of_ascii a) in
  if (65 <=? n) && (n <=? 90) then Some (n - 65)
  else if (97 <=? n) && (n <=? 122) then Some (n - 71)
  else if (48 <=? n) && (n <=? 57) then Some (n + 4)
  else if n =? 43 then Some 62
  else if n =? 47 then Some 63
  else None.

Definition is_pad (a : ascii) : bool := Ascii.eqb a "=".

Fixpoint rfc4648_decode (s : list ascii) : option (list Z) :=
  match s with
  | [] => Some []
  | c0 :: c1 :: c2 :: c3 :: rest =>
      i0 ← base64_index c0;
      i1 ← base64_index c1;
      let x := Z.lor (Z.shiftl i0 2) (Z.shiftr i1 4) in
      if is_pad c2 && is_pad c3 then
        match rest with [] => Some [x] | _ => None end
      else
        i2 ← base64_index c2;
        let y := Z.lor (Z.shiftl (Z.land i1 15) 4) (Z.shiftr i2 2) in
        if is_pad c3 then
          match rest with [] => Some [x; y] | _ => None end
        else
          i3 ← base64_index c3;
          r ← rfc4648_decode rest;
          Some (x :: y :: Z.lor (Z.shiftl (Z.land i2 3) 6) i3 :: r)
  | _ => None
  end.

(** The values of a byte, for checks by enumeration. *)
Definition byte_range : list Z := map Z.of_nat (seq 0 256).

Definition is_byte (x : Z) : Prop := 0 <= x < 256.

(** The characters of the alphabet. *)
Definition in_alphabet (a : ascii) : Prop := is_Some (base64_index a).

(** ** Strings of the standard library

    In the functions below a Go string is the list of its bytes. The
    functions of package [strings] are written out for strings of ASCII
    bytes, on which they work byte by byte; on other strings Go decodes
    UTF-8 and consults the Unicode tables, which are not part of this
    development. The properties that depend on them are stated for ASCII
    strings. *)

Definition isASCII (s : list ascii) : bool :=
  forallb (fun a => (N_of_ascii a <? 128)%N) s.

(** [asciiSpace]: tab, line feed, vertical tab, form feed, carriage
    return, space. *)
Definition asciiSpace (a : ascii) : bool :=
  match N_of_ascii a with
  | 9 | 10 | 11 | 12 | 13 | 32 => true
  | _ => false
  end%N.

(** [strings.Fields]: [field] is the field being read, [s[fieldStart:i]];
    a space ends it, the end of the string ends the last one. *)
Fixpoint fields_from (field : list ascii) (s : list ascii) : list (list ascii) :=
  match s with
  | [] => if decide (field = []) then [] else [field]
  | a :: s' =>
      if asciiSpace a then
        if decide (field = []) then fields_from [] s' else field :: fields_from [] s'
      else fields_from (field ++ [a]) s'
  end.

Definition Fields (s : list ascii) : list (list ascii) := fields_from [] s.

(** [strings.ToLower]: [A]-[Z] are moved to [a]-[z]. *)
Definition lower (a : ascii) : ascii :=
  let n := N_of_ascii a in
  if ((65 <=? n) && (n <=? 90))%N then ascii_of_N (n + 32) else a.

Definition ToLower (s : list ascii) : list ascii := map lower s.

(** [strings.HasPrefix]. *)
Fixpoint HasPrefix (s prefix : list ascii) : bool :=
  match prefix, s with
  | [], _ => true
  | p :: prefix', a :: s' => Ascii.eqb a p && HasPrefix s' prefix'
  | _ :: _, [] => false
  end.

(** [strings.Index]: the position of the first occurrence; [None] is -1. *)
Fixpoint Index (s substr : list ascii) : option nat :=
  if HasPrefix s substr then Some 0%nat
  else match s with
       | [] => None
       | _ :: s' => S <$> Index s' substr
       end.

(** [strings.Contains]. *)
Definition Contains (s substr : list ascii) : bool :=
  match Index s substr with Some _ => true | None => false end.

(** [strings.Split] with a separator of one byte: the pieces between the
    separators, one more than there are separators. *)
Fixpoint Split (s : list ascii) (sep : ascii) : list (list ascii) :=
  match s with
  | [] => [[]]
  | a :: s' =>
      if Ascii.eqb a sep then [] :: Split s' sep
      else match Split s' sep with
           | p :: ps => (a :: p) :: ps
           | [] => [[a]]
           end
  end.

(** ** [parseModesString] (client.go) and [parseModeString] (main.go) *)

(** client.go, lines 679-693. *)
Definition parseModesString (modes : list ascii) : list (list ascii) :=
  if decide (modes = []) then []
  else
    let parts := Fields modes in
    if decide (length parts = 0%nat) then [] else parts.

(** main.go, lines 676-690. *)
Definition parseModeString (modes : list ascii) : list ascii :=
  if decide (modes = []) then []
  else
    match Fields modes with
    | [] => []
    | p :: _ => "+"%char :: p
    end.

(** A string without white space. *)
Definition spaceless (f : list ascii) : Prop := Forall (fun a => asciiSpace a = false) f.

(** ** [matchesSearchQuery] (main.go) *)

(** Lines 1030-1043: the loop over the pieces of the query. The slice
    [text[lastIndex:]] panics when [lastIndex] exceeds the length of the
    text; [None] is that panic. *)
Fixpoint match_parts (text : list ascii) (parts : list (list ascii)) (lastIndex : nat)
  : option bool :=
  match parts with
  | [] => Some true
  | part :: parts' =>
      if decide (part = []) then match_parts text parts' lastIndex
      else if (lastIndex <=? length text)%nat then
        match Index (drop lastIndex text) part with
        | None => Some false
        | Some index => match_parts text parts' (lastIndex + (index + length part))
        end
      else None
  end.

(** Lines 1017-1048. *)
Definition matchesSearchQuery (text query : list ascii) : option bool :=
  if decide (query = []) then Some true
  else
    let text := ToLower text in
    let query := ToLower query in
    if Contains query ["*"%char] then match_parts text (Split query "*") 0
    else Some (Contains text query).

(** The pieces occur in the text one after the other, without overlap. *)
Fixpoint in_order (parts : list (list ascii)) (text : list ascii) : Prop :=
  match parts with
  | [] => True
  | p :: ps => exists gap rest, text = gap ++ p ++ rest /\ in_order ps rest
  end.

(** The pieces of a query that the loop looks for. *)
Definition pieces (query : list ascii) : list (list ascii) :=
  filter (fun p => p <> []) (Split (ToLower query) "*").

(** [strings.Join]. *)
Fixpoint Join (elems : list (list ascii)) (sep : list ascii) : list ascii :=
  match elems with
  | [] => []
  | [e] => e
  | e :: rest => e ++ sep ++ Join rest sep
  end.

(** A field, as [Fields] returns them: not empty and without white space. *)
Definition is_field (f : list ascii) : Prop := f <> [] /\ spaceless f.

(** A string of white space only. *)
Definition blank (s : list ascii) : Prop := Forall (fun a => asciiSpace a = true) s.

(** ** The guards of the HTTP routes (main.go) *)

(** A value stored in a request context. *)
Inductive ctx_value : Type :=
  | CtxInt (n : Z)
  | CtxString (s : string).

(** The values of a request context, by key; a later [context.WithValue]
    hides an earlier one for the same key. *)
Abbreviation context := (gmap string ctx_value).

Record JWTClaims : Type := mkClaims {
  claims_UserID : Z;
  claims_Username : string;
  claims_Role : string
}.

(** What a middleware does with a request: it passes it on to the next
    handler, with a context, or it answers with an error. *)
Inductive guard_result : Type :=
  | Next (ctx : context)
  | HttpError (status : Z) (body : string).

(** Lines 458-463: a missing value, or one of another type, reads as the
    zero value. *)
Definition getUserFromContext (ctx : context) : Z * string * string :=
  (match ctx !! "user_id"%string with Some (CtxInt n) => n | _ => 0 end,
   match ctx !! "username"%string with Some (CtxString s) => s | _ => ""%string end,
   match ctx !! "role"%string with Some (CtxString s) => s | _ => ""%string end).

(** Lines 472-477: the loop over the allowed roles. *)
Fixpoint role_loop (role : string) (allowedRoles : list string) : bool :=
  match allowedRoles with
  | [] => false
  | allowedRole :: rest =>
      if String.eqb role allowedRole || String.eqb role "admin" then true
      else role_loop role rest
  end.

(** Lines 466-482. *)
Definition requireRole (allowedRoles : list string) (ctx : context) : guard_result :=
  let '(_, _, role) := getUserFromContext ctx in
  if role_loop role allowedRoles then Next ctx
  else HttpError 403 "Insufficient permissions".

Definition bearerPrefix : string := "Bearer ".

(** Lines 421-455. [validateJWT] is the check of the token by the JWT
    library: the claims of a token that is well signed and not expired. *)
Definition authMiddleware (validateJWT : string -> option JWTClaims) (authHeader : string)
    (ctx : context) : guard_result :=
  if String.eqb authHeader "" then HttpError 401 "Authorization header required"
  else if negb (String.prefix bearerPrefix authHeader) then
    HttpError 401 "Invalid authorization format. Use: Bearer <token>"
  else
    let tokenString :=
      substring (String.length bearerPrefix)
                (String.length authHeader - String.length bearerPrefix) authHeader in
    match validateJWT tokenString with
    | None => HttpError 401 "Invalid or expired token"
    | Some claims =>
        Next (<["role"%string := CtxString (claims_Role claims)]>
               (<["username"%string := CtxString (claims_Username claims)]>
                 (<["user_id"%string := CtxInt (claims_UserID claims)]> ctx)))
    end.

(** A route of a subrouter that uses [requireRole], below the [/api]
    router, which uses [authMiddleware] (lines 1306-1339): the request
    passes the two guards in that order. *)
Definition guarded (validateJWT : string -> option JWTClaims) (allowedRoles : list string)
    (authHeader : string) (ctx : context) : guard_result :=
  match authMiddleware validateJWT authHeader ctx with
  | Next ctx1 => requireRole allowedRoles ctx1
  | HttpError status body => HttpError status body
  end.

(** ** Configuration (main.go) *)

(** [os.Getenv]: the value of the variable, empty when it is not set. *)
Definition Getenv (env : gmap string string) (key : string) : string :=
  default ""%string (env !! key).

(** Lines 153-158. *)
Definition getEnv (env : gmap string string) (key defaultValue : string) : string :=
  let value := Getenv env key in
  if negb (String.eqb value "") then value else defaultValue.

(** [strconv.ParseBool]. *)
Definition ParseBool (str : string) : option bool :=
  if existsb (String.eqb str) ["1"; "t"; "T"; "TRUE"; "true"; "True"]%string then Some true
  else if existsb (String.eqb str) ["0"; "f"; "F"; "FALSE"; "false"; "False"]%string
  then Some false
  else None.

(** Lines 160-167. *)
Definition getEnvBool (env : gmap string string) (key : string) (defaultValue : bool) : bool :=
  let value := Getenv env key in
  if negb (String.eqb value "") then
    match ParseBool value with
    | Some parsed => parsed
    | None => defaultValue
    end
  else defaultValue.

Record Config : Type := mkConfig {
  Port : string;
  UnrealRPCURL : string;
  UnrealRPCUsername : string;
  UnrealRPCPassword : string;
  UseMockData : bool;
  JWTSecret : string
}.

(** Lines 142-151. *)
Definition loadConfig (env : gmap string string) : Config :=
  {| Port := getEnv env "PORT" "8080";
     UnrealRPCURL := getEnv env "UNREAL_RPC_URL" "";
     UnrealRPCUsername := getEnv env "UNREAL_RPC_USERNAME" "";
     UnrealRPCPassword := getEnv env "UNREAL_RPC_PASSWORD" "";
     UseMockData := getEnvBool env "USE_MOCK_DATA" true;
     JWTSecret := getEnv env "JWT_SECRET" "default-secret-change-me" |}.

Definition set_UseMockData (b : bool) (c : Config) : Config :=
  {| Port := Port c; UnrealRPCURL := UnrealRPCURL c;
     UnrealRPCUsername := UnrealRPCUsername c; UnrealRPCPassword := UnrealRPCPassword c;
     UseMockData := b; JWTSecret := JWTSecret c |}.

(** ** The operations of the client (client.go, lines 431-583)

    Each operation is one [call]. The log lines of the operations
    themselves are left out of the effects. *)

(** [json.Marshal] of a [map[string]string]: an object with the keys in
    sorted order, keys and values coerced to UTF-8 as they are written. *)
Fixpoint insert_sorted (kv : string * string) (l : list (string * string))
  : list (string * string) :=
  match l with
  | [] => [kv]
  | kv' :: l' => if String.leb kv.1 kv'.1 then kv :: l else kv' :: insert_sorted kv l'
  end.

Definition sort_keys (l : list (string * string)) : list (string * string) :=
  foldr insert_sorted [] l.

Definition marshal_string_map (m : gmap string string) : json :=
  JObject ((fun kv => (coerce_utf8 kv.1, JString (coerce_utf8 kv.2)))
             <$> sort_keys (map_to_list m)).

(** Lines 518-535. *)
Definition KickUser (e : call_env) (channel nick reason : string) (w : World)
  : option (World * list effect * call_result) :=
  let params : gmap string string :=
    <["channel"%string := channel]> (<["nick"%string := nick]>
      (<["reason"%string := reason]> ∅)) in
  call e "channel.kick" (Some (marshal_string_map params)) None w.

(** Lines 538-555. *)
Definition BanUser (e : call_env) (channel mask reason : string) (w : World)
  : option (World * list effect * call_result) :=
  let params : gmap string string :=
    <["channel"%string := channel]> (<["mask"%string := mask]>
      (<["reason"%string := reason]> ∅)) in
  call e "channel.ban_add" (Some (marshal_string_map params)) None w.

(** Lines 558-578. The result is unmarshaled into an [interface{}], which
    accepts every raw message. *)
Definition SendLog (e : call_env) (message level subsystem eventID : string) (w : World)
  : option (World * list effect * call_result) :=
  let params : gmap string string :=
    <["msg"%string := message]> (<["level"%string := level]>
      (<["subsystem"%string := subsystem]> (<["event_id"%string := eventID]> ∅))) in
  call e "log.send" (Some (marshal_string_map params)) (Some (fun _ => true)) w.

(** Lines 581-583. *)
Definition SendCopilotLog (e : call_env) (w : World)
  : option (World * list effect * call_result) :=
  SendLog e "Co-pilot is the best" "info" "admin" "COPILOT_MESSAGE" w.

(** The result of [stats.get], as lines 435-441 decode it. *)
Record stats_result : Type := mkStats {
  stats_Users : Z;
  stats_Channels : Z;
  stats_Servers : Z;
  stats_Opers : Z;
  stats_Uptime : Z
}.

Record NetworkInfo : Type := mkNetworkInfo {
  UsersOnline : Z;
  Channels : Z;
  Servers : Z;
  Operators : Z;
  Uptime : Z
}.

Definition zero_stats : stats_result := mkStats 0 0 0 0 0.

(** Lines 432-459. [unmarshal] is [json.Unmarshal] into the result
    structure; when the response has no result the structure keeps its
    zero values. The error is the one of [call]; the pointer is nil
    exactly when there is an error. *)
Definition GetNetworkInfo (unmarshal : RawMessage -> option stats_result) (e : call_env)
    (w : World) : option (World * list effect * (option NetworkInfo * call_result)) :=
  match call e "stats.get" None
             (Some (fun raw => match unmarshal raw with Some _ => true | None => false end)) w with
  | None => None
  | Some (w1, l, CallOk payload) =>
      let result :=
        match payload with
        | Some raw => default zero_stats (unmarshal raw)
        | None => zero_stats
        end in
      Some (w1, l,
            (Some {| UsersOnline := stats_Users result; Channels := stats_Channels result;
                     Servers := stats_Servers result; Operators := stats_Opers result;
                     Uptime := stats_Uptime result |}, CallOk payload))
  | Some (w1, l, err) => Some (w1, l, (None, err))
  end.

(** ** [initRPCClient] (main.go, lines 273-310) *)

(** The outcome: the configuration and the client pointer that the
    function leaves in the global variables, or a panic of the startup
    call. *)
Inductive init_result : Type :=
  | InitDone (cfg : Config) (rpcClient : option World)
  | InitPanic.

Definition initRPCClient (ce : connect_env) (e : call_env) (cfg : Config)
  : option (init_result * list effect) :=
  if negb (String.eqb (UnrealRPCURL cfg) "") && negb (String.eqb (UnrealRPCUsername cfg) "")
     && negb (UseMockData cfg)
  then
    let w0 := {| client := NewRPCClient (UnrealRPCURL cfg) (UnrealRPCUsername cfg)
                             (UnrealRPCPassword cfg);
                 chans := [] |} in
    match Connect ce w0 with
    | (w1, l1, ConnectOk) =>
        match SendCopilotLog e w1 with
        | None => None
        | Some (w2, l2, CallPanic) => Some (InitPanic, l1 ++ l2)
        | Some (w2, l2, _) => Some (InitDone cfg (Some w2), l1 ++ l2)
        end
    | (_, l1, _) => Some (InitDone (set_UseMockData true cfg) None, l1)
    end
  else Some (InitDone (set_UseMockData true cfg) None, []).

(** The environment asks for a real connection. *)
Definition real_mode (env : gmap string string) : Prop :=
  Getenv env "UNREAL_RPC_URL" <> ""%string /\
  Getenv env "UNREAL_RPC_USERNAME" <> ""%string /\
  ParseBool (Getenv env "USE_MOCK_DATA") = Some false.

(** The dials among the effects. *)
Definition is_dial (e : effect) : bool :=
  match e with
  | DialUnix _ | DialWebSocket _ _ => true
  | _ => false
  end.

(** ** The pending map and the goroutines inside [call] *)

(** Every entry of the pending map belongs to a goroutine that is still
    inside [call]; a client without a WebSocket handle has no entry. *)
Record tidy (s : System) : Prop := mkTidy {
  tidy_owned : forall id ch, pend s !! id = Some ch -> exists t, owns s t id ch;
  tidy_closed : conn (client (world s)) = None -> pend s = ∅
}.

(** The handles closed among the effects. *)
Definition closes (l : list effect) : list Conn :=
  omap (fun e => match e with CloseConn cn => Some cn | _ => None end) l.

(** A client of the UNIX socket in which no loop holds a response to
    send. *)
Definition no_loop_sends (s : System) : Prop :=
  forall i k ch r, loops s !! i <> Some (k, LpSend ch r).

(** ** Users and channels for the API (main.go) *)

(** [UserInfo], [ChannelUser] and [ChannelInfo] of client.go. *)
Record UserInfo : Type := mkUserInfo {
  ui_Nick : string;
  ui_Hostname : string;
  ui_IP : string;
  ui_Country : string;
  ui_Account : string;
  ui_Realname : string;
  ui_Server : string;
  ui_ConnectTime : Z;
  ui_IsOper : bool;
  ui_OperClass : string;
  ui_Modes : list string
}.

Record ChannelUser : Type := mkChannelUser {
  cu_Nick : string;
  cu_Modes : list string;
  cu_Joined : Z
}.

Record ChannelInfo : Type := mkChannelInfo {
  ci_Name : string;
  ci_UserCount : Z;
  ci_Topic : string;
  ci_CreationTime : string;
  ci_TopicSetBy : string;
  ci_TopicSetAt : string;
  ci_Modes : string;
  ci_Users : list ChannelUser
}.

(** [User] and [Channel] of main.go. *)
Record User : Type := mkUser {
  usr_Nick : string;
  usr_Country : string;
  usr_HostIP : string;
  usr_Account : string;
  usr_Oper : string;
  usr_ConnectedTo : string;
  usr_Reputation : Z;
  usr_Modes : string;
  usr_ConnectTime : string
}.

Record Channel : Type := mkChannel {
  chn_Name : string;
  chn_Users : Z;
  chn_Modes : string;
  chn_Topic : string;
  chn_Created : string;
  chn_UserList : list ChannelUser
}.

(** Lines 1252-1261. *)
Definition joinStrings (strs : list string) : string :=
  match strs with
  | [] => ""
  | s0 :: rest => fold_left (fun result s => result +:+ s) rest s0
  end.

(** Lines 1177-1185. *)
Definition getOperClass (user : UserInfo) : string :=
  if ui_IsOper user then
    if negb (String.eqb (ui_OperClass user) "") then ui_OperClass user else "O"
  else "".

(** The body of the loop of [getUsersHandler], lines 583-613. [ago] is
    the text that lines 584-592 make of the connect time and the clock. *)
Definition user_of_handler (ago : Z -> string) (rpcUser : UserInfo) : User :=
  let timeStr := ago (ui_ConnectTime rpcUser) in
  let operClass := "" in
  let operClass :=
    if ui_IsOper rpcUser then
      let operClass := ui_OperClass rpcUser in
      if String.eqb operClass "" then "O" else operClass
    else operClass in
  {| usr_Nick := ui_Nick rpcUser;
     usr_Country := ui_Country rpcUser;
     usr_HostIP := ui_Hostname rpcUser +:+ " (" +:+ ui_IP rpcUser +:+ ")";
     usr_Account := ui_Account rpcUser;
     usr_Oper := operClass;
     usr_ConnectedTo := ui_Server rpcUser;
     usr_Reputation := 0;
     usr_Modes := "+" +:+ joinStrings (ui_Modes rpcUser);
     usr_ConnectTime := timeStr |}.

(** Lines 582-613: the list that [getUsersHandler] encodes. *)
Definition users_of_handler (ago : Z -> string) (rpcUsers : list UserInfo) : list User :=
  map (user_of_handler ago) rpcUsers.

(** The value held by the [Data] field of a search result. *)
Inductive search_data : Type :=
  | DataUser (u : User)
  | DataChannel (c : Channel).

Record SearchResult : Type := mkSearchResult {
  sr_Type : string;
  sr_Name : string;
  sr_Description : string;
  sr_Data : search_data
}.

(** [a || b], where [b] is evaluated only when [a] is false; [None] is a
    panic. *)
Definition or_else (a b : option bool) : option bool :=
  match a with
  | Some true => Some true
  | Some false => b
  | None => None
  end.

Definition matches (text query : string) : option bool :=
  matchesSearchQuery (list_ascii_of_string text) (list_ascii_of_string query).

(** [%d]. *)
Definition itoa (n : Z) : string := NilZero.string_of_int (Z.to_int n).

(** Lines 954-980: the result for a user that matches. *)
Definition user_result (ago : Z -> string) (rpcUser : UserInfo) : SearchResult :=
  let user :=
    {| usr_Nick := ui_Nick rpcUser;
       usr_Country := ui_Country rpcUser;
       usr_HostIP := ui_Hostname rpcUser +:+ " (" +:+ ui_IP rpcUser +:+ ")";
       usr_Account := ui_Account rpcUser;
       usr_Oper := getOperClass rpcUser;
       usr_ConnectedTo := ui_Server rpcUser;
       usr_Reputation := 0;
       usr_Modes := "+" +:+ joinStrings (ui_Modes rpcUser);
       usr_ConnectTime := ago (ui_ConnectTime rpcUser) |} in
  {| sr_Type := "user";
     sr_Name := ui_Nick rpcUser;
     sr_Description :=
       "Account: " +:+ ui_Account rpcUser +:+ ", Connected to: " +:+ ui_Server rpcUser;
     sr_Data := DataUser user |}.

(** Lines 991-1008: the result for a channel that matches. [created] is
    the text that [parseRPCTimestamp] and [Format] make of the creation
    time. *)
Definition channel_result (created : string -> string) (rpcChannel : ChannelInfo)
  : SearchResult :=
  let channel :=
    {| chn_Name := ci_Name rpcChannel;
       chn_Users := ci_UserCount rpcChannel;
       chn_Modes :=
         string_of_list_ascii (parseModeString (list_ascii_of_string (ci_Modes rpcChannel)));
       chn_Topic := ci_Topic rpcChannel;
       chn_Created := created (ci_CreationTime rpcChannel);
       chn_UserList := ci_Users rpcChannel |} in
  {| sr_Type := "channel";
     sr_Name := ci_Name rpcChannel;
     sr_Description := itoa (ci_UserCount rpcChannel) +:+ " users - " +:+ ci_Topic rpcChannel;
     sr_Data := DataChannel channel |}.

(** Lines 949-982: the loop over the users. *)
Fixpoint search_users (ago : Z -> string) (query : string) (rpcUsers : list UserInfo)
    (results : list SearchResult) : option (list SearchResult) :=
  match rpcUsers with
  | [] => Some results
  | rpcUser :: rest =>
      match or_else (matches (ui_Nick rpcUser) query)
              (or_else (matches (ui_Account rpcUser) query)
                       (matches (ui_Realname rpcUser) query)) with
      | Some true => search_users ago query rest (results ++ [user_result ago rpcUser])
      | Some false => search_users ago query rest results
      | None => None
      end
  end.

(** Lines 987-1010: the loop over the channels. *)
Fixpoint search_channels (created : string -> string) (query : string)
    (rpcChannels : list ChannelInfo) (results : list SearchResult)
  : option (list SearchResult) :=
  match rpcChannels with
  | [] => Some results
  | rpcChannel :: rest =>
      match or_else (matches (ci_Name rpcChannel) query)
                    (matches (ci_Topic rpcChannel) query) with
      | Some true =>
          search_channels created query rest (results ++ [channel_result created rpcChannel])
      | Some false => search_channels created query rest results
      | None => None
      end
  end.

(** Lines 944-1014. [users] and [channels] are what [GetUsers] and
    [GetChannels] returned, [None] when they returned an error. *)
Definition getSearchResults (ago : Z -> string) (created : string -> string) (query : string)
    (users : option (list UserInfo)) (channels : option (list ChannelInfo))
  : option (list SearchResult) :=
  results ← match users with
            | Some rpcUsers => search_users ago query rpcUsers []
            | None => Some []
            end;
  match channels with
  | Some rpcChannels => search_channels created query rpcChannels results
  | None => Some results
  end.

(** Whether a user or a channel matches a query. *)
Definition user_matches (query : string) (u : UserInfo) : bool :=
  match or_else (matches (ui_Nick u) query)
          (or_else (matches (ui_Account u) query) (matches (ui_Realname u) query)) with
  | Some b => b
  | None => false
  end.

Definition channel_matches (query : string) (c : ChannelInfo) : bool :=
  match or_else (matches (ci_Name c) query) (matches (ci_Topic c) query) with
  | Some b => b
  | None => false
  end.

(** A string of ASCII bytes. *)
Definition ascii_text (s : string) : Prop := isASCII (list_ascii_of_string s) = true.

(** ** [handleMessages] over a sequence of messages *)

(** The registered channels are open and empty, and no channel is
    registered twice. *)
Definition world_ok (w : World) : Prop :=
  (forall id ch, pending (client w) !! id = Some ch -> chans w !! ch = Some new_chan) /\
  (forall id1 id2 ch,
     pending (client w) !! id1 = Some ch -> pending (client w) !! id2 = Some ch -> id1 = id2).

(** The sends among the effects. *)
Definition sends (l : list effect) : list (chan * RPCResponse) :=
  omap (fun e => match e with Send ch r => Some (ch, r) | _ => None end) l.

Ltac wf_open W :=
  destruct W as [Wp Wi Wh Whi Wu Wk Wo Woi];
  unfold held, owns, unix in *; simpl in *.

(** ** Lemmas *)

Lemma deliveries_app ch l1 l2 :
  deliveries ch (l1 ++ l2) = (deliveries ch l1 + deliveries ch l2)%nat.
Proof. induction l1 as [|e l1 IH]; simpl; [done | rewrite IH; lia]. Qed.

Section channels.
Implicit Types (h : heap) (ch : chan).

Lemma chan_send_fresh h ch v :
  h !! ch = Some new_chan ->
  chan_send h ch v = ChanOk (<[ch := {| buf := Some v; closed := false |}]> h).
Proof. intros H. unfold chan_send. by rewrite H. Qed.

Lemma chan_close_fresh h ch :
  h !! ch = Some new_chan ->
  chan_close h ch = ChanOk (<[ch := {| buf := None; closed := true |}]> h).
Proof. intros H. unfold chan_close. by rewrite H. Qed.

Lemma chan_recv_ready_fresh h ch :
  h !! ch = Some new_chan -> chan_recv_ready h ch = false.
Proof. intros H. unfold chan_recv_ready. by rewrite H. Qed.

Lemma chan_recv_inv h ch v h' :
  chan_recv h ch = ChanOk (v, h') ->
  exists st, h !! ch = Some st /\ v = buf st /\
    (buf st = None -> closed st = true /\ h' = h) /\
    (is_Some (buf st) -> h' = <[ch := {| buf := None; closed := closed st |}]> h).
Proof.
  unfold chan_recv. destruct (h !! ch) as [st|] eqn:E; [|done].
  destruct (buf st) as [r|] eqn:B.
  - intros [= <- <-]. exists st. rewrite B. by split_and!.
  - destruct (closed st) eqn:C; [|done]. intros [= <- <-].
    exists st. rewrite B. by split_and!.
Qed.

Lemma close_all_spec (l : list (Z * chan)) h :
  NoDup l.*2 ->
  (forall ch, ch ∈ l.*2 -> h !! ch = Some new_chan) ->
  exists h' e, close_all l h = ChanOk (h', e) /\
    length h' = length h /\
    (forall ch, ch ∈ l.*2 -> h' !! ch = Some {| buf := None; closed := true |}) /\
    (forall ch, ch ∉ l.*2 -> h' !! ch = h !! ch) /\
    (forall ch, ch ∈ l.*2 -> deliveries ch e = 1%nat) /\
    (forall ch, ch ∉ l.*2 -> deliveries ch e = 0%nat) /\
    requests e = [].
Proof.
  revert h. induction l as [|[id c] l IH]; intros h Hnd Hfr; simpl in *.
  - exists h, []. split_and!; try done. all: intros ch Hch; try done; by apply elem_of_nil in Hch.
  - apply NoDup_cons in Hnd as [Hc Hnd].
    rewrite (chan_close_fresh h c) by (apply Hfr; left).
    assert (Hfr' : forall ch, ch ∈ l.*2 ->
              (<[c := {| buf := None; closed := true |}]> h) !! ch = Some new_chan).
    { intros ch Hch. rewrite list_lookup_insert_ne; [apply Hfr; by right|]. intros ->. done. }
    destruct (IH _ Hnd Hfr') as (h' & e & -> & Hlen & Hin & Hout & Hd1 & Hd0 & Hrq).
    exists h', (Log (LogClosingPending id) :: Close c :: e).
    assert (Hc' : (c < length h)%nat) by (eapply lookup_lt_Some, Hfr; left).
    split_and!; try done.
    + by rewrite Hlen, length_insert.
    + intros ch [->|Hch]%elem_of_cons; [|by apply Hin].
      rewrite Hout by done. by rewrite list_lookup_insert_eq.
    + intros ch [Hne Hch]%not_elem_of_cons. rewrite Hout by done.
      by rewrite list_lookup_insert_ne.
    + intros ch [->|Hch]%elem_of_cons; simpl.
      * rewrite Nat.eqb_refl, Hd0; done.
      * rewrite Hd1 by done. destruct (Nat.eqb_spec c ch) as [->|]; done.
    + intros ch [Hne Hch]%not_elem_of_cons. simpl. rewrite Hd0 by done.
      destruct (Nat.eqb_spec c ch) as [->|]; done.
Qed.

End channels.


Lemma requests_app l1 l2 : requests (l1 ++ l2) = requests l1 ++ requests l2.
Proof. apply omap_app. Qed.

Lemma call_finish_quiet d v :
  (forall c, deliveries c (call_finish d v).1 = 0%nat) /\ requests (call_finish d v).1 = [].
Proof.
  unfold call_finish. destruct v as [r|]; [|done].
  destruct (Error r); [done|]. destruct d as [valid|]; [|done].
  destruct (Result r) as [raw|]; [|done]. by destruct (valid raw).
Qed.

Lemma wf_init u n p : wf (init_system u n p).
Proof.
  split; unfold held, owns, unix; simpl; try done.
  - by intros ch r (i & k & H).
  - by intros t id ch (pc & H & _).
  - by intros t1 t2 id1 id2 ch (pc & H & _).
Qed.

Lemma wf_pending_lt s id ch : wf s -> pend s !! id = Some ch -> (ch < length (heap_of s))%nat.
Proof. intros W H. eapply lookup_lt_Some, wf_pending; eauto. Qed.

Lemma wf_held_lt s ch r : wf s -> held s ch r -> (ch < length (heap_of s))%nat.
Proof. intros W H. eapply lookup_lt_Some. by eapply wf_held. Qed.

Lemma pending_values_NoDup s : wf s -> NoDup (map_to_list (pend s)).*2.
Proof.
  intros W. apply NoDup_fmap_2_strong; [|apply NoDup_map_to_list].
  intros [id1 c1] [id2 c2] H1%elem_of_map_to_list H2%elem_of_map_to_list E.
  simpl in E. subst c2. f_equal. by eapply (wf_inj _ W).
Qed.

Lemma elem_of_pending_values s c :
  c ∈ (map_to_list (pend s)).*2 <-> exists id, pend s !! id = Some c.
Proof.
  rewrite list_elem_of_fmap. split.
  - intros ([id c'] & -> & H%elem_of_map_to_list). eauto.
  - intros (id & H). exists (id, c). split; [done|]. by apply elem_of_map_to_list.
Qed.

Lemma Disconnect_spec s :
  wf s ->
  exists h e, close_all (map_to_list (pend s)) (heap_of s) = ChanOk (h, e) /\
    length h = length (heap_of s) /\
    (forall c id, pend s !! id = Some c -> h !! c = Some {| buf := None; closed := true |}) /\
    (forall c, (forall id, pend s !! id <> Some c) -> h !! c = heap_of s !! c) /\
    (forall c id, pend s !! id = Some c -> deliveries c e = 1%nat) /\
    (forall c, (forall id, pend s !! id <> Some c) -> deliveries c e = 0%nat) /\
    requests e = [].
Proof.
  intros W.
  destruct (close_all_spec (map_to_list (pend s)) (heap_of s))
    as (h & e & E & Hlen & H1 & H2 & H3 & H4 & H5).
  { by apply pending_values_NoDup. }
  { intros c (id & H)%elem_of_pending_values. by eapply (wf_pending _ W). }
  exists h, e. split_and!; try done.
  - intros c id H. apply H1, elem_of_pending_values. eauto.
  - intros c H. apply H2. intros (id & Hid)%elem_of_pending_values. by eapply H.
  - intros c id H. apply H3, elem_of_pending_values. eauto.
  - intros c H. apply H4. intros (id & Hid)%elem_of_pending_values. by eapply H.
Qed.

Lemma wf_socket_loop s i pc :
  wf s -> loops s !! i = Some (SocketLoop, pc) -> pend s = ∅.
Proof.
  intros W Hi. pose proof (wf_kind _ W _ _ _ Hi) as E.
  destruct (unix s) eqn:U; [|done]. by apply (wf_unix _ W).
Qed.

(** *** Every step has a shape *)

Lemma step_shape ev s s1 l : wf s -> sys_step ev s = Stepped s1 l -> shape s s1 l.
Proof.
  intros W. destruct ev as [e|m prm d|t werr|t e k|t|i|i f|i|i|]; unfold sys_step.
  - unfold Connect, connectUnixSocket, connectWebSocket. fold (unix s).
    destruct (unix s) eqn:U; [|destruct (parsed e) as [pu|]];
      destruct (dialed e) as [cn|]; intros [= <- <-]; simpl;
      apply sh_connect; simpl; rewrite ?U; eauto.
    all: try (intros U'; congruence).
  - unfold call_begin. destruct (conn (client (world s))) as [cn|] eqn:C; intros [= <- <-].
    + by eapply sh_register.
    + by apply sh_refused.
  - destruct (callers s !! t) as [[ch req d| | |]|] eqn:Ht; try done. unfold call_send.
    destruct (conn (client (world s))) as [cn|] eqn:C; [destruct werr|]; intros [= <- <-];
      (eapply sh_caller; [exact Ht|simpl; by (right + left)|done|]);
      first [by rewrite C|done].
  - destruct (callers s !! t) as [[|id ch d| |]|] eqn:Ht; try done. unfold call_wait.
    destruct (case_ready (heap_of s) ch e k) eqn:R; [|done]. destruct k.
    + unfold chan_recv. simpl in R. unfold chan_recv_ready in R.
      destruct (heap_of s !! ch) as [st|] eqn:Hst; [|done].
      destruct (call_finish_quiet d (buf st)) as [Hq1 Hq2].
      destruct (buf st) as [v|] eqn:B.
      * destruct (call_finish d (Some v)) as [lf rf]. intros [= <- <-].
        pose proof (sh_recv s t id ch d st lf rf Ht Hst) as Sh. rewrite B in Sh.
        apply Sh; eauto.
      * rewrite R. destruct (call_finish d None) as [lf rf]. intros [= <- <-].
        pose proof (sh_recv s t id ch d st lf rf Ht Hst) as Sh. rewrite B in Sh.
        apply Sh; eauto.
    + intros [= <- <-]. by (eapply sh_caller; [exact Ht|by right|done|done]).
    + intros [= <- <-]. by (eapply sh_caller; [exact Ht|by right|done|done]).
  - destruct (callers s !! t) as [[| |id ch r|]|] eqn:Ht; try done.
    intros [= <- <-]. by eapply sh_unregister.
  - destruct (loops s !! i) as [[[|] [| | | |]]|] eqn:Hi; try done. unfold hm_top.
    destruct (conn (client (world s))); intros [= <- <-]; by eapply sh_loop.
  - destruct (loops s !! i) as [[[|] [| | | |]]|] eqn:Hi; try done.
    + unfold hm_read. destruct (ReadJSON f); intros [= <- <-]; by eapply sh_loop.
    + unfold hs_read. destruct f; intros [= <- <-]; by eapply sh_loop.
  - destruct (loops s !! i) as [[[|] [| |r| |]]|] eqn:Hi; try done.
    + unfold hm_claim. destruct (pend s !! resp_ID r) as [ch|] eqn:P; intros [= <- <-].
      * by apply sh_claim.
      * by eapply sh_loop.
    + unfold hs_claim. rewrite (wf_socket_loop _ _ _ W Hi), lookup_empty.
      intros [= <- <-]. by eapply sh_loop.
  - destruct (loops s !! i) as [[k [| | |ch r|]]|] eqn:Hi; try done.
    assert (Hfr : heap_of s !! ch = Some new_chan).
    { eapply (wf_held _ W). exists i, k. done. }
    destruct k; unfold hm_deliver, hs_deliver; rewrite (chan_send_fresh _ _ _ Hfr);
      intros [= <- <-]; by apply sh_deliver.
  - unfold Disconnect.
    destruct (Disconnect_spec s W) as (h & e & -> & Hlen & H1 & H2 & Hd1 & Hd0 & Hrq).
    intros [= <- <-].
    assert (Hpre : forall c, deliveries c (match conn (client (world s)) with
                                  | Some cn => [Log LogClosingWebSocket; CloseConn cn]
                                  | None => []
                                  end) = 0%nat) by (intros c; by destruct (conn (client (world s)))).
    apply sh_disconnect; try done.
    + intros c id Hp. rewrite deliveries_app, Hpre. simpl.
      rewrite deliveries_app, (Hd1 _ _ Hp). simpl. lia.
    + intros c Hp. rewrite deliveries_app, Hpre. simpl.
      rewrite deliveries_app, (Hd0 _ Hp). simpl. lia.
    + rewrite requests_app. simpl. rewrite requests_app, Hrq.
      by destruct (conn (client (world s))).
Qed.


(** *** The invariant is kept by every step *)

Lemma wf_shrink s s1 :
  wf s ->
  loops s1 = loops s ->
  url (client (world s1)) = url (client (world s)) ->
  (unix s = true -> conn (client (world s1)) = None) ->
  (forall id ch, pend s1 !! id = Some ch -> pend s !! id = Some ch) ->
  (forall c, heap_of s !! c = Some new_chan ->
     (exists id, pend s1 !! id = Some c) \/ (exists r, held s c r) ->
     heap_of s1 !! c = Some new_chan) ->
  (length (heap_of s) <= length (heap_of s1))%nat ->
  (forall c st r, heap_of s1 !! c = Some st -> buf st = Some r ->
     exists st0, heap_of s !! c = Some st0 /\ buf st0 = Some r) ->
  (forall t id ch, owns s1 t id ch -> owns s t id ch) ->
  wf s1.
Proof.
  intros W Hl Hu Hc Hp Hf Hlen Hb Ho.
  assert (Hheld : forall c r, held s1 c r <-> held s c r).
  { intros c r. unfold held. by rewrite Hl. }
  destruct W as [Wp Wi Wh Whi Wu Wk Wo Woi]. split.
  - intros id ch H. apply Hf; eauto.
  - intros id1 id2 ch H1 H2. eapply Wi; eauto.
  - intros ch r H%Hheld. destruct (Wh ch r H) as [Hfr Hn]. split.
    + apply Hf; eauto.
    + intros id Hid. eapply Hn; eauto.
  - rewrite Hl. apply Whi.
  - unfold unix in *. rewrite Hu. intros U. split; [by apply Hc|].
    apply map_eq. intros id. rewrite lookup_empty.
    destruct (pend s1 !! id) as [ch|] eqn:E; [|done].
    apply Hp in E. destruct (Wu U) as [_ Hemp]. rewrite Hemp in E. done.
  - unfold unix in *. rewrite Hl, Hu. apply Wk.
  - intros t id ch H%Ho. destruct (Wo t id ch H) as (H1 & H2 & H3 & H4). split_and!.
    + lia.
    + intros id' Hid. eauto.
    + intros r Hr%Hheld. eauto.
    + intros st r Hst Hbuf. destruct (Hb ch st r Hst Hbuf) as (st0 & Hst0 & Hb0). eauto.
  - intros t1 t2 id1 id2 ch H1%Ho H2%Ho. eauto.
Qed.

Lemma owns_update s t pc pc' w t' id ch :
  callers s !! t = Some pc ->
  (pc_local pc' = None \/ pc_local pc' = pc_local pc) ->
  owns (with_caller s w t pc') t' id ch ->
  owns s t' id ch.
Proof.
  intros Ht Hpc (pc0 & [(-> & <- & _)|[Hne H]]%list_lookup_insert_Some & Hl); simpl in *.
  - destruct Hpc as [E|E]; rewrite E in Hl; [done|]. by exists pc.
  - by exists pc0.
Qed.

Lemma held_with_loop s w i k pc ch r :
  held (with_loop s w i k pc) ch r ->
  pc = LpSend ch r \/ exists j k', j <> i /\ loops s !! j = Some (k', LpSend ch r).
Proof.
  intros (j & k' & [(-> & [= <- <-] & _)|[Hne H]]%list_lookup_insert_Some); eauto 6.
Qed.

Lemma wf_loop_idle s i k pc' :
  wf s -> is_Some (loops s !! i) -> (forall ch r, pc' <> LpSend ch r) ->
  (forall pc, loops s !! i = Some pc -> pc.1 = k) ->
  wf (with_loop s (world s) i k pc').
Proof.
  intros W Hi Hpc Hk.
  assert (Hheld : forall ch r, held (with_loop s (world s) i k pc') ch r -> held s ch r).
  { intros ch r [E|(j & k' & _ & H)]%held_with_loop; [by destruct (Hpc ch r)|].
    by exists j, k'. }
  assert (Hlook : forall j k' c r,
    <[i := (k, pc')]> (loops s) !! j = Some (k', LpSend c r) ->
    loops s !! j = Some (k', LpSend c r)).
  { intros j k' c r [(-> & [= <- E] & _)|[_ H]]%list_lookup_insert_Some; [|done].
    by destruct (Hpc c r). }
  destruct W as [Wp Wi Wh Whi Wu Wk Wo Woi]. split; try done.
  - intros ch r H%Hheld. eauto.
  - simpl. intros j1 j2 k1 k2 ch r1 r2 H1%Hlook H2%Hlook. eauto.
  - simpl. intros j k' pc [(-> & [= <- E] & Hlt)|[_ H]]%list_lookup_insert_Some; [|eauto].
    destruct Hi as [[k0 pc0] Hi]. rewrite <- (Hk _ Hi). simpl. eauto.
  - intros t id ch Ho. destruct (Wo t id ch Ho) as (H1 & H2 & H3 & H4).
    split_and!; try done. intros r H%Hheld. eauto.
Qed.

Theorem wf_shape s s1 l : wf s -> shape s s1 l -> wf s1.
Proof.
  intros W Sh.
  pose proof (wf_pending_lt s) as Plt. pose proof (wf_held_lt s) as Hlt.
  destruct Sh as [w l ls Hp Hc Hr Hu Hcn Hd Hq Hls | cn m prm d Hcn | Hcn
                 | t pc pc' l Ht Hpc Hd Hq | t id ch d st l r Ht Hst Hrdy Hd Hq
                 | t id ch r Ht | i k pc pc' l Hi Hpc Hd Hq | i r ch Hi Hp
                 | i k ch r Hi | h l Hlen Hcl Hsame Hd1 Hd0 Hq].
  - (* Connect *)
    assert (Hlook : forall j k' pc, (loops s ++ ls) !! j = Some (k', pc) ->
      loops s !! j = Some (k', pc) \/
      (k' = (if unix s then SocketLoop else WebSocketLoop) /\ forall c r, pc <> LpSend c r)).
    { intros j k' pc. destruct Hls as [->| ->].
      - rewrite app_nil_r. by left.
      - intros [[_ H]|[_ [= <- <-]]]%lookup_snoc_Some; [by left|right].
        split; [done|]. by destruct (unix s). }
    assert (Hheld : forall c r,
      held {| world := w; callers := callers s; loops := loops s ++ ls |} c r -> held s c r).
    { intros c r (j & k' & [H|[_ H]]%Hlook); [by exists j, k'|by destruct (H c r)]. }
    wf_open W. split; unfold owns, unix; simpl; rewrite ?Hp, ?Hc, ?Hu; try done.
    + intros c r H%Hheld. eauto.
    + intros j1 j2 k1 k2 c r1 r2 [H1|[_ H1]]%Hlook [H2|[_ H2]]%Hlook; eauto;
        by (destruct (H1 c r1) + destruct (H2 c r2)).
    + intros U. split; [|by apply Wu]. rewrite Hcn by done. by apply Wu.
    + intros j k' pc [H|[-> _]]%Hlook; eauto.
    + intros t id c Ho. destruct (Wo t id c Ho) as (H1 & H2 & H3 & H4).
      split_and!; try done. intros r H%Hheld. eauto.
  - (* call registers *)
    wf_open W. split; unfold held, owns, unix; simpl.
    + intros id ch [[<- <-]|[_ H]]%lookup_insert_Some.
      * by rewrite list_lookup_middle.
      * apply lookup_app_l_Some. eauto.
    + intros id1 id2 ch [[<- <-]|[_ H1]]%lookup_insert_Some
        [[<- E]|[_ H2]]%lookup_insert_Some; try done.
      * apply Plt in H2; [lia|done].
      * apply Plt in H1; [lia|done].
      * eauto.
    + intros ch r Hh. destruct (Wh ch r Hh) as [Hf Hn]. split.
      * by apply lookup_app_l_Some.
      * intros id [[<- <-]|[_ H]]%lookup_insert_Some; [|by eapply Hn].
        apply Hlt in Hh; [lia|done].
    + done.
    + intros U. apply Wu in U as [U _]. congruence.
    + done.
    + intros t id ch (pc & [[Ht H]|[-> <-]]%lookup_snoc_Some & Hl).
      * destruct (Wo t id ch) as (Hlen & Hp & Hh & Hb); [eauto|].
        split_and!.
        -- rewrite length_app. lia.
        -- intros id' [[<- <-]|[_ H']]%lookup_insert_Some; [lia|eauto].
        -- done.
        -- intros st r Hst. apply Hb. rewrite lookup_app_l in Hst; done.
      * simpl in Hl. injection Hl as <- <-. split_and!.
        -- rewrite length_app. simpl. lia.
        -- intros id' [[<- _]|[_ H']]%lookup_insert_Some; [done|].
           apply Plt in H'; [lia|done].
        -- intros r Hh. apply Hlt in Hh; [lia|done].
        -- intros st r. rewrite list_lookup_middle by done. by intros [= <-].
    + intros t1 t2 id1 id2 ch (pc1 & [[Ht1 H1]|[-> <-]]%lookup_snoc_Some & Hl1)
        (pc2 & [[Ht2 H2]|[-> <-]]%lookup_snoc_Some & Hl2); try done.
      * eapply Woi; eauto.
      * simpl in Hl2. injection Hl2 as <- <-.
        destruct (Wo t1 id1 (length (heap_of s))) as [? _]; [eauto|lia].
      * simpl in Hl1. injection Hl1 as <- <-.
        destruct (Wo t2 id2 (length (heap_of s))) as [? _]; [eauto|lia].
  - (* call refused *)
    wf_open W. split; unfold held, owns, unix; simpl; try done.
    + intros t id ch (pc & [[Ht H]|[-> <-]]%lookup_snoc_Some & Hl); [eauto|done].
    + intros t1 t2 id1 id2 ch (pc1 & [[Ht1 H1]|[-> <-]]%lookup_snoc_Some & Hl1)
        (pc2 & [[Ht2 H2]|[-> <-]]%lookup_snoc_Some & Hl2); try done.
      eapply Woi; eauto.
  - (* a caller moves on *)
    apply (wf_shrink s); simpl; try done.
    + intros U. by apply (wf_unix _ W).
    + intros c st r ? ?. by exists st.
    + intros t' id c. by apply (owns_update s t pc).
  - (* a caller receives *)
    assert (Hnf : forall c, heap_of s !! c = Some new_chan -> c <> ch).
    { intros c Hc ->. rewrite Hc in Hst. injection Hst as <-. simpl in Hrdy.
      by destruct Hrdy as [[? ?]|?]. }
    apply (wf_shrink s); simpl; try done.
    + intros U. by apply (wf_unix _ W).
    + intros c Hc _. destruct (buf st); [|done].
      rewrite list_lookup_insert_ne; [done|]. intros ->. by eapply Hnf.
    + destruct (buf st); [by rewrite length_insert|done].
    + intros c st' r'. destruct (buf st) eqn:B; [|eauto].
      intros [(-> & <- & _)|[_ Hc]]%list_lookup_insert_Some; [done|eauto].
    + intros t' id' c. apply (owns_update s t (PcWait id ch d)); [done|by left].
  - (* a caller unregisters *)
    apply (wf_shrink s); simpl; try done.
    + intros U. by apply (wf_unix _ W).
    + by intros id' c [_ Hc]%lookup_delete_Some.
    + intros c st r' ? ?. by exists st.
    + intros t' id' c. apply (owns_update s t (PcGiveUp id ch r)); [done|by left].
  - (* a loop moves on without a channel *)
    apply wf_loop_idle; try done. intros pc0 E. rewrite Hi in E. by injection E as <-.
  - (* the WebSocket loop claims an entry *)
    assert (Hheld : forall j k' c r',
      <[i := (WebSocketLoop, LpSend ch r)]> (loops s) !! j = Some (k', LpSend c r') ->
      (j = i /\ c = ch /\ r' = r) \/ (j <> i /\ loops s !! j = Some (k', LpSend c r'))).
    { intros j k' c r' [(-> & [= <- <- <-] & _)|[? H]]%list_lookup_insert_Some; eauto. }
    wf_open W. split; unfold held, owns, unix; simpl.
    + intros id c [_ H]%lookup_delete_Some. eauto.
    + intros id1 id2 c [_ H1]%lookup_delete_Some [_ H2]%lookup_delete_Some. eauto.
    + intros c r' (j & k' & [(_ & -> & ->)|[_ H]]%Hheld).
      * split; [eauto|]. intros id [Hne H]%lookup_delete_Some.
        apply Hne. eauto.
      * destruct (Wh c r') as [Hf Hn]; [eauto|]. split; [done|].
        intros id [_ H']%lookup_delete_Some. by eapply Hn.
    + intros j1 j2 k1 k2 c r1 r2 [(-> & -> & ->)|[? H1]]%Hheld
        [(-> & E & ->)|[? H2]]%Hheld; try done.
      * subst. destruct (Wh ch r2 (ex_intro _ j2 (ex_intro _ k2 H2))) as [_ Hn].
        by destruct (Hn (resp_ID r)).
      * subst. destruct (Wh ch r1 (ex_intro _ j1 (ex_intro _ k1 H1))) as [_ Hn].
        by destruct (Hn (resp_ID r)).
      * eauto.
    + intros U. split; [by apply Wu|]. destruct (Wu U) as [_ E]. by rewrite E in Hp.
    + intros j k' pc [(-> & [= <- E] & _)|[_ H]]%list_lookup_insert_Some; eauto.
    + intros t id c Ho. destruct (Wo t id c Ho) as (H1 & H2 & H3 & H4).
      split_and!; try done.
      * intros id' [_ H]%lookup_delete_Some. eauto.
      * intros r' (j & k' & [(_ & -> & ->)|[_ H]]%Hheld); eauto.
    + done.
  - (* a loop sends *)
    assert (Hfr : heap_of s !! ch = Some new_chan).
    { eapply (wf_held _ W). exists i, k. done. }
    assert (Hheld : forall j k' c r',
      <[i := (k, loop_start k)]> (loops s) !! j = Some (k', LpSend c r') ->
      j <> i /\ loops s !! j = Some (k', LpSend c r')).
    { intros j k' c r' [(-> & [= <- E] & _)|[? H]]%list_lookup_insert_Some; eauto.
      by destruct k. }
    assert (Hne : forall j k' c r', j <> i -> loops s !! j = Some (k', LpSend c r') -> c <> ch).
    { intros j k' c r' Hj H ->. apply Hj. eapply (wf_held_inj _ W); eauto. }
    wf_open W. split; unfold held, owns, unix; simpl; try done.
    + intros id c H. rewrite list_lookup_insert_ne; [eauto|].
      intros ->. destruct (Wh c r) as [_ Hn]; [eauto|]. by destruct (Hn id).
    + intros c r' (j & k' & [Hj H]%Hheld). destruct (Wh c r') as [Hf Hn]; [eauto|].
      split; [|done]. rewrite list_lookup_insert_ne; [done|]. intros ->. by eapply Hne.
    + intros j1 j2 k1 k2 c r1 r2 [? H1]%Hheld [? H2]%Hheld. eauto.
    + intros j k' pc [(-> & [= <- E] & _)|[_ H]]%list_lookup_insert_Some; eauto.
    + intros t id c Ho. destruct (Wo t id c Ho) as (H1 & H2 & H3 & H4).
      split_and!; try done.
      * by rewrite length_insert.
      * intros r' (j & k' & [Hj H]%Hheld). eauto.
      * intros st r' [(-> & <- & _)|[_ H]]%list_lookup_insert_Some; simpl.
        -- intros [= <-]. eauto.
        -- eauto.
  - (* Disconnect *)
    apply (wf_shrink s); simpl; try done.
    + intros c Hc [[id Hid]|[r Hr]]; [done|].
      rewrite Hsame; [done|]. by eapply (wf_held _ W).
    + lia.
    + intros c st r Hst Hb. exists st. split; [|done].
      rewrite <- Hsame; [done|]. intros id Hid. rewrite (Hcl _ _ Hid) in Hst.
      by injection Hst as <-.
Qed.

Theorem wf_step ev s s1 l : wf s -> sys_step ev s = Stepped s1 l -> wf s1.
Proof. intros W E. eapply wf_shape; [done|]. by eapply step_shape. Qed.

Theorem wf_run tr : forall s s1 l, wf s -> run tr s = Stepped s1 l -> wf s1.
Proof.
  induction tr as [|ev tr IH]; intros s s1 l W; simpl.
  - by intros [= <- <-].
  - destruct (sys_step ev s) as [s' l'| |] eqn:E; try done.
    destruct (run tr s') as [s'' l''| |] eqn:R; try done.
    intros [= <- <-]. eapply IH; [|done]. by eapply wf_step.
Qed.

Theorem wf_reachable s : reachable s -> wf s.
Proof. intros (u & n & p & tr & l & R). eapply wf_run; [apply wf_init|done]. Qed.


(** *** The channel operations of the loops and of Disconnect never panic
    or block *)

Lemma deliver_enabled s i k ch r :
  wf s -> loops s !! i = Some (k, LpSend ch r) ->
  sys_step (EvDeliver i) s =
    Stepped (with_loop s {| client := client (world s);
                            chans := <[ch := {| buf := Some r; closed := false |}]> (heap_of s) |}
               i k (loop_start k)) [Send ch r].
Proof.
  intros W Hi. unfold sys_step. rewrite Hi.
  assert (Hfr : heap_of s !! ch = Some new_chan).
  { eapply (wf_held _ W). exists i, k. done. }
  destruct k; unfold hm_deliver, hs_deliver; by rewrite (chan_send_fresh _ _ _ Hfr).
Qed.

Lemma disconnect_enabled s :
  wf s -> exists s1 l, sys_step EvDisconnect s = Stepped s1 l.
Proof.
  intros W. unfold sys_step, Disconnect.
  destruct (Disconnect_spec s W) as (h & e & -> & _). eauto.
Qed.

Lemma step_no_crash ev s : wf s -> sys_step ev s <> Crash.
Proof.
  intros W. destruct ev as [e|m prm d|t werr|t e k|t|i|i f|i|i|]; unfold sys_step.
  - by destruct (Connect e (world s)) as [[? ?] ?].
  - by destruct (call_begin (world s)) as [[? ?] [?|[? ?]]].
  - destruct (callers s !! t) as [[ch req d| | |]|]; try done.
    by destruct (call_send req werr (world s)) as [? []].
  - destruct (callers s !! t) as [[|id ch d| |]|]; try done.
    by destruct (call_wait id ch d e k (world s)) as [[[? ?] []]|].
  - by destruct (callers s !! t) as [[| | |]|].
  - destruct (loops s !! i) as [[[|] [| | | |]]|]; try done.
    by destruct (hm_top (world s)) as [? []].
  - destruct (loops s !! i) as [[[|] [| | | |]]|]; try done.
    + by destruct (hm_read f) as [? []].
    + by destruct (hs_read f) as [? []].
  - destruct (loops s !! i) as [[[|] [| |r| |]]|]; try done.
    + by destruct (hm_claim r (world s)) as [[? ?] []].
    + by destruct (hs_claim r (world s)).
  - destruct (loops s !! i) as [[k [| | |ch r|]]|] eqn:Hi; try done.
    pose proof (deliver_enabled s i k ch r W Hi) as E.
    unfold sys_step in E. rewrite Hi in E.
    by destruct (match k with
                 | WebSocketLoop => hm_deliver ch r (world s)
                 | SocketLoop => hs_deliver ch r (world s)
                 end) as [[? ?]| |].
  - destruct (disconnect_enabled s W) as (s1 & l & E). unfold sys_step in E.
    by destruct (Disconnect (world s)) as [[? ?]| |].
Qed.

Lemma run_no_crash tr : forall s, wf s -> run tr s <> Crash.
Proof.
  induction tr as [|ev tr IH]; intros s W; simpl; [done|].
  destruct (sys_step ev s) as [s1 l1| |] eqn:E; try done.
  - pose proof (IH s1 (wf_step _ _ _ _ W E)).
    by destruct (run tr s1).
  - by apply step_no_crash in E.
Qed.

(** *** Each channel is sent on or closed at most once *)

Lemma shape_deliveries s s1 l ch :
  wf s -> shape s s1 l ->
  (deliveries ch l <= 1)%nat /\
  (deliveries ch l = 1%nat -> live s ch /\ ~ live s1 ch) /\
  (live s1 ch -> live s ch).
Proof.
  intros W Sh.
  assert (Hquiet : forall l', deliveries ch l' = 0%nat ->
    (live s1 ch -> live s ch) ->
    (deliveries ch l' <= 1)%nat /\
    (deliveries ch l' = 1%nat -> live s ch /\ ~ live s1 ch) /\ (live s1 ch -> live s ch)).
  { intros l' -> Hl. split_and!; [lia|done|done]. }
  destruct Sh as [w l ls Hp Hc Hr Hu Hcn Hd Hq Hls | cn m prm d Hcn | Hcn
                 | t pc pc' l Ht Hpc Hd Hq | t id c d st l r Ht Hst Hrdy Hd Hq
                 | t id c r Ht | i k pc pc' l Hi Hpc Hd Hq | i r c Hi Hp
                 | i k c r Hi | h l Hlen Hcl Hsame Hd1 Hd0 Hq].
  - apply Hquiet; [done|]. unfold live, held; simpl. rewrite Hp, Hc.
    intros [?|[[r (j & k' & Hj)]|?]]; eauto. right; left. exists r, j, k'.
    destruct Hls as [->| ->]; [by rewrite app_nil_r in Hj|].
    apply lookup_snoc_Some in Hj as [[_ Hj]|[_ [= _ E]]]; [done|].
    by destruct (unix s).
  - apply Hquiet; [done|]. unfold live, held; simpl.
    intros [[id [[_ <-]|[_ H]]%lookup_insert_Some]|[?|H]]; eauto.
    rewrite length_app in H; simpl in H. right; right. lia.
  - by apply Hquiet.
  - by apply Hquiet.
  - apply Hquiet; [done|]. unfold live, held; simpl.
    destruct (buf st); [by rewrite length_insert|done].
  - apply Hquiet; [done|]. unfold live, held; simpl.
    intros [[id' [_ H]%lookup_delete_Some]|?]; eauto.
  - apply Hquiet; [done|]. unfold live; simpl.
    intros [?|[[r [E|(j & k' & _ & H)]%held_with_loop]|?]]; eauto.
    + by destruct (Hpc ch r).
    + right; left. by exists r, j, k'.
  - apply Hquiet; [done|]. unfold live; simpl.
    intros [[id' [_ H]%lookup_delete_Some]|[[r' [[= <- <-]|(j & k' & _ & H)]%held_with_loop]|?]];
      eauto.
    right; left. by exists r', j, k'.
  - simpl. destruct (Nat.eqb_spec c ch) as [->|Hne].
    + split_and!; [lia| |].
      * intros _. split; [right; left; exists r, i, k; done|].
        unfold live; simpl. rewrite length_insert.
        intros [[id H]|[[r' [E|(j & k' & Hj & H)]%held_with_loop]|H]].
        -- destruct (wf_held _ W ch r) as [_ Hn]; [by exists i, k|]. by destruct (Hn id).
        -- by destruct k.
        -- apply Hj. eapply (wf_held_inj _ W); eauto.
        -- assert (ch < length (heap_of s))%nat by (eapply wf_held_lt; [done|by exists i, k]).
           lia.
      * intros _. right; left. by exists r, i, k.
    + split_and!; [lia|done|].
      unfold live; simpl. rewrite length_insert.
      intros [?|[[r' [E|(j & k' & _ & H)]%held_with_loop]|?]]; eauto.
      * by destruct k.
      * right; left. by exists r', j, k'.
  - destruct (decide (ch ∈ (map_to_list (pend s)).*2))
      as [[id Hid]%elem_of_pending_values|Hno%(not_iff_compat (elem_of_pending_values s ch))].
    + rewrite (Hd1 _ _ Hid). split_and!; [lia| |].
      * intros _. split; [left; eauto|]. unfold live, held; simpl. rewrite Hlen.
        intros [[id' H]|[[r Hr]|H]].
        -- by rewrite lookup_empty in H.
        -- destruct (wf_held _ W ch r Hr) as [_ Hn]. by destruct (Hn id).
        -- pose proof (wf_pending_lt s id ch W Hid). lia.
      * intros _. left; eauto.
    + rewrite Hd0 by (intros id Hid; apply Hno; eauto). split_and!; [lia|done|].
      unfold live, held; simpl. rewrite Hlen.
      intros [[id' H]|?]; [by rewrite lookup_empty in H|eauto].
Qed.

Lemma run_deliveries tr ch : forall s s1 l,
  wf s -> run tr s = Stepped s1 l ->
  (deliveries ch l <= 1)%nat /\ (deliveries ch l = 1%nat -> live s ch).
Proof.
  induction tr as [|ev tr IH]; intros s s1 l W; simpl.
  - intros [= <- <-]. simpl. split; [lia|done].
  - destruct (sys_step ev s) as [s' l'| |] eqn:E; try done.
    destruct (run tr s') as [s'' l''| |] eqn:R; try done.
    intros [= <- <-]. rewrite deliveries_app.
    destruct (shape_deliveries s s' l' ch W (step_shape _ _ _ _ W E)) as (H1 & H2 & H3).
    destruct (IH s' s'' l'' (wf_step _ _ _ _ W E) R) as [H4 H5].
    destruct (decide (deliveries ch l' = 1%nat)) as [E1|E1].
    + destruct (H2 E1) as [Hl Hnl].
      assert (deliveries ch l'' <> 1%nat) by (intros E2; by apply Hnl, H5).
      split; [lia|done].
    + split; [lia|]. intros E2. apply H3, H5. lia.
Qed.

(** *** Request IDs *)

Lemma wrap64_id z : int64_min <= z <= int64_max -> wrap64 z = z.
Proof.
  unfold wrap64, int64_min, int64_max. intros H.
  rewrite Z.mod_small; lia.
Qed.

Lemma wrap64_range z : int64_min <= wrap64 z <= int64_max.
Proof.
  unfold wrap64, int64_min, int64_max.
  pose proof (Z.mod_pos_bound (z + 2 ^ 63) (2 ^ 64)). lia.
Qed.

Lemma ids_init u n p : ids_ok (init_system u n p).
Proof.
  split; simpl; unfold owns; simpl.
  - unfold int64_max. lia.
  - intros id ch H. by rewrite lookup_empty in H.
  - intros t id ch (pc & H & _). done.
  - intros t1 t2 id ch1 ch2 (pc & H & _). done.
Qed.

Lemma shape_ids s s1 l :
  ids_ok s -> counter s < int64_max -> shape s s1 l ->
  ids_ok s1 /\ counter s <= counter s1 <= counter s + 1 /\
  (forall id ch, pend s1 !! id = Some ch ->
     pend s !! id = Some ch \/ (pend s !! id = None /\ id = counter s + 1 /\ counter s1 = id)).
Proof.
  intros I Hlt Sh.
  assert (Hsame : forall s', counter s' = counter s ->
    (forall id ch, pend s' !! id = Some ch -> pend s !! id = Some ch) ->
    (forall t id ch, owns s' t id ch -> owns s t id ch) ->
    ids_ok s' /\ counter s <= counter s' <= counter s + 1 /\
    (forall id ch, pend s' !! id = Some ch ->
       pend s !! id = Some ch \/ (pend s !! id = None /\ id = counter s + 1 /\ counter s' = id))).
  { intros s' Hc Hp Ho. destruct I as [I1 I2 I3 I4].
    split_and!; [split; rewrite ?Hc; eauto|lia|lia|eauto]. }
  assert (Hw : wrap64 (counter s + 1) = counter s + 1).
  { apply wrap64_id. destruct I as [[? ?] _ _ _]. unfold int64_min. lia. }
  destruct Sh as [w l ls Hp Hc Hr Hu Hcn Hd Hq Hls | cn m prm d Hcn | Hcn
                 | t pc pc' l Ht Hpc Hd Hq | t id c d st l r Ht Hst Hrdy Hd Hq
                 | t id c r Ht | i k pc pc' l Hi Hpc Hd Hq | i r c Hi Hp
                 | i k c r Hi | h l Hlen Hcl Hsame' Hd1 Hd0 Hq].
  - apply Hsame; simpl; [done|by rewrite Hp|done].
  - rewrite Hw. destruct I as [I1 I2 I3 I4].
    split_and!; [split; unfold owns; simpl| | |].
    + lia.
    + intros id ch [[<- _]|[_ H]]%lookup_insert_Some; [lia|]. apply I2 in H. lia.
    + intros t id ch (pc & [[_ H]|[-> <-]]%lookup_snoc_Some & Hl).
      * assert (0 < id <= counter s) by (eapply I3; by exists pc). lia.
      * simpl in Hl. injection Hl as <- <-. lia.
    + intros t1 t2 id ch1 ch2 (pc1 & [[_ H1]|[-> <-]]%lookup_snoc_Some & Hl1)
        (pc2 & [[_ H2]|[-> <-]]%lookup_snoc_Some & Hl2); try done.
      * eapply I4; [by exists pc1|by exists pc2].
      * simpl in Hl2. injection Hl2 as <- <-.
        assert (0 < counter s + 1 <= counter s) by (eapply I3; by exists pc1). lia.
      * simpl in Hl1. injection Hl1 as <- <-.
        assert (0 < counter s + 1 <= counter s) by (eapply I3; by exists pc2). lia.
    + simpl. lia.
    + simpl. lia.
    + simpl. intros id ch [[<- _]|[_ H]]%lookup_insert_Some; [|by left].
      right. split_and!; try done.
      destruct (pend s !! (counter s + 1)) as [c|] eqn:P; [|done].
      apply I2 in P. lia.
  - rewrite Hw. destruct I as [I1 I2 I3 I4].
    split_and!; [split; unfold owns; simpl| | |].
    + lia.
    + intros id ch H. apply I2 in H. lia.
    + intros t id ch (pc & [[_ H]|[-> <-]]%lookup_snoc_Some & Hl); [|done].
      assert (0 < id <= counter s) by (eapply I3; by exists pc). lia.
    + intros t1 t2 id ch1 ch2 (pc1 & [[_ H1]|[-> <-]]%lookup_snoc_Some & Hl1)
        (pc2 & [[_ H2]|[-> <-]]%lookup_snoc_Some & Hl2); try done.
      eapply I4; [by exists pc1|by exists pc2].
    + simpl. lia.
    + simpl. lia.
    + simpl. intros id ch H. by left.
  - apply Hsame; simpl; try done. intros t' id c. by apply (owns_update s t pc).
  - apply Hsame; simpl; try done.
    intros t' id' c'. apply (owns_update s t (PcWait id c d)); [done|by left].
  - apply Hsame; simpl; try done.
    + by intros id' c' [_ H]%lookup_delete_Some.
    + intros t' id' c'. apply (owns_update s t (PcGiveUp id c r)); [done|by left].
  - by apply Hsame.
  - apply Hsame; simpl; try done. by intros id' c' [_ H]%lookup_delete_Some.
  - by apply Hsame.
  - by apply Hsame.
Qed.

Lemma inv_init u n p : inv (init_system u n p).
Proof. split; [apply wf_init|apply ids_init]. Qed.

Lemma ids_step ev s s1 l :
  inv s -> counter s < int64_max -> sys_step ev s = Stepped s1 l ->
  inv s1 /\ counter s <= counter s1 <= counter s + 1 /\
  (forall id ch, pend s1 !! id = Some ch ->
     pend s !! id = Some ch \/ (pend s !! id = None /\ id = counter s + 1 /\ counter s1 = id)).
Proof.
  intros [W I] Hlt E. pose proof (step_shape _ _ _ _ W E) as Sh.
  destruct (shape_ids _ _ _ I Hlt Sh) as (I' & Hc & Hp).
  split; [split; [by eapply wf_shape|done]|]. by split.
Qed.

Lemma increasing_NoDup l : increasing l -> NoDup l.
Proof.
  induction l as [|x l IH]; simpl; [constructor|].
  intros [H1 H2]. constructor; [|by apply IH].
  intros Hx. rewrite Forall_forall in H1. apply H1 in Hx. lia.
Qed.

Lemma run_ids tr : forall s s1 l,
  inv s -> counter s + Z.of_nat (length tr) <= int64_max ->
  run tr s = Stepped s1 l ->
  inv s1 /\ counter s <= counter s1 <= counter s + Z.of_nat (length tr) /\
  Forall (fun id => counter s < id <= counter s1) (allocated tr s) /\
  increasing (allocated tr s) /\
  registers_fresh tr s.
Proof.
  induction tr as [|ev tr IH]; intros s s1 l I Hb; simpl.
  - intros [= <- <-]. split_and!; try done; lia.
  - destruct (sys_step ev s) as [s' l'| |] eqn:E; try done.
    destruct (run tr s') as [s'' l''| |] eqn:R; try done.
    intros [= <- <-]. simpl length in Hb.
    destruct (ids_step ev s s' l' I) as (I' & Hc & Hp); [lia|done|].
    destruct (IH s' s'' l'' I') as (I'' & Hc' & Ha & Hi & Hf); [lia|done|].
    assert (Ha' : Forall (fun id => counter s < id <= counter s'') (allocated tr s')).
    { eapply Forall_impl; [exact Ha|]. simpl. lia. }
    split_and!; try done; try lia.
    + destruct ev; try done. constructor; [|done].
      unfold sys_step, call_begin in E.
      rewrite wrap64_id in E by (destruct I as [_ [[? ?] _ _ _]]; unfold int64_min; lia).
      destruct (conn (client (world s))); injection E as <- _; simpl in *; lia.
    + destruct ev; try done. cbn [increasing]. split; [|done].
      eapply Forall_impl; [exact Ha|]. simpl. lia.
    + destruct ev; try done.
      destruct (pend s !! counter s') as [c|] eqn:P; [|done].
      apply (ids_pending _ (proj2 I)) in P.
      unfold sys_step, call_begin in E.
      rewrite wrap64_id in E by (destruct I as [_ [[? ?] _ _ _]]; unfold int64_min; lia).
      destruct (conn (client (world s))); injection E as <- _; simpl in *; lia.
Qed.

(** *** Each pending call is resolved at most once *)

Lemma run_resolutions id tr : forall s s1 l,
  inv s -> counter s + Z.of_nat (length tr) <= int64_max ->
  run tr s = Stepped s1 l ->
  (resolutions id tr s <= 1)%nat /\
  (resolutions id tr s = 1%nat -> is_Some (pend s !! id) \/ counter s < id).
Proof.
  induction tr as [|ev tr IH]; intros s s1 l I Hb; simpl.
  - intros _. split; [lia|done].
  - destruct (sys_step ev s) as [s' l'| |] eqn:E; try done.
    destruct (run tr s') as [s'' l''| |] eqn:R; try done.
    intros _. simpl length in Hb.
    destruct (ids_step ev s s' l' I) as (I' & Hc & Hp); [lia|done|].
    destruct (IH s' s'' l'' I') as [H1 H2]; [lia|done|].
    unfold resolved. case_bool_decide as B1; simpl.
    + case_bool_decide as B2; simpl.
      * assert (resolutions id tr s' <> 1%nat).
        { intros [[c Hc']|Hlt]%H2; [congruence|].
          destruct B1 as [c Hc']. apply (ids_pending _ (proj2 I)) in Hc'. lia. }
        split; [lia|]. intros _. by left.
      * split; [lia|]. intros _. by left.
    + split; [lia|]. intros [[c Hc']|Hlt]%H2; [|right; lia].
      destruct (Hp _ _ Hc') as [H|(_ & -> & _)]; [by left|right; lia].
Qed.

(** ** The properties of the bridge *)

Arguments call_finish : simpl never.
Arguments sys_step : simpl never.

Lemma allocated_length tr : forall s s1 l,
  run tr s = Stepped s1 l ->
  length (allocated tr s) = length (filter (fun ev => is_call ev = true) tr).
Proof.
  induction tr as [|ev tr IH]; intros s s1 l; simpl; [done|].
  destruct (sys_step ev s) as [s' l'| |] eqn:E; try done.
  destruct (run tr s') as [s'' l''| |] eqn:R; try done. intros _.
  rewrite filter_cons. destruct ev; simpl; rewrite (IH _ _ _ R); done.
Qed.

(** C1. Along every schedule of a client made by [NewRPCClient] that is
    shorter than the 64-bit ID space, the IDs taken by the calls (one per
    call, whether it registers or fails as not connected) are strictly
    increasing in the order of their critical sections, hence pairwise
    distinct; every registration goes to an ID that is not in the pending
    map at that moment, so that no entry of a live call is overwritten; no
    two goroutines inside [call] carry the same ID; and the map holds at
    most one channel under an ID. *)
Theorem call_ids_unique u n p tr s l :
  run tr (init_system u n p) = Stepped s l ->
  Z.of_nat (length tr) <= int64_max ->
  length (allocated tr (init_system u n p)) = length (filter (fun ev => is_call ev = true) tr) /\
  increasing (allocated tr (init_system u n p)) /\
  NoDup (allocated tr (init_system u n p)) /\
  registers_fresh tr (init_system u n p) /\
  (forall t1 t2 id ch1 ch2, owns s t1 id ch1 -> owns s t2 id ch2 -> t1 = t2) /\
  (forall id ch1 ch2, pend s !! id = Some ch1 -> pend s !! id = Some ch2 -> ch1 = ch2).
Proof.
  intros R Hb.
  destruct (run_ids tr _ _ _ (inv_init u n p) Hb R) as ([_ I] & _ & _ & Hinc & Hf).
  split_and!; try done.
  - by eapply allocated_length.
  - by apply increasing_NoDup.
  - apply (ids_owner_inj _ I).
  - congruence.
Qed.

Lemma call_ids_unique_witness :
  allocated three_calls (init_system "wss://irc.example.org:8600/" "panel" "secret") = [1; 2; 3] /\
  NoDup (allocated three_calls (init_system "wss://irc.example.org:8600/" "panel" "secret")).
Proof.
  split; [vm_compute; reflexivity|].
  assert (R : exists s l,
    run three_calls (init_system "wss://irc.example.org:8600/" "panel" "secret") = Stepped s l).
  { eexists _, _. vm_compute. reflexivity. }
  destruct R as (s & l & R).
  assert (Hb : Z.of_nat (length three_calls) <= int64_max) by (vm_compute; discriminate).
  exact (proj1 (proj2 (proj2 (call_ids_unique _ _ _ _ _ _ R Hb)))).
Defined.

(** *** Single steps, computed *)

Lemma system_eta s : {| world := world s; callers := callers s; loops := loops s |} = s.
Proof. by destruct s. Qed.

Lemma set_pending_id c : set_pending (pending c) c = c.
Proof. by destruct c. Qed.

Lemma world_eta w : {| client := client w; chans := chans w |} = w.
Proof. by destruct w. Qed.

Lemma call_unregister_absent id w :
  pending (client w) !! id = None -> call_unregister id w = w.
Proof.
  intros H. unfold call_unregister. by rewrite delete_id, set_pending_id, world_eta.
Qed.

Lemma with_loop_same s i k pc :
  loops s !! i = Some (k, pc) -> with_loop s (world s) i k pc = s.
Proof. intros H. unfold with_loop. by rewrite list_insert_id, system_eta. Qed.

Lemma deliver_fresh s i k ch r :
  loops s !! i = Some (k, LpSend ch r) ->
  heap_of s !! ch = Some new_chan ->
  sys_step (EvDeliver i) s =
    Stepped (with_loop s {| client := client (world s);
                            chans := <[ch := {| buf := Some r; closed := false |}]> (heap_of s) |}
               i k (loop_start k)) [Send ch r].
Proof.
  intros Hi Hfr. unfold sys_step. rewrite Hi.
  destruct k; unfold hm_deliver, hs_deliver; by rewrite (chan_send_fresh _ _ _ Hfr).
Qed.

(** One iteration of [handleMessages] on a response whose ID is
    registered: the entry is removed and the response is buffered on the
    channel that was registered under its ID. *)
Lemma iteration_delivers s i cn r ch :
  loops s !! i = Some (WebSocketLoop, LpTop) ->
  conn (client (world s)) = Some cn ->
  pend s !! resp_ID r = Some ch ->
  heap_of s !! ch = Some new_chan ->
  run [EvTop i; EvRead i (Frame r); EvClaim i; EvDeliver i] s =
    Stepped {| world := {| client := set_pending (delete (resp_ID r) (pend s)) (client (world s));
                           chans := <[ch := {| buf := Some r; closed := false |}]> (heap_of s) |};
               callers := callers s; loops := loops s |}
            [Log (LogFoundPending (resp_ID r)); Send ch r].
Proof.
  intros Hi Hc Hp Hfr. pose proof (lookup_lt_Some _ _ _ Hi) as Hlt.
  cbn [run]. unfold sys_step at 1. rewrite Hi. unfold hm_top. rewrite Hc.
  unfold sys_step at 1. cbn [with_loop loops world callers].
  rewrite list_lookup_insert_eq by done. cbn [hm_read ReadJSON].
  unfold sys_step at 1. cbn [with_loop loops world callers].
  rewrite list_lookup_insert_eq by (by rewrite length_insert).
  unfold hm_claim. cbv zeta. rewrite Hp.
  erewrite deliver_fresh; cycle 1.
  { cbn [with_loop loops]. by rewrite list_lookup_insert_eq by (by rewrite !length_insert). }
  { done. }
  unfold with_loop. cbn [loops world callers loop_start].
  rewrite !list_insert_insert_eq. by rewrite (list_insert_id (loops s)).
Qed.

(** One iteration on a response whose ID is not registered: a log line,
    and the loop is back at its top with nothing changed. *)
Lemma iteration_unmatched s i cn r :
  loops s !! i = Some (WebSocketLoop, LpTop) ->
  conn (client (world s)) = Some cn ->
  pend s !! resp_ID r = None ->
  run [EvTop i; EvRead i (Frame r); EvClaim i] s = Stepped s [Log (LogNoPending (resp_ID r))].
Proof.
  intros Hi Hc Hp. pose proof (lookup_lt_Some _ _ _ Hi) as Hlt.
  cbn [run]. unfold sys_step at 1. rewrite Hi. unfold hm_top. rewrite Hc.
  unfold sys_step at 1. cbn [with_loop loops world callers].
  rewrite list_lookup_insert_eq by done. cbn [hm_read ReadJSON].
  unfold sys_step at 1. cbn [with_loop loops world callers].
  rewrite list_lookup_insert_eq by (by rewrite length_insert).
  unfold hm_claim. cbv zeta. rewrite Hp.
  unfold with_loop. cbn [loops world callers app].
  rewrite !list_insert_insert_eq. by rewrite (list_insert_id (loops s)), system_eta.
Qed.

Lemma select_receives s t id ch d e r c :
  callers s !! t = Some (PcWait id ch d) ->
  heap_of s !! ch = Some {| buf := Some r; closed := c |} ->
  sys_step (EvSelect t e SelResp) s =
    Stepped (with_caller s {| client := client (world s);
                              chans := <[ch := {| buf := None; closed := c |}]> (heap_of s) |}
               t (PcDone (call_finish d (Some r)).2))
            (call_finish d (Some r)).1.
Proof.
  intros Ht Hh. unfold sys_step, call_wait, case_ready, chan_recv_ready, chan_recv.
  rewrite Ht, Hh. simpl. by destruct (call_finish d (Some r)).
Qed.

(** A caller that takes the context or the timer case, then removes its
    entry and returns. *)
Lemma select_gives_up s t id ch d e k :
  callers s !! t = Some (PcWait id ch d) ->
  k <> SelResp ->
  case_ready (heap_of s) ch e k = true ->
  run [EvSelect t e k; EvUnregister t] s =
    Stepped (with_caller s (call_unregister id (world s)) t
               (PcDone (match k with SelCtxDone => ErrCtx | _ => ErrTimeout end)))
            [Log (match k with SelCtxDone => LogCtxCancelled id | _ => LogTimeout id end)].
Proof.
  intros Ht Hk Hr. pose proof (lookup_lt_Some _ _ _ Ht) as Hlt.
  cbn [run]. unfold sys_step at 1, call_wait. rewrite Ht, Hr.
  destruct k; [done| |]; unfold sys_step; cbn [with_caller callers world loops];
    rewrite list_lookup_insert_eq by done; unfold with_caller; simpl;
    by rewrite list_insert_insert_eq.
Qed.

Lemma run_app tr1 : forall tr2 s s1 l1,
  run tr1 s = Stepped s1 l1 ->
  run (tr1 ++ tr2) s =
    match run tr2 s1 with
    | Stepped s2 l2 => Stepped s2 (l1 ++ l2)
    | r => r
    end.
Proof.
  induction tr1 as [|ev tr1 IH]; intros tr2 s s1 l1; simpl.
  - intros [= <- <-]. by destruct (run tr2 s).
  - destruct (sys_step ev s) as [s' l'| |]; try done.
    destruct (run tr1 s') as [s'' l''| |] eqn:R; try done.
    intros [= <- <-]. rewrite (IH tr2 _ _ _ R).
    destruct (run tr2 s'') as [s2 l2| |]; [|done..]. by rewrite app_assoc.
Qed.

Lemma call_finish_logs d v e : e ∈ (call_finish d v).1 -> exists m, e = Log m.
Proof.
  assert (H2 : forall m1 m2, e ∈ [Log m1; Log m2] -> exists m, e = Log m).
  { intros m1 m2 [->|[->|[]%elem_of_nil]%elem_of_cons]%elem_of_cons; eauto. }
  unfold call_finish. destruct v as [r|]; [|by intros []%elem_of_nil].
  destruct (Error r); [by apply H2|].
  destruct d as [valid|]; [|by apply H2].
  destruct (Result r) as [raw|]; [|by apply H2].
  destruct (valid raw); by apply H2.
Qed.

Lemma select_resp_own s t id ch d e s1 l r :
  wf s ->
  callers s !! t = Some (PcWait id ch d) ->
  sys_step (EvSelect t e SelResp) s = Stepped s1 l ->
  callers s1 !! t = Some (PcDone r) ->
  r = CallPanic \/ exists resp, resp_ID resp = id /\ r = (call_finish d (Some resp)).2.
Proof.
  intros W Ht E Hr. unfold sys_step, call_wait in E. rewrite Ht in E.
  destruct (case_ready (heap_of s) ch e SelResp); [|done].
  destruct (chan_recv (heap_of s) ch) as [[v h]| |] eqn:Rv; try done.
  apply chan_recv_inv in Rv as (st & Hst & -> & _).
  destruct (call_finish d (buf st)) as [lf rf] eqn:F. injection E as <- <-.
  simpl in Hr. rewrite list_lookup_insert_eq in Hr by (by eapply lookup_lt_Some).
  injection Hr as <-.
  destruct (buf st) as [resp|] eqn:B.
  - right. exists resp. split; [|by rewrite F].
    eapply (wf_owner _ W t id ch); [by exists (PcWait id ch d)|done..].
  - left. unfold call_finish in F. by injection F as _ <-.
Qed.

(** C2. Two goroutines are suspended in [call] with their entries
    registered (no assumption on which ID is the smaller, so both
    dispatch orders are covered), and the transport delivers the response
    carrying B's ID before the one carrying A's. The receive loop sends
    each response on the channel registered under its ID and on no other,
    and A's call returns what [call] makes of A's response, B's call what
    it makes of B's. More generally, in every reachable state a response
    received by a goroutine suspended in [call] carries that goroutine's
    ID. *)
Theorem out_of_order_delivery s tA tB a b chA chB dA dB rA rB i cn e :
  reachable s ->
  callers s !! tA = Some (PcWait a chA dA) ->
  callers s !! tB = Some (PcWait b chB dB) ->
  tA <> tB ->
  pend s !! a = Some chA ->
  pend s !! b = Some chB ->
  loops s !! i = Some (WebSocketLoop, LpTop) ->
  conn (client (world s)) = Some cn ->
  resp_ID rA = a ->
  resp_ID rB = b ->
  (exists s1 l,
     run ([EvTop i; EvRead i (Frame rB); EvClaim i; EvDeliver i] ++
          [EvTop i; EvRead i (Frame rA); EvClaim i; EvDeliver i] ++
          [EvSelect tA e SelResp; EvSelect tB e SelResp]) s = Stepped s1 l /\
     callers s1 !! tA = Some (PcDone (call_finish dA (Some rA)).2) /\
     callers s1 !! tB = Some (PcDone (call_finish dB (Some rB)).2) /\
     Send chA rA ∈ l /\ Send chB rB ∈ l /\
     (forall r, Send chA r ∈ l -> r = rA) /\ (forall r, Send chB r ∈ l -> r = rB)) /\
  (forall t id ch d e' s1 l r,
     callers s !! t = Some (PcWait id ch d) ->
     sys_step (EvSelect t e' SelResp) s = Stepped s1 l ->
     callers s1 !! t = Some (PcDone r) ->
     r = CallPanic \/ exists resp, resp_ID resp = id /\ r = (call_finish d (Some resp)).2).
Proof.
  intros Hreach HtA HtB Hne HpA HpB Hi Hc HrA HrB.
  pose proof (wf_reachable s Hreach) as W. split.
  2:{ intros t id ch d e' s1 l r. by apply select_resp_own. }
  subst a b.
  assert (HchAB : chA <> chB).
  { intros ->. apply Hne. eapply (wf_owner_inj _ W);
      [by exists (PcWait (resp_ID rA) chB dA)|by exists (PcWait (resp_ID rB) chB dB)]. }
  assert (Hab : resp_ID rA <> resp_ID rB) by (intros E; rewrite E in HpA; congruence).
  pose proof (wf_pending _ W _ _ HpA) as HfA.
  pose proof (wf_pending _ W _ _ HpB) as HfB.
  pose proof (lookup_lt_Some _ _ _ HtA) as HtAl.
  pose proof (lookup_lt_Some _ _ _ HtB) as HtBl.
  pose proof (lookup_lt_Some _ _ _ HfA) as HcAl.
  pose proof (lookup_lt_Some _ _ _ HfB) as HcBl.
  eexists _, _. split.
  { erewrite run_app; [|by apply (iteration_delivers s i cn rB chB)].
    erewrite run_app; cycle 1.
    { apply (iteration_delivers _ i cn rA chA); simpl; try done.
      - by rewrite lookup_delete_ne.
      - by rewrite list_lookup_insert_ne. }
    cbn [run].
    erewrite (select_receives _ tA); cycle 1.
    { done. }
    { simpl. by rewrite list_lookup_insert_eq by (by rewrite length_insert). }
    erewrite (select_receives _ tB); cycle 1.
    { simpl. by rewrite list_lookup_insert_ne. }
    { simpl. rewrite list_lookup_insert_ne by done. rewrite list_lookup_insert_ne by done.
      by rewrite list_lookup_insert_eq. }
    reflexivity. }
  simpl. split_and!.
  - rewrite list_lookup_insert_ne by done. by rewrite list_lookup_insert_eq.
  - by rewrite list_lookup_insert_eq by (by rewrite length_insert).
  - rewrite !elem_of_cons. eauto 10.
  - rewrite !elem_of_cons. eauto 10.
  - intros r. rewrite !elem_of_cons, !elem_of_app.
    intros [?|[?|[?|[?|[[m ?]%call_finish_logs|[[m ?]%call_finish_logs|?%elem_of_nil]]]]]];
      try done; congruence.
  - intros r. rewrite !elem_of_cons, !elem_of_app.
    intros [?|[?|[?|[?|[[m ?]%call_finish_logs|[[m ?]%call_finish_logs|?%elem_of_nil]]]]]];
      try done; congruence.
Qed.

Lemma two_waiting_reachable : reachable two_waiting.
Proof.
  exists "wss://irc.example.org:8600/"%string, "panel"%string, "secret"%string, two_dispatched.
  eexists. vm_compute. reflexivity.
Qed.

Lemma out_of_order_delivery_witness :
  exists s1 l,
    run ([EvTop 0; EvRead 0 (Frame respB); EvClaim 0; EvDeliver 0] ++
         [EvTop 0; EvRead 0 (Frame respA); EvClaim 0; EvDeliver 0] ++
         [EvSelect 0 (mkWaitEnv false 0) SelResp; EvSelect 1 (mkWaitEnv false 0) SelResp])
        two_waiting = Stepped s1 l /\
    callers s1 !! 0%nat = Some (PcDone (CallOk (Result respA))) /\
    callers s1 !! 1%nat = Some (PcDone (CallOk (Result respB))).
Proof.
  assert (H1 : callers two_waiting !! 0%nat = Some (PcWait 1 0%nat dA))
    by (vm_compute; reflexivity).
  assert (H2 : callers two_waiting !! 1%nat = Some (PcWait 2 1%nat dA))
    by (vm_compute; reflexivity).
  assert (H3 : pend two_waiting !! 1 = Some 0%nat) by (vm_compute; reflexivity).
  assert (H4 : pend two_waiting !! 2 = Some 1%nat) by (vm_compute; reflexivity).
  assert (H5 : loops two_waiting !! 0%nat = Some (WebSocketLoop, LpTop))
    by (vm_compute; reflexivity).
  assert (H6 : conn (client (world two_waiting)) = Some 7%nat) by (vm_compute; reflexivity).
  assert (H7 : 0%nat <> 1%nat) by lia.
  destruct (out_of_order_delivery two_waiting 0%nat 1%nat 1 2 0%nat 1%nat dA dA respA respB
              0%nat 7%nat (mkWaitEnv false 0) two_waiting_reachable H1 H2 H7 H3 H4 H5 H6
              eq_refl eq_refl) as [(s1 & l & R & HA & HB & _) _].
  exists s1, l. split_and!; [exact R|exact HA|exact HB].
Defined.

(** *** Attempts on an ID that is not registered *)

Lemma claim_unmatched s i r :
  loops s !! i = Some (WebSocketLoop, LpClaim r) ->
  pend s !! resp_ID r = None ->
  sys_step (EvClaim i) s =
    Stepped (with_loop s (world s) i WebSocketLoop LpTop) [Log (LogNoPending (resp_ID r))].
Proof. intros Hi Hp. unfold sys_step, hm_claim. rewrite Hi. cbv zeta. by rewrite Hp. Qed.

Lemma claim_unmatched_socket s i r :
  loops s !! i = Some (SocketLoop, LpClaim r) ->
  pend s !! resp_ID r = None ->
  sys_step (EvClaim i) s = Stepped (with_loop s (world s) i SocketLoop LpRead) [].
Proof. intros Hi Hp. unfold sys_step, hs_claim. by rewrite Hi, Hp. Qed.

Lemma unregister_absent s t id ch r :
  callers s !! t = Some (PcGiveUp id ch r) ->
  pend s !! id = None ->
  sys_step (EvUnregister t) s = Stepped (with_caller s (world s) t (PcDone r)) [].
Proof.
  intros Ht Hp. unfold sys_step. rewrite Ht. by rewrite call_unregister_absent.
Qed.

Lemma disconnect_spares_unregistered s s1 l1 ch :
  wf s -> sys_step EvDisconnect s = Stepped s1 l1 ->
  (forall id, pend s !! id <> Some ch) ->
  heap_of s1 !! ch = heap_of s !! ch /\ deliveries ch l1 = 0%nat.
Proof.
  intros W E Hn. unfold sys_step, Disconnect in E.
  destruct (Disconnect_spec s W) as (h & e & Ec & _ & _ & H2 & _ & Hd0 & _).
  rewrite Ec in E. injection E as <- <-. simpl. split; [by apply H2|].
  rewrite deliveries_app. simpl. rewrite deliveries_app. simpl. rewrite (Hd0 _ Hn).
  by destruct (conn (client (world s))).
Qed.

(** C3. Along every schedule of a client made by [NewRPCClient] (shorter
    than the ID space): the entry of an ID is taken out of the pending map
    at most once, whichever of the receive loop, a timeout, a
    cancellation, a failed write or [Disconnect] takes it; a channel is
    sent on or closed at most once in all, so that no waiter is delivered
    to twice; no continuation of the schedule panics in a channel
    operation of a loop or of [Disconnect], and a loop holding a claimed
    channel can always send on it at once. An attempt on an ID that is not
    registered (already claimed, or never registered) changes nothing: the
    WebSocket loop logs the response and goes back to reading, the socket
    loop drops it, the removal by a caller that timed out or was cancelled
    leaves the shared state as it is, and [Disconnect] neither closes nor
    changes a channel that is not registered. *)
Theorem at_most_one_resolution u n p tr s l :
  run tr (init_system u n p) = Stepped s l ->
  Z.of_nat (length tr) <= int64_max ->
  (forall id, (resolutions id tr (init_system u n p) <= 1)%nat) /\
  (forall ch, (deliveries ch l <= 1)%nat) /\
  (forall tr', run tr' s <> Crash) /\
  (forall i k ch r, loops s !! i = Some (k, LpSend ch r) ->
     exists s1, sys_step (EvDeliver i) s = Stepped s1 [Send ch r]) /\
  (forall id, pend s !! id = None ->
     (forall i r, loops s !! i = Some (WebSocketLoop, LpClaim r) -> resp_ID r = id ->
        sys_step (EvClaim i) s =
          Stepped (with_loop s (world s) i WebSocketLoop LpTop) [Log (LogNoPending id)]) /\
     (forall i r, loops s !! i = Some (SocketLoop, LpClaim r) -> resp_ID r = id ->
        sys_step (EvClaim i) s = Stepped (with_loop s (world s) i SocketLoop LpRead) []) /\
     (forall t ch r, callers s !! t = Some (PcGiveUp id ch r) ->
        sys_step (EvUnregister t) s = Stepped (with_caller s (world s) t (PcDone r)) [])) /\
  (forall s1 l1 ch, sys_step EvDisconnect s = Stepped s1 l1 ->
     (forall id, pend s !! id <> Some ch) ->
     heap_of s1 !! ch = heap_of s !! ch /\ deliveries ch l1 = 0%nat).
Proof.
  intros R Hb.
  pose proof (wf_run tr _ _ _ (wf_init u n p) R) as W.
  split_and!.
  - intros id. by eapply run_resolutions; [apply inv_init| |].
  - intros ch. by eapply run_deliveries; [apply wf_init|].
  - intros tr'. by apply run_no_crash.
  - intros i k ch r Hi. rewrite (deliver_enabled s i k ch r W Hi). eauto.
  - intros id Hp. split_and!.
    + intros i r Hi <-. by apply (claim_unmatched s i r).
    + intros i r Hi <-. by apply (claim_unmatched_socket s i r).
    + intros t ch r Ht. by eapply unregister_absent.
  - intros s1 l1 ch E Hn. by eapply disconnect_spares_unregistered.
Qed.

Lemma at_most_one_resolution_witness :
  resolutions 1 late_and_duplicate
    (init_system "wss://irc.example.org:8600/" "panel" "secret") = 1%nat /\
  forall id, (resolutions id late_and_duplicate
    (init_system "wss://irc.example.org:8600/" "panel" "secret") <= 1)%nat.
Proof.
  split; [vm_compute; reflexivity|].
  assert (R : exists s l,
    run late_and_duplicate (init_system "wss://irc.example.org:8600/" "panel" "secret")
      = Stepped s l).
  { eexists _, _. vm_compute. reflexivity. }
  destruct R as (s & l & R).
  assert (Hb : Z.of_nat (length late_and_duplicate) <= int64_max) by (vm_compute; discriminate).
  exact (proj1 (at_most_one_resolution _ _ _ _ _ _ R Hb)).
Defined.

(** *** The mutex *)

Lemma mutex_step_free ev g :
  rlock_leaked g = false -> lock_waiting g = false ->
  mutex_step ev g =
    match sys_step ev (sys g) with
    | Stepped s l =>
        Ran {| sys := s; rlock_leaked := leaks ev (sys g); lock_waiting := false |} l
    | Stuck => NotNow
    | Crash => Panics
    end.
Proof.
  intros Hl Hw. unfold mutex_step, blocked. rewrite Hl, Hw.
  destruct (sys_step ev (sys g)); destruct (lock_of ev (sys g)); done.
Qed.

Lemma mutex_run_free tr : forall g s1 l,
  rlock_leaked g = false -> lock_waiting g = false ->
  run tr (sys g) = Stepped s1 l -> leak_free tr (sys g) = true ->
  mutex_run tr g = Some (unlocked s1, l).
Proof.
  induction tr as [|ev tr IH]; intros g s1 l Hl Hw R F.
  - injection R as <- <-. destruct g. simpl in *. by subst.
  - cbn [run leak_free mutex_run] in *. rewrite mutex_step_free by done.
    apply andb_prop in F as [F1 F2]. apply negb_true_iff in F1.
    destruct (sys_step ev (sys g)) as [s' l'| |]; try done.
    destruct (run tr s') as [s2 l2| |] eqn:R2; try done. injection R as <- <-.
    rewrite F1. by rewrite (IH {| sys := s'; rlock_leaked := false; lock_waiting := false |}
                                s2 l2 eq_refl eq_refl R2 F2).
Qed.

Lemma mutex_step_ran ev g g1 l :
  mutex_step ev g = Ran g1 l ->
  sys_step ev (sys g) = Stepped (sys g1) l /\ blocked ev g = false /\
  rlock_leaked g1 = rlock_leaked g || leaks ev (sys g) /\ lock_waiting g1 = lock_waiting g.
Proof.
  unfold mutex_step. destruct (sys_step ev (sys g)) as [s' l'| |]; [|done|];
    destruct (blocked ev g); try done. by intros [= <- <-].
Qed.

Lemma mutex_step_blocked ev g g1 :
  mutex_step ev g = Blocked g1 ->
  sys g1 = sys g /\ rlock_leaked g1 = rlock_leaked g /\ blocked ev g = true /\
  (lock_waiting g1 = true -> lock_waiting g = true \/ rlock_leaked g = true).
Proof.
  unfold mutex_step, blocked. destruct (sys_step ev (sys g)) as [s' l'| |]; [|done|];
    destruct (lock_of ev (sys g)); try done;
    try (destruct (lock_waiting g) eqn:W; [|done]);
    try (destruct (rlock_leaked g) eqn:L; [|done]);
    intros [= <-]; simpl; eauto.
Qed.

(** A schedule under the mutex is a schedule of the goroutines, and a
    goroutine waits in [Lock()] only when the read lock is held for
    ever. *)
Lemma mutex_run_sys tr : forall g g1 l,
  mutex_run tr g = Some (g1, l) ->
  (lock_waiting g = true -> rlock_leaked g = true) ->
  (exists tr', run tr' (sys g) = Stepped (sys g1) l) /\
  (lock_waiting g1 = true -> rlock_leaked g1 = true).
Proof.
  induction tr as [|ev tr IH]; intros g g1 l R I.
  - injection R as <- <-. split; [by exists []|done].
  - cbn [mutex_run] in R. destruct (mutex_step ev g) as [g' l'|g'| |] eqn:E; try done.
    + destruct (mutex_run tr g') as [[g2 l2]|] eqn:R2; [|done]. injection R as <- <-.
      apply mutex_step_ran in E as (E & _ & El & Ew).
      destruct (IH _ _ _ R2) as [[tr' R'] I'].
      { rewrite El, Ew. intros W. by rewrite (I W). }
      split; [|done]. exists (ev :: tr'). cbn [run]. by rewrite E, R'.
    + apply mutex_step_blocked in E as (Es & El & _ & Ew).
      destruct (IH _ _ _ R) as [[tr' R'] I'].
      { rewrite El. intros W. destruct (Ew W) as [W'|]; [by apply I|done]. }
      split; [|done]. exists tr'. by rewrite <- Es.
Qed.

Lemma reachable_guarded_sys g :
  reachable_guarded g ->
  reachable (sys g) /\ (lock_waiting g = true -> rlock_leaked g = true).
Proof.
  intros (u & n & p & tr & l & R).
  destruct (mutex_run_sys tr _ _ _ R) as [[tr' R'] I]; [done|].
  split; [|done]. by exists u, n, p, tr', l.
Qed.

Lemma reachable_unlocked u n p tr s l :
  run tr (init_system u n p) = Stepped s l -> leak_free tr (init_system u n p) = true ->
  reachable_guarded (unlocked s).
Proof.
  intros R F. exists u, n, p, tr, l.
  by apply (mutex_run_free tr (unlocked (init_system u n p))).
Qed.

Lemma guarded_free g :
  reachable_guarded g -> rlock_leaked g = false ->
  wf (sys g) /\ g = unlocked (sys g).
Proof.
  intros [R I]%reachable_guarded_sys L. split; [by apply wf_reachable|].
  destruct g as [s lk w]. simpl in *. subst.
  destruct w; [by discriminate I|done].
Qed.

(** A step that a goroutine takes while the read lock is held for ever
    leaves the client, and every caller about to remove its entry, as
    they are. *)
Lemma held_step ev g g1 l :
  rlock_leaked g = true -> mutex_step ev g = Ran g1 l ->
  rlock_leaked g1 = true /\ client (world (sys g1)) = client (world (sys g)) /\
  forall t id ch r, callers (sys g) !! t = Some (PcGiveUp id ch r) ->
    callers (sys g1) !! t = Some (PcGiveUp id ch r).
Proof.
  intros L E. apply mutex_step_ran in E as (E & B & El & _).
  rewrite L in El. split; [done|]. clear El. unfold blocked in B. rewrite L in B.
  revert E B. generalize (sys g1). generalize (sys g). clear. intros s s1 E B.
  assert (Hc : forall t pc pc' w, callers s !! t = Some pc ->
    (forall id ch r, pc <> PcGiveUp id ch r) ->
    forall t' id ch r, callers s !! t' = Some (PcGiveUp id ch r) ->
      callers (with_caller s w t pc') !! t' = Some (PcGiveUp id ch r)).
  { intros t pc pc' w Ht Hn t' id ch r Ht'. simpl.
    destruct (decide (t = t')) as [->|Hne]; [|by rewrite list_lookup_insert_ne].
    rewrite Ht in Ht'. injection Ht' as ->. by destruct (Hn id ch r). }
  destruct ev; unfold sys_step in E; simpl in B; try done.
  - destruct (callers s !! t) as [[ch req d| | |]|] eqn:Ht; try done.
    destruct (call_send req werr (world s)) as [l' []]; injection E as <- <-;
      (split; [done|]); by eapply Hc.
  - destruct (callers s !! t) as [[|id ch d| |]|] eqn:Ht; try done.
    unfold call_wait in E. destruct (case_ready _ _ _ _); [|done].
    destruct k.
    + destruct (chan_recv _ _) as [[v h]| |]; try done.
      destruct (call_finish d v). injection E as <- <-. split; [done|]. by eapply Hc.
    + injection E as <- <-. split; [done|].
      intros t' id' ch' r' Ht'. simpl.
      destruct (decide (t = t')) as [->|Hne]; [|by rewrite list_lookup_insert_ne].
      by rewrite Ht in Ht'.
    + injection E as <- <-. split; [done|].
      intros t' id' ch' r' Ht'. simpl.
      destruct (decide (t = t')) as [->|Hne]; [|by rewrite list_lookup_insert_ne].
      by rewrite Ht in Ht'.
  - destruct (loops s !! i) as [[[] []]|]; try done.
    destruct (hm_top (world s)) as [l' []]; by injection E as <- <-.
  - destruct (loops s !! i) as [[[] []]|]; try done.
    + destruct (hm_read f) as [l' []]; by injection E as <- <-.
    + destruct (hs_read f) as [l' []]; by injection E as <- <-.
  - destruct (loops s !! i) as [[[] []]|]; try done.
    destruct (hs_claim r (world s)); by injection E as <- <-.
  - destruct (loops s !! i) as [[k []]|]; try done.
    destruct k; unfold hm_deliver, hs_deliver in E;
      destruct (chan_send _ _ _); try done; by injection E as <- <-.
Qed.

Lemma held_run tr : forall g g1 l,
  rlock_leaked g = true -> mutex_run tr g = Some (g1, l) ->
  rlock_leaked g1 = true /\ client (world (sys g1)) = client (world (sys g)) /\
  forall t id ch r, callers (sys g) !! t = Some (PcGiveUp id ch r) ->
    callers (sys g1) !! t = Some (PcGiveUp id ch r).
Proof.
  induction tr as [|ev tr IH]; intros g g1 l L R.
  { by injection R as <- <-. }
  cbn [mutex_run] in R. destruct (mutex_step ev g) as [g' l'|g'| |] eqn:E; try done.
  - destruct (mutex_run tr g') as [[g2 l2]|] eqn:R2; [|done]. injection R as <- <-.
    destruct (held_step _ _ _ _ L E) as (L' & Hc & Hg).
    destruct (IH g' _ _ L' R2) as (L2 & Hc2 & Hg2).
    split; [done|]. split; [congruence|]. intros t id ch r Ht. eauto.
  - apply mutex_step_blocked in E as (Es & El & _).
    destruct (IH g' _ _ ltac:(congruence) R) as (L2 & Hc2 & Hg2).
    rewrite Es in *. done.
Qed.

(** The write through a nil handle keeps the read lock, and with the read
    lock kept nothing that needs the lock happens any more: [Disconnect],
    [Connect] and every new call block, a caller that has taken its timer
    or its context never gets to remove its entry and to return, and the
    client stays as it is, the pending map included. *)
Lemma write_panic_keeps_lock g :
  reachable_guarded g ->
  (forall t ch req d werr,
     callers (sys g) !! t = Some (PcSend ch req d) ->
     conn (client (world (sys g))) = None -> lock_waiting g = false ->
     exists g1, mutex_step (EvWrite t werr) g = Ran g1 [] /\ rlock_leaked g1 = true /\
       callers (sys g1) !! t = Some (PcDone CallPanic)) /\
  (rlock_leaked g = true ->
     let g' := {| sys := sys g; rlock_leaked := true; lock_waiting := true |} in
     mutex_step EvDisconnect g = Blocked g' /\
     (forall e, mutex_step (EvConnect e) g = Blocked g') /\
     (forall m prm d, mutex_step (EvCall m prm d) g = Blocked g') /\
     (forall t id ch r, callers (sys g) !! t = Some (PcGiveUp id ch r) ->
        mutex_step (EvUnregister t) g = Blocked g') /\
     forall tr g1 l, mutex_run tr g = Some (g1, l) ->
       rlock_leaked g1 = true /\ pend (sys g1) = pend (sys g) /\
       forall t id ch r, callers (sys g) !! t = Some (PcGiveUp id ch r) ->
         callers (sys g1) !! t = Some (PcGiveUp id ch r)).
Proof.
  intros [W%wf_reachable _]%reachable_guarded_sys. split.
  - intros t ch req d werr Ht Hc Hw. unfold mutex_step, blocked, sys_step, leaks, call_send.
    cbn [lock_of]. rewrite Ht, Hc, Hw. eexists. split; [reflexivity|]. simpl.
    split; [apply orb_true_r|]. apply list_lookup_insert_eq. by eapply lookup_lt_Some.
  - intros L. cbv zeta. split_and!.
    + unfold mutex_step, blocked. cbn [lock_of]. rewrite L. unfold sys_step, Disconnect.
      cbv zeta. by destruct (Disconnect_spec _ W) as (h & e & -> & _).
    + intros e. unfold mutex_step, blocked. cbn [lock_of]. rewrite L. unfold sys_step.
      by destruct (Connect e (world (sys g))) as [[w l] r].
    + intros m prm d. unfold mutex_step, blocked. cbn [lock_of]. rewrite L. unfold sys_step.
      by destruct (call_begin (world (sys g))) as [[w l] [r|[id ch]]].
    + intros t id ch r Ht. unfold mutex_step, blocked. cbn [lock_of]. rewrite L.
      unfold sys_step. by rewrite Ht.
    + intros tr g1 l R. destruct (held_run tr _ _ _ L R) as (L1 & Hc & Hg).
      split; [done|]. split; [by rewrite Hc|done].
Qed.

(** A call is registered, [Disconnect] clears the handle, the call writes:
    it panics holding the read lock, and a second [Disconnect] blocks. *)
Lemma write_after_Disconnect_holds_lock :
  exists g l,
    mutex_run [EvConnect ws_env; EvCall "stats.get" None dA; EvDisconnect; EvWrite 0 false]
      (unlocked (init_system "wss://irc.example.org:8600/" "panel" "secret")) = Some (g, l) /\
    callers (sys g) = [PcDone CallPanic] /\ rlock_leaked g = true /\
    mutex_step EvDisconnect g
      = Blocked {| sys := sys g; rlock_leaked := true; lock_waiting := true |}.
Proof. eexists _, _. split_and!; vm_compute; reflexivity. Qed.

Lemma two_waiting_guarded : reachable_guarded (unlocked two_waiting).
Proof.
  eapply (reachable_unlocked "wss://irc.example.org:8600/" "panel" "secret" two_dispatched);
    vm_compute; reflexivity.
Qed.

(** *** Teardown *)

Lemma wait_never_not_connected s t id ch d e k s1 l r :
  callers s !! t = Some (PcWait id ch d) ->
  sys_step (EvSelect t e k) s = Stepped s1 l ->
  callers s1 !! t = Some (PcDone r) \/ callers s1 !! t = Some (PcGiveUp id ch r) ->
  r <> ErrNotConnected.
Proof.
  intros Ht E Hr. pose proof (lookup_lt_Some _ _ _ Ht) as Hlt.
  unfold sys_step, call_wait in E. rewrite Ht in E.
  destruct (case_ready (heap_of s) ch e k); [|done]. destruct k.
  - destruct (chan_recv (heap_of s) ch) as [[v h]| |]; try done.
    destruct (call_finish d v) as [lf rf] eqn:F. injection E as <- <-.
    simpl in Hr. rewrite list_lookup_insert_eq in Hr by done.
    destruct Hr as [[= <-]|[=]].
    unfold call_finish in F. destruct v as [resp|]; [|by injection F as _ <-].
    destruct (Error resp); [by injection F as _ <-|].
    destruct d as [valid|]; [|by injection F as _ <-].
    destruct (Result resp) as [raw|]; [|by injection F as _ <-].
    destruct (valid raw); by injection F as _ <-.
  - injection E as <- <-. simpl in Hr.
    rewrite list_lookup_insert_eq in Hr by done. by destruct Hr as [[=]|[= <-]].
  - injection E as <- <-. simpl in Hr.
    rewrite list_lookup_insert_eq in Hr by done. by destruct Hr as [[=]|[= <-]].
Qed.

(** C4, as stated, fails. One call is pending on a WebSocket client when
    the read of the receive loop fails. The loop returns; the entry stays
    in the map and the channel stays open and empty, so the receive case
    of the caller is not enabled at any time; the caller is released only
    by its timer (or its context), with the timeout error, and no step of
    the caller yields the not-connected error. *)
Lemma loop_exit_leaves_call_pending :
  exists s1 l,
    run [EvTop 0; EvRead 0 Closed] one_waiting = Stepped s1 l /\
    loops s1 = [(WebSocketLoop, LpDone)] /\
    callers s1 = [PcWait 1 0 dA] /\
    pend s1 !! 1 = Some 0%nat /\
    heap_of s1 = [new_chan] /\
    (forall e, sys_step (EvSelect 0 e SelResp) s1 = Stuck) /\
    (exists s2 l2,
       run [EvSelect 0 (mkWaitEnv false callTimeout) SelTimeout; EvUnregister 0] s1
         = Stepped s2 l2 /\
       callers s2 = [PcDone ErrTimeout]) /\
    ~ (exists e k s2 l2, sys_step (EvSelect 0 e k) s1 = Stepped s2 l2 /\
         (callers s2 !! 0%nat = Some (PcDone ErrNotConnected) \/
          callers s2 !! 0%nat = Some (PcGiveUp 1 0%nat ErrNotConnected))).
Proof.
  eexists _, _. split; [vm_compute; reflexivity|].
  split_and!; try reflexivity.
  - eexists _, _. split; [vm_compute; reflexivity|reflexivity].
  - intros (e & k & s2 & l2 & E & Hr).
    refine (wait_never_not_connected _ 0%nat 1 0%nat dA e k s2 l2 ErrNotConnected _ E Hr eq_refl).
    reflexivity.
Qed.

Lemma loop_exit_no_teardown s i k :
  loops s !! i = Some (k, LpRead) ->
  exists l, sys_step (EvRead i Closed) s = Stepped (with_loop s (world s) i k LpDone) l /\
    forall c, deliveries c l = 0%nat.
Proof. intros Hi. unfold sys_step. rewrite Hi. destruct k; simpl; eauto. Qed.

Lemma teardown_steps s :
  wf s ->
  (exists s1 l, sys_step EvDisconnect s = Stepped s1 l /\
     conn (client (world s1)) = None /\ pend s1 = ∅ /\ callers s1 = callers s /\
     forall id ch, pend s !! id = Some ch ->
       heap_of s1 !! ch = Some {| buf := None; closed := true |} /\
       deliveries ch l = 1%nat /\
       chan_recv_ready (heap_of s1) ch = true) /\
  (forall t id ch d e k, callers s !! t = Some (PcWait id ch d) ->
     k <> SelResp -> case_ready (heap_of s) ch e k = true ->
     exists s1, run [EvSelect t e k; EvUnregister t] s
                  = Stepped s1 [Log (match k with
                                     | SelCtxDone => LogCtxCancelled id
                                     | _ => LogTimeout id
                                     end)] /\
       leak_free [EvSelect t e k; EvUnregister t] s = true /\
       callers s1 !! t = Some (PcDone (match k with SelCtxDone => ErrCtx | _ => ErrTimeout end)) /\
       pend s1 = delete id (pend s)).
Proof.
  intros W. split.
  - unfold sys_step, Disconnect.
    destruct (Disconnect_spec s W) as (h & e & -> & Hlen & H1 & H2 & Hd1 & Hd0 & _).
    eexists _, _. split; [done|]. simpl. split_and!; try done.
    intros id ch Hp. split_and!.
    + by eapply H1.
    + rewrite deliveries_app. simpl. rewrite deliveries_app. simpl.
      rewrite (Hd1 _ _ Hp). by destruct (conn (client (world s))).
    + unfold chan_recv_ready. by rewrite (H1 _ _ Hp).
  - intros t id ch d e k Ht Hk Hr. pose proof (lookup_lt_Some _ _ _ Ht) as Hlt.
    rewrite (select_gives_up s t id ch d e k) by done.
    eexists. split; [done|]. split.
    + cbn [leak_free leaks negb andb].
      destruct (sys_step (EvSelect t e k) s); [|done..]. by destruct (sys_step _ _).
    + simpl. by rewrite list_lookup_insert_eq.
Qed.

(** C4, amended. In every state that the client reaches under its mutex
    without a write having panicked with the read lock held:
    [Disconnect] runs without panic, clears the handle, empties the
    pending map and closes every registered channel exactly once, after
    which the receive case of every waiter on such a channel is enabled; a
    receive loop whose read fails returns and leaves the map, the channels
    and the callers as they are; a suspended caller can leave through its
    timer once 30 seconds have passed, or through its context once that
    is done, with the timeout or context error and its own entry removed;
    and whatever case a suspended caller takes, it does not return the
    not-connected error. *)
Theorem teardown_releases_waiters g :
  reachable_guarded g -> rlock_leaked g = false ->
  (exists s1 l, mutex_step EvDisconnect g = Ran (unlocked s1) l /\
     conn (client (world s1)) = None /\ pend s1 = ∅ /\ callers s1 = callers (sys g) /\
     forall id ch, pend (sys g) !! id = Some ch ->
       heap_of s1 !! ch = Some {| buf := None; closed := true |} /\
       deliveries ch l = 1%nat /\
       chan_recv_ready (heap_of s1) ch = true) /\
  (forall i k, loops (sys g) !! i = Some (k, LpRead) ->
     exists l, mutex_step (EvRead i Closed) g
                 = Ran (unlocked (with_loop (sys g) (world (sys g)) i k LpDone)) l /\
       forall c, deliveries c l = 0%nat) /\
  (forall t id ch d e, callers (sys g) !! t = Some (PcWait id ch d) ->
     (callTimeout <= elapsed e ->
        exists s1, mutex_run [EvSelect t e SelTimeout; EvUnregister t] g
                     = Some (unlocked s1, [Log (LogTimeout id)]) /\
          callers s1 !! t = Some (PcDone ErrTimeout) /\
          pend s1 = delete id (pend (sys g))) /\
     (ctx_done e = true ->
        exists s1, mutex_run [EvSelect t e SelCtxDone; EvUnregister t] g
                     = Some (unlocked s1, [Log (LogCtxCancelled id)]) /\
          callers s1 !! t = Some (PcDone ErrCtx) /\
          pend s1 = delete id (pend (sys g))) /\
     (forall k g1 l r, mutex_step (EvSelect t e k) g = Ran g1 l ->
        callers (sys g1) !! t = Some (PcDone r) \/
        callers (sys g1) !! t = Some (PcGiveUp id ch r) ->
        r <> ErrNotConnected)).
Proof.
  intros R L. destruct (guarded_free g R L) as [W Eg].
  destruct (teardown_steps (sys g) W) as [(s1 & l & Ed & Hd) Hw].
  assert (Lw : lock_waiting g = false) by (by rewrite Eg).
  split_and!.
  - exists s1, l. split; [|done]. by rewrite mutex_step_free, Ed.
  - intros i k Hi. destruct (loop_exit_no_teardown _ _ _ Hi) as (l' & E & Hl).
    exists l'. split; [|done]. by rewrite mutex_step_free, E.
  - intros t id ch d e Ht. split_and!.
    + intros He. destruct (Hw t id ch d e SelTimeout Ht) as (s2 & E & F & Hc & Hp);
        [done|by apply Z.leb_le|].
      exists s2. split; [|done]. by apply mutex_run_free.
    + intros He. destruct (Hw t id ch d e SelCtxDone Ht) as (s2 & E & F & Hc & Hp);
        [done|done|].
      exists s2. split; [|done]. by apply mutex_run_free.
    + intros k g1 l' r E%mutex_step_ran. destruct E as (E & _).
      by eapply wait_never_not_connected.
Qed.

Lemma teardown_releases_waiters_witness :
  exists s1 l, mutex_step EvDisconnect (unlocked two_waiting) = Ran (unlocked s1) l /\
    conn (client (world s1)) = None /\ pend s1 = ∅ /\
    heap_of s1 = [ {| buf := None; closed := true |}; {| buf := None; closed := true |} ].
Proof.
  destruct (teardown_releases_waiters (unlocked two_waiting) two_waiting_guarded eq_refl)
    as [(s1 & l & E & Hc & Hp & _) _].
  exists s1, l. split_and!; [exact E|exact Hc|exact Hp|].
  vm_compute in E. injection E as <- _. reflexivity.
Defined.

(** *** Timeout *)

(** C5. A caller is suspended in the select, no response has arrived on
    its channel (the channel is open and empty) and its context is not
    done. Before 30 seconds have passed the timer case cannot be taken;
    once they have, the timer case is the only one that can: [call]
    removes its entry from the pending map and returns the timeout error.
    A response carrying that ID that the WebSocket loop reads afterwards
    finds no entry: it is logged, nothing is sent, the state is unchanged
    and the loop is back at its top. *)
Theorem timeout_then_late_response s t id ch d e i cn r :
  callers s !! t = Some (PcWait id ch d) ->
  heap_of s !! ch = Some new_chan ->
  ctx_done e = false ->
  callTimeout <= elapsed e ->
  loops s !! i = Some (WebSocketLoop, LpTop) ->
  conn (client (world s)) = Some cn ->
  resp_ID r = id ->
  callTimeout = 30 * 1000000000 /\
  (forall e', elapsed e' < callTimeout -> sys_step (EvSelect t e' SelTimeout) s = Stuck) /\
  sys_step (EvSelect t e SelResp) s = Stuck /\
  sys_step (EvSelect t e SelCtxDone) s = Stuck /\
  exists s1,
    run [EvSelect t e SelTimeout; EvUnregister t] s = Stepped s1 [Log (LogTimeout id)] /\
    callers s1 !! t = Some (PcDone ErrTimeout) /\
    pend s1 = delete id (pend s) /\
    pend s1 !! id = None /\
    heap_of s1 = heap_of s /\
    run [EvTop i; EvRead i (Frame r); EvClaim i] s1 = Stepped s1 [Log (LogNoPending id)].
Proof.
  intros Ht Hh Hctx He Hi Hc Hr.
  pose proof (lookup_lt_Some _ _ _ Ht) as Hlt. split_and!.
  - reflexivity.
  - intros e' He'. unfold sys_step, call_wait, case_ready. rewrite Ht.
    by rewrite (proj2 (Z.leb_gt _ _) He').
  - unfold sys_step, call_wait, case_ready. rewrite Ht.
    by rewrite (chan_recv_ready_fresh _ _ Hh).
  - unfold sys_step, call_wait, case_ready. by rewrite Ht, Hctx.
  - rewrite (select_gives_up s t id ch d e SelTimeout); [|done..|].
    2:{ simpl. by apply Z.leb_le. }
    eexists. split; [done|]. simpl. split_and!; try done.
    + by rewrite list_lookup_insert_eq.
    + apply lookup_delete_eq.
    + subst id. apply (iteration_unmatched _ i cn r); simpl; try done.
      apply lookup_delete_eq.
Qed.

Lemma timeout_then_late_response_witness :
  exists s1,
    run [EvSelect 0 (mkWaitEnv false callTimeout) SelTimeout; EvUnregister 0] one_waiting
      = Stepped s1 [Log (LogTimeout 1)] /\
    callers s1 !! 0%nat = Some (PcDone ErrTimeout) /\
    pend s1 !! 1 = None /\
    run [EvTop 0; EvRead 0 (Frame respA); EvClaim 0] s1 = Stepped s1 [Log (LogNoPending 1)].
Proof.
  assert (H1 : callers one_waiting !! 0%nat = Some (PcWait 1 0%nat dA))
    by (vm_compute; reflexivity).
  assert (H2 : heap_of one_waiting !! 0%nat = Some new_chan) by (vm_compute; reflexivity).
  assert (H3 : callTimeout <= elapsed (mkWaitEnv false callTimeout)) by (simpl; lia).
  assert (H4 : loops one_waiting !! 0%nat = Some (WebSocketLoop, LpTop))
    by (vm_compute; reflexivity).
  assert (H5 : conn (client (world one_waiting)) = Some 7%nat) by (vm_compute; reflexivity).
  destruct (timeout_then_late_response one_waiting 0%nat 1 0%nat dA
              (mkWaitEnv false callTimeout) 0%nat 7%nat respA H1 H2 eq_refl H3 H4 H5 eq_refl)
    as (_ & _ & _ & _ & s1 & E & Hr & _ & Hp & _ & Hl).
  exists s1. split_and!; [exact E|exact Hr|exact Hp|exact Hl].
Defined.

(** *** Failed write *)

(** C6. A goroutine that is registered and about to write, whose write
    fails, removes the entry of its ID and then returns the send error;
    the channels and the counter are not touched. When a call registers
    and its write fails at once, on a client reached from [NewRPCClient]
    by a schedule shorter than the ID space, the pending map is the one
    the call found: the ID was free, and it is free again. *)
Theorem failed_send_unregisters u n p tr s l cn m prm d :
  run tr (init_system u n p) = Stepped s l ->
  Z.of_nat (length tr) < int64_max ->
  conn (client (world s)) = Some cn ->
  (forall t ch req d',
     callers s !! t = Some (PcSend ch req d') ->
     exists s1,
       run [EvWrite t true; EvUnregister t] s
         = Stepped s1 [WriteJSON cn req false; Log LogSendFailed] /\
       callers s1 !! t = Some (PcDone ErrSendFailed) /\
       pend s1 = delete (req_ID req) (pend s) /\
       pend s1 !! req_ID req = None /\
       heap_of s1 = heap_of s /\ counter s1 = counter s /\
       conn (client (world s1)) = Some cn) /\
  exists s2 l2,
    run [EvCall m prm d; EvWrite (length (callers s)) true; EvUnregister (length (callers s))] s
      = Stepped s2 l2 /\
    callers s2 !! length (callers s) = Some (PcDone ErrSendFailed) /\
    pend s !! (counter s + 1) = None /\
    pend s2 = pend s /\
    requests l2 = [make_request m prm (counter s + 1)].
Proof.
  intros R Hb Hc.
  assert (Hfail : forall s' t ch req d',
    conn (client (world s')) = Some cn ->
    callers s' !! t = Some (PcSend ch req d') ->
    run [EvWrite t true; EvUnregister t] s' =
      Stepped (with_caller s' (call_unregister (req_ID req) (world s')) t (PcDone ErrSendFailed))
              [WriteJSON cn req false; Log LogSendFailed]).
  { intros s' t ch req d' Hc' Ht. pose proof (lookup_lt_Some _ _ _ Ht) as Hlt.
    cbn [run]. unfold sys_step at 1, call_send. rewrite Ht, Hc'.
    unfold sys_step. cbn [with_caller callers world loops].
    rewrite list_lookup_insert_eq by done. unfold with_caller. simpl.
    by rewrite list_insert_insert_eq. }
  split.
  - intros t ch req d' Ht. pose proof (lookup_lt_Some _ _ _ Ht) as Hlt.
    rewrite (Hfail s t ch req d' Hc Ht). eexists. split; [done|]. simpl.
    split_and!; try done.
    + by rewrite list_lookup_insert_eq.
    + apply lookup_delete_eq.
  - destruct (run_ids tr _ _ _ (inv_init u n p) (Z.lt_le_incl _ _ Hb) R)
      as ([_ I] & [_ Hcnt] & _).
    simpl in Hcnt.
    assert (Hw : wrap64 (counter s + 1) = counter s + 1).
    { apply wrap64_id. destruct I as [[? ?] _ _ _]. unfold int64_min. lia. }
    assert (Hfree : pend s !! (counter s + 1) = None).
    { destruct (pend s !! (counter s + 1)) as [c|] eqn:P; [|done].
      apply (ids_pending _ I) in P. lia. }
    change [EvCall m prm d; EvWrite (length (callers s)) true; EvUnregister (length (callers s))]
      with ([EvCall m prm d] ++
            [EvWrite (length (callers s)) true; EvUnregister (length (callers s))]).
    erewrite run_app; cycle 1.
    { cbn [run]. unfold sys_step, call_begin. rewrite Hw. cbv zeta. rewrite Hc. reflexivity. }
    erewrite Hfail; [|done|by apply list_lookup_middle].
    eexists _, _. split; [done|]. cbn -[make_request]. split_and!; try done.
    + rewrite list_lookup_insert_eq; [done|]. rewrite length_app. simpl. lia.
    + by rewrite delete_insert_id.
Qed.

Lemma failed_send_unregisters_witness :
  exists s2 l2,
    run [EvCall "channel.kick" None None; EvWrite 1 true; EvUnregister 1] one_waiting
      = Stepped s2 l2 /\
    callers s2 !! 1%nat = Some (PcDone ErrSendFailed) /\
    pend s2 = pend one_waiting.
Proof.
  assert (R : exists l,
    run one_dispatched (init_system "wss://irc.example.org:8600/" "panel" "secret")
      = Stepped one_waiting l) by (eexists; vm_compute; reflexivity).
  destruct R as [l R].
  assert (Hb : Z.of_nat (length one_dispatched) < int64_max) by (vm_compute; reflexivity).
  assert (Hc : conn (client (world one_waiting)) = Some 7%nat) by (vm_compute; reflexivity).
  destruct (failed_send_unregisters _ _ _ _ _ _ 7%nat "channel.kick" None None R Hb Hc)
    as (_ & s2 & l2 & E & Hr & _ & Hp & _).
  exists s2, l2. split_and!; [exact E|exact Hr|exact Hp].
Defined.

(** *** Malformed frames *)

Lemma handleMessages_malformed w cn raw fs :
  conn (client w) = Some cn ->
  handleMessages (Malformed raw :: fs) w =
    ChanOk {| run_world := w; run_effects := [Log LogReadError; Log LogHandlerStopped];
              run_status := Returned; run_unread := fs |}.
Proof. intros Hc. cbn [handleMessages]. unfold hm_top. by rewrite Hc. Qed.

Lemma handleSocketMessages_malformed w raw fs :
  handleSocketMessages (Malformed raw :: fs) w =
    run_cons [Log LogSocketLine; Log LogSocketUnmarshalFailed] (handleSocketMessages fs w).
Proof. reflexivity. Qed.

(** C7 fails on the WebSocket loop. A call with ID 1 is pending. The
    transport delivers a message that does not decode, then the response
    to call 1. [handleMessages] returns at the first message: the
    response stays unread, call 1 stays registered with an empty channel,
    and the loop takes no further step. Had the malformed message not
    been there, the response would have been sent on the channel of call
    1. [handleSocketMessages] on the same input skips the message and
    delivers the response. *)
Theorem malformed_frame_stops_handleMessages :
  handleMessages [Malformed "{"; Frame respA] (world one_waiting) =
    ChanOk {| run_world := world one_waiting;
              run_effects := [Log LogReadError; Log LogHandlerStopped];
              run_status := Returned; run_unread := [Frame respA] |} /\
  pend one_waiting !! 1 = Some 0%nat /\
  heap_of one_waiting !! 0%nat = Some new_chan /\
  (exists w, handleMessages [Frame respA] (world one_waiting) =
     ChanOk {| run_world := w; run_effects := [Log (LogFoundPending 1); Send 0 respA];
               run_status := Reading; run_unread := [] |} /\
     chans w !! 0%nat = Some {| buf := Some respA; closed := false |}) /\
  (exists s l, run [EvTop 0; EvRead 0 (Malformed "{")] one_waiting = Stepped s l /\
     loops s = [(WebSocketLoop, LpDone)] /\
     (forall ev, In ev [EvTop 0; EvRead 0 (Frame respA); EvClaim 0; EvDeliver 0] ->
        sys_step ev s = Stuck)) /\
  (exists w, handleSocketMessages [Malformed "{"; Frame respA] (world one_waiting) =
     ChanOk {| run_world := w;
               run_effects := [Log LogSocketLine; Log LogSocketUnmarshalFailed;
                               Log LogSocketLine; Send 0 respA];
               run_status := Reading; run_unread := [] |} /\
     chans w !! 0%nat = Some {| buf := Some respA; closed := false |}).
Proof.
  split_and!.
  - vm_compute. reflexivity.
  - vm_compute. reflexivity.
  - vm_compute. reflexivity.
  - eexists. split; vm_compute; reflexivity.
  - eexists _, _. split_and!; [vm_compute; reflexivity..|].
    intros ev [<-|[<-|[<-|[<-|[]]]]]; vm_compute; reflexivity.
  - eexists. split; vm_compute; reflexivity.
Qed.

(** *** Session establishment *)

Lemma Connect_cases e w w1 l r :
  Connect e w = (w1, l, r) ->
  requests l = [] /\
  pending (client w1) = pending (client w) /\ reqID (client w1) = reqID (client w) /\
  chans w1 = chans w /\
  (r = ConnectOk ->
     exists cn, dialed e = Some cn /\
       if is_unix_url (url (client w))
       then socketConn (client w1) = Some cn /\ conn (client w1) = conn (client w) /\
            spawned l = [(SocketLoop, LpRead)]
       else conn (client w1) = Some cn /\ spawned l = [(WebSocketLoop, LpTop)] /\
            exists u, parsed e = Some u /\
              DialWebSocket (final_url u) (authHeader (client w)) ∈ l) /\
  (r <> ConnectOk -> w1 = w /\ spawned l = []).
Proof.
  unfold Connect, connectUnixSocket, connectWebSocket.
  destruct (is_unix_url (url (client w))); [|destruct (parsed e) as [pu|]];
    destruct (dialed e) as [cn|]; intros [= <- <- <-]; simpl; split_and!; try done.
  - intros _; by exists cn.
  - intros _; exists cn. split_and!; try done. exists pu. split; [done|]. by left.
Qed.

Lemma call_frame e m prm d w w1 l r :
  call e m prm d w = Some (w1, l, r) ->
  (forall x, conn (client (before_write e x)) = conn (client x)) ->
  (forall x, conn (client (while_waiting e x)) = conn (client x)) ->
  (forall x, conn (client (before_unregister e x)) = conn (client x)) ->
  conn (client w1) = conn (client w) /\
  (requests l = [] \/ requests l = [make_request m prm (wrap64 (reqID (client w) + 1))]).
Proof.
  unfold call, call_begin, call_send, call_wait. intros E Hm1 Hm2 Hm3.
  destruct (conn (client w)) as [cn|] eqn:C; cbv zeta in E; cbn iota beta in E.
  2:{ injection E as <- <- <-. simpl. eauto. }
  rewrite Hm1 in E. cbn [client conn set_pending set_reqID] in E. rewrite C in E.
  destruct (write_err e).
  { injection E as <- <- <-. simpl. rewrite Hm3, Hm1. simpl. eauto. }
  destruct (case_ready _ _ _ _); [|done].
  destruct (pick e).
  - destruct (chan_recv _ _) as [[v h]| |]; try done.
    destruct (call_finish_quiet d v) as [_ Hq].
    destruct (call_finish d v) as [lf rf]. injection E as <- <- <-. simpl.
    rewrite Hm2, Hm1. simpl. split; [done|]. right. simpl in Hq.
    change (omap _ lf) with (requests lf). by rewrite Hq.
  - injection E as <- <- <-. simpl. rewrite Hm3, Hm2, Hm1. simpl. eauto.
  - injection E as <- <- <-. simpl. rewrite Hm3, Hm2, Hm1. simpl. eauto.
Qed.

(** C8, as stated, fails. [Connect] on a WebSocket URL succeeds without
    any request being written; the first request on the connection is
    another caller's, with ID 1; and a login that fails (here on the
    write) leaves the handle in place, the client still connected. *)
Lemma Connect_issues_no_login :
  exists w1 l,
    Connect ws_env {| client := NewRPCClient "wss://irc.example.org:8600/" "panel" "secret";
                      chans := [] |} = (w1, l, ConnectOk) /\
    requests l = [] /\
    (exists s l',
       run [EvConnect ws_env; EvCall "stats.get" None dA; EvWrite 0 false]
           (init_system "wss://irc.example.org:8600/" "panel" "secret") = Stepped s l' /\
       requests l' = [make_request "stats.get" None 1]) /\
    (exists w2 l2,
       authenticate failing_write w1 = Some (w2, l2, ErrLoginFailed ErrSendFailed) /\
       conn (client w2) = Some 7%nat /\ IsConnected w2 = true).
Proof.
  eexists _, _. split; [vm_compute; reflexivity|]. split_and!.
  - reflexivity.
  - eexists _, _. split; vm_compute; reflexivity.
  - eexists _, _. split_and!; vm_compute; reflexivity.
Qed.

Lemma call_not_connected e m prm d w :
  conn (client w) = None ->
  call e m prm d w =
    Some ({| client := set_reqID (wrap64 (reqID (client w) + 1)) (client w); chans := chans w |},
          [Log LogNotConnected], ErrNotConnected).
Proof. intros Hc. unfold call, call_begin. by rewrite Hc. Qed.

(** C8, amended. [Connect] writes no request and leaves the counter, the
    pending map and the channels alone. When it succeeds it has stored
    the dialed handle (in [socketConn] for the UNIX socket, in [conn] for
    the WebSocket, whose handshake carried the user name and password in
    its Authorization header) and started exactly one receive loop; when
    the URL does not parse or the dial fails the client is unchanged and
    no loop is started. After a successful WebSocket [Connect] a call by
    any caller is registered, under the next ID, and its request is the
    first thing written on the stored handle: no login has been made.
    After a successful UNIX-socket [Connect] on a client that has no
    WebSocket handle a call returns the not-connected error.
    [authenticate] writes at most one request, which is a [user.login]
    with the client's user name and password; it does not change the
    connection handle, whatever its result. *)
Theorem Connect_sends_no_request e w w1 l r :
  Connect e w = (w1, l, r) ->
  requests l = [] /\
  pending (client w1) = pending (client w) /\ reqID (client w1) = reqID (client w) /\
  chans w1 = chans w /\
  (r = ConnectOk ->
     exists cn, dialed e = Some cn /\
       if is_unix_url (url (client w))
       then socketConn (client w1) = Some cn /\ conn (client w1) = conn (client w) /\
            spawned l = [(SocketLoop, LpRead)]
       else conn (client w1) = Some cn /\ spawned l = [(WebSocketLoop, LpTop)] /\
            exists u, parsed e = Some u /\
              DialWebSocket (final_url u) (authHeader (client w)) ∈ l) /\
  (r <> ConnectOk -> w1 = w /\ spawned l = []) /\
  (r = ConnectOk -> is_unix_url (url (client w)) = false ->
     forall m prm, exists cn w2 ch,
       let id := wrap64 (reqID (client w) + 1) in
       dialed e = Some cn /\
       call_begin w1 = (w2, [Log (LogCreatedPending id)], inr (id, ch)) /\
       pending (client w2) = <[id := ch]> (pending (client w)) /\
       call_send (make_request m prm id) false w2
         = ([WriteJSON cn (make_request m prm id) true; Log LogRequestSent], SendOk)) /\
  (r = ConnectOk -> is_unix_url (url (client w)) = true -> conn (client w) = None ->
     forall ce m prm d, exists w2,
       call ce m prm d w1 = Some (w2, [Log LogNotConnected], ErrNotConnected) /\
       pending (client w2) = pending (client w) /\ conn (client w2) = None) /\
  (forall ce w2 l2 r2,
     authenticate ce w1 = Some (w2, l2, r2) ->
     (forall x, conn (client (before_write ce x)) = conn (client x)) ->
     (forall x, conn (client (while_waiting ce x)) = conn (client x)) ->
     (forall x, conn (client (before_unregister ce x)) = conn (client x)) ->
     conn (client w2) = conn (client w1) /\
     (requests l2 = [] \/
      requests l2 = [make_request "user.login"
                       (Some (AuthParams (username (client w1)) (password (client w1))))
                       (wrap64 (reqID (client w1) + 1))])).
Proof.
  intros E. destruct (Connect_cases e w w1 l r E) as (H1 & H2 & H3 & H4 & H5 & H6).
  split_and!; try done.
  - intros -> U m prm. destruct (H5 eq_refl) as (cn & Hd & Hcase). rewrite U in Hcase.
    destruct Hcase as (Hc & _).
    unfold call_begin. cbv zeta. rewrite Hc. cbn [pending set_reqID]. rewrite H3, H2.
    eexists cn, _, _. split; [done|]. split; [reflexivity|]. split; [done|].
    unfold call_send. cbn [client conn set_pending set_reqID]. by rewrite Hc.
  - intros -> U Hn ce m prm d. destruct (H5 eq_refl) as (cn & Hd & Hcase). rewrite U in Hcase.
    destruct Hcase as (_ & Hc & _). rewrite Hn in Hc.
    rewrite (call_not_connected ce m prm d w1 Hc). eexists. split; [done|]. by simpl.
  - intros ce w2 l2 r2 Ea Hm1 Hm2 Hm3. unfold authenticate in Ea.
    destruct (call ce "user.login" _ _ w1) as [[[w' l'] r']|] eqn:Ec; [|done].
    destruct (call_frame _ _ _ _ _ _ _ _ Ec Hm1 Hm2 Hm3) as [Hc Hr].
    assert (Hl : forall m, requests (l' ++ [Log m]) = requests l').
    { intros m. rewrite requests_app. simpl. by rewrite app_nil_r. }
    destruct r'; injection Ea as <- <- <-; rewrite ?Hl; done.
Qed.

Lemma Connect_sends_no_request_witness :
  exists w1 l,
    Connect ws_env {| client := NewRPCClient "wss://irc.example.org:8600/" "panel" "secret";
                      chans := [] |} = (w1, l, ConnectOk) /\
    requests l = [] /\
    conn (client w1) = Some 7%nat /\
    DialWebSocket {| Scheme := "wss"; Host := "irc.example.org:8600"; Path := "/" |}
      "Basic cGFuZWw6c2VjcmV0" ∈ l.
Proof.
  assert (E : exists w1 l,
    Connect ws_env
      {| client := NewRPCClient "wss://irc.example.org:8600/" "panel" "secret"; chans := [] |}
    = (w1, l, ConnectOk) /\ conn (client w1) = Some 7%nat /\
    DialWebSocket {| Scheme := "wss"; Host := "irc.example.org:8600"; Path := "/" |}
      "Basic cGFuZWw6c2VjcmV0" ∈ l).
  { eexists _, _. split_and!; [vm_compute; reflexivity|reflexivity|by left]. }
  destruct E as (w1 & l & E & Hc & Hd).
  destruct (Connect_sends_no_request _ _ _ _ _ E) as (H1 & _).
  exists w1, l. split_and!; [exact E|exact H1|exact Hc|exact Hd].
Defined.

(** *** The request codec *)

Lemma valid_from_coerce s : forall skip, valid_from skip s = true -> coerce_from skip s = s.
Proof.
  induction s as [|a t IH]; intros skip; [done|]. destruct skip as [|k].
  - cbn [valid_from coerce_from]. destruct (rune_width (String a t)); [done|].
    intros H. by rewrite IH.
  - cbn [valid_from coerce_from]. intros H. by rewrite IH.
Qed.

Lemma coerce_valid s : ValidString s = true -> coerce_utf8 s = s.
Proof. apply valid_from_coerce. Qed.

Lemma tail_width_coerce n lo hi t k :
  tail_width n lo hi t = S k -> tail_width n lo hi (coerce_from k t) = S k.
Proof.
  destruct n as [|[|[|[|[|n]]]]]; try done; destruct t as [|b1 t]; try done.
  - cbn. destruct (between lo hi b1) eqn:E; [|done]. intros [= <-]. cbn. by rewrite E.
  - destruct t as [|b2 t]; try done. cbn.
    destruct (between lo hi b1 && between 128 191 b2) eqn:E; [|done].
    intros [= <-]. cbn. by rewrite E.
  - destruct t as [|b2 [|b3 t]]; try done. cbn.
    destruct (between lo hi b1 && between 128 191 b2 && between 128 191 b3) eqn:E; [|done].
    intros [= <-]. cbn. by rewrite E.
Qed.

Lemma rune_width_coerce a t k :
  rune_width (String a t) = S k -> rune_width (String a (coerce_from k t)) = S k.
Proof.
  unfold rune_width.
  repeat match goal with
         | |- context [if ?c then _ else _] => destruct c; try done
         end; apply tail_width_coerce.
Qed.

(** What is written is well-formed UTF-8, whatever the Go string. *)
Lemma coerce_from_valid s : forall skip, valid_from skip (coerce_from skip s) = true.
Proof.
  induction s as [|a t IH]; intros skip; [by destruct skip|]. destruct skip as [|k].
  - cbn [coerce_from]. destruct (rune_width (String a t)) as [|k] eqn:W.
    + change (valid_from 0 (coerce_from 0 t) = true). apply IH.
    + cbn [valid_from]. rewrite (rune_width_coerce _ _ _ W). apply IH.
  - cbn [coerce_from valid_from]. apply IH.
Qed.

Lemma coerce_idemp s : coerce_utf8 (coerce_utf8 s) = coerce_utf8 s.
Proof. apply coerce_valid, coerce_from_valid. Qed.

(** Every integer up to 2^53 in absolute value is a [float64]. *)
Lemma float64_of_int_exact n :
  Z.abs n <= 2 ^ 53 -> float64_of_int n = Some n /\ generic (JNumber n) = true.
Proof.
  intros H. cut (float64_of_int n = Some n).
  { intros E. split; [done|]. cbn. rewrite E. apply Z.eqb_refl. }
  unfold float64_of_int.
  assert (R : round_float64 (Z.abs n) = Z.abs n).
  { destruct (Z.eq_dec (Z.abs n) (2 ^ 53)) as [->|Hne]; [reflexivity|].
    unfold round_float64.
    assert (L : Z.log2 (Z.abs n) < 53).
    { destruct (Z.eq_dec (Z.abs n) 0) as [->|H0]; [done|].
      apply Z.log2_lt_pow2; lia. }
    by rewrite (proj2 (Z.ltb_lt _ _) L). }
  rewrite R.
  assert (B : Z.abs n < 2 ^ 1024).
  { eapply Z.le_lt_trans; [exact H|]. reflexivity. }
  rewrite (proj2 (Z.ltb_lt _ _) B). f_equal. lia.
Qed.

(** Induction on a JSON value, the elements of an array and the members of
    an object included. *)
Lemma json_nested_ind (P : json -> Prop) :
  P JNull -> (forall b, P (JBool b)) -> (forall n, P (JNumber n)) -> (forall s, P (JString s)) ->
  (forall l, Forall P l -> P (JArray l)) ->
  (forall ms, Forall (fun kv => P kv.2) ms -> P (JObject ms)) ->
  forall v, P v.
Proof.
  intros Hnull Hbool Hnum Hstr Harr Hobj. fix IH 1. intros [|b|n|s|l|ms].
  - exact Hnull.
  - apply Hbool.
  - apply Hnum.
  - apply Hstr.
  - apply Harr. induction l as [|x l IHl]; [apply Forall_nil_2|].
    apply Forall_cons_2; [apply IH|exact IHl].
  - apply Hobj. induction ms as [|[k x] ms IHms]; [apply Forall_nil_2|].
    apply Forall_cons_2; [apply IH|exact IHms].
Qed.

Lemma encode_generic v : generic v = true -> encode_value v = v.
Proof.
  induction v as [| | |s|l IH|ms IH] using json_nested_ind; try done.
  - cbn -[coerce_utf8]. intros H. by rewrite coerce_valid.
  - cbn [generic encode_value]. intros H. f_equal.
    induction IH as [|x l Hx _ IHl]; [done|]. cbn in H. apply andb_prop in H as [H1 H2].
    cbn. by rewrite Hx, IHl.
  - cbn [generic encode_value]. intros [_ H]%andb_prop. f_equal.
    induction IH as [|[k x] ms Hx _ IHms]; [done|].
    cbn in H. apply andb_prop in H as [[H1 H2]%andb_prop H3].
    cbn -[coerce_utf8] in *. by rewrite (coerce_valid k), Hx, IHms.
Qed.

Lemma insert_member_last k x m :
  Forall (fun kv => String.ltb kv.1 k = true) m -> insert_member k x m = m ++ [(k, x)].
Proof.
  induction 1 as [|[k' x'] m Hk _ IH]; [done|]. cbn in *.
  unfold String.ltb in Hk. rewrite String.compare_antisym.
  destruct (String.compare k' k); try done. cbn. by rewrite IH.
Qed.

Lemma decode_members_sorted (dec : json -> option json) ms : forall m,
  Forall (fun kv => dec kv.2 = Some kv.2 /\ ValidString kv.1 = true) ms ->
  strictly_sorted ms.*1 = true ->
  Forall (fun kv => Forall (fun kv' => String.ltb kv.1 kv'.1 = true) ms) m ->
  decode_members dec ms m = Some (m ++ ms).
Proof.
  induction ms as [|[k x] ms IH]; intros m Hd Hs Hm; [by rewrite app_nil_r|].
  apply Forall_cons_1 in Hd as [[Hx Hk] Hd]. cbn in Hs. apply andb_prop in Hs as [Hlt Hs].
  cbn -[coerce_utf8] in *. rewrite Hx, (coerce_valid k Hk), insert_member_last.
  - rewrite IH; [by rewrite <- app_assoc|done|done|].
    apply Forall_app_2.
    + eapply Forall_impl; [exact Hm|]. intros kv H. by apply Forall_cons_1 in H as [_ H].
    + apply Forall_cons_2; [|apply Forall_nil_2]. cbn.
      apply Forall_forall. intros kv Hin.
      apply (proj1 (forallb_forall _ _) Hlt). apply list_elem_of_In. by apply list_elem_of_fmap_2.
  - eapply Forall_impl; [exact Hm|]. intros kv H. by apply Forall_cons_1 in H as [H _].
Qed.

Lemma decode_generic v : generic v = true -> decode_value v = Some v.
Proof.
  induction v as [| |n|s|l IH|ms IH] using json_nested_ind; try done.
  - cbn. destruct (float64_of_int n) as [m|]; [|done]. by intros ->%Z.eqb_eq.
  - cbn -[coerce_utf8]. intros H. by rewrite coerce_valid.
  - cbn [generic decode_value]. intros H.
    assert (E : decode_items decode_value l = Some l); [|by rewrite E].
    induction IH as [|x l Hx _ IHl]; [done|]. cbn in H. apply andb_prop in H as [H1 H2].
    cbn. by rewrite Hx, IHl.
  - cbn [generic decode_value]. intros [Hs H]%andb_prop.
    rewrite (decode_members_sorted decode_value ms []); [done| |done|apply Forall_nil_2].
    clear Hs. induction IH as [|[k x] ms Hx _ IHms]; [apply Forall_nil_2|].
    cbn in H. apply andb_prop in H as [[H1 H2]%andb_prop H3].
    apply Forall_cons_2; [split; [by apply Hx|done]|by apply IHms].
Qed.

Lemma set_int64_in_range n old :
  int64_min <= n <= int64_max -> set_int64 (JNumber n) old = Some n.
Proof.
  intros [H1 H2]. unfold set_int64.
  by rewrite (proj2 (Z.leb_le _ _) H1), (proj2 (Z.leb_le _ _) H2).
Qed.

Lemma set_interface_generic v :
  v <> JNull -> generic v = true -> set_interface v = Some (Some v).
Proof. intros Hn Hg. unfold set_interface. rewrite (decode_generic v Hg). by destruct v. Qed.

Lemma unmarshal_member_tags s m v n r :
  unmarshal_member "jsonrpc" (JString s) r
    = Some {| req_JSONRPC := coerce_utf8 s; Method := Method r; Params := Params r;
              req_ID := req_ID r |} /\
  unmarshal_member "method" (JString m) r
    = Some {| req_JSONRPC := req_JSONRPC r; Method := coerce_utf8 m; Params := Params r;
              req_ID := req_ID r |} /\
  unmarshal_member "params" v r
    = (p ← set_interface v;
       Some {| req_JSONRPC := req_JSONRPC r; Method := Method r; Params := p;
               req_ID := req_ID r |}) /\
  unmarshal_member "id" (JNumber n) r
    = (i ← set_int64 (JNumber n) (req_ID r);
       Some {| req_JSONRPC := req_JSONRPC r; Method := Method r; Params := Params r;
               req_ID := i |}).
Proof. by split_and!. Qed.

(** Decoding what [marshal_request] writes. *)
Lemma marshal_request_decodes r :
  representable r -> unmarshal_request (marshal_request r) = Some r.
Proof.
  destruct r as [j m p id]. intros (Hid & Hj & Hm & Hp). cbn in Hid, Hj, Hm, Hp.
  unfold marshal_request, unmarshal_request. cbn [req_JSONRPC Method Params req_ID].
  rewrite (coerce_valid j Hj), (coerce_valid m Hm).
  pose proof (fun r => proj1 (unmarshal_member_tags j m JNull 0 r)) as T1.
  pose proof (fun r => proj1 (proj2 (unmarshal_member_tags j m JNull 0 r))) as T2.
  pose proof (fun v r => proj1 (proj2 (proj2 (unmarshal_member_tags j m v 0 r)))) as T3.
  pose proof (fun r => proj2 (proj2 (proj2 (unmarshal_member_tags j m JNull id r)))) as T4.
  destruct p as [v|].
  - destruct Hp as [Hn Hg]. rewrite (encode_generic v Hg).
    cbn [app unmarshal_members]. rewrite T1. cbn [mbind option_bind]. rewrite T2.
    cbn [mbind option_bind]. rewrite T3, (set_interface_generic v Hn Hg).
    cbn [mbind option_bind]. rewrite T4, set_int64_in_range by done.
    cbn. by rewrite (coerce_valid j Hj), (coerce_valid m Hm).
  - cbn [app unmarshal_members]. rewrite T1. cbn [mbind option_bind]. rewrite T2.
    cbn [mbind option_bind]. rewrite T4, set_int64_in_range by done.
    cbn. by rewrite (coerce_valid j Hj), (coerce_valid m Hm).
Qed.

Lemma marshal_request_present r v :
  representable r -> Params r = Some v ->
  marshal_request r =
    JObject [("jsonrpc"%string, JString (req_JSONRPC r));
             ("method"%string, JString (Method r));
             ("params"%string, v); ("id"%string, JNumber (req_ID r))].
Proof.
  intros (_ & Hj & Hm & Hp) E. unfold marshal_request. rewrite E in *.
  destruct Hp as [_ Hg].
  by rewrite (coerce_valid _ Hj), (coerce_valid _ Hm), (encode_generic v Hg).
Qed.

(** C9. For every representable request (the ID is an [int64], the
    strings are well-formed UTF-8, and the parameters, when present, do
    not encode to null and are a value as a decoder produces it: strings
    in UTF-8, integers that a [float64] holds exactly, the keys of every
    object in increasing order), decoding the JSON object that the struct
    tags of [RPCRequest] produce gives the request back, with its method,
    parameters and ID. The object has the key [params] exactly when the
    parameters are present: absent parameters are left out, not written as
    null, and they decode to absent, whereas an empty object is written
    and decodes to an empty object. *)
Theorem request_codec_roundtrip r :
  representable r ->
  unmarshal_request (marshal_request r) = Some r /\
  (Params r = None ->
     keys (marshal_request r) = ["jsonrpc"; "method"; "id"]%string) /\
  (forall v, Params r = Some v ->
     marshal_request r =
       JObject [("jsonrpc"%string, JString (req_JSONRPC r));
                ("method"%string, JString (Method r));
                ("params"%string, v); ("id"%string, JNumber (req_ID r))]) /\
  unmarshal_request (marshal_request (make_request (Method r) None (req_ID r)))
    = Some (make_request (Method r) None (req_ID r)) /\
  unmarshal_request (marshal_request (make_request (Method r) (Some (JObject [])) (req_ID r)))
    = Some (make_request (Method r) (Some (JObject [])) (req_ID r)).
Proof.
  intros R. pose proof R as (Hid & Hj & Hm & Hp). split_and!.
  - by apply marshal_request_decodes.
  - intros E. unfold marshal_request. by rewrite E.
  - intros v. by apply marshal_request_present.
  - apply marshal_request_decodes.
    split; [exact Hid|]. split; [reflexivity|]. split; [exact Hm|exact I].
  - apply marshal_request_decodes.
    split; [exact Hid|]. split; [reflexivity|]. split; [exact Hm|]. by split.
Qed.

Lemma request_codec_roundtrip_witness :
  unmarshal_request (marshal_request (make_request "channel.kick"
     (Some (JObject [("channel"%string, JString "#ops"); ("nick"%string, JString "bob")])) 7))
  = Some (make_request "channel.kick"
     (Some (JObject [("channel"%string, JString "#ops"); ("nick"%string, JString "bob")])) 7).
Proof.
  refine (proj1 (request_codec_roundtrip _ _)).
  split_and!; [vm_compute; discriminate|vm_compute; discriminate|reflexivity|reflexivity|].
  split; [discriminate|reflexivity].
Defined.

(** Outside the representable requests the codec does not give the
    request back: a byte that starts no UTF-8 sequence is written as
    U+FFFD, an integer that no [float64] holds comes back rounded, an
    object comes back with its keys in order and one member for each key,
    and a decoder takes a key in any case. *)
Lemma codec_coercions :
  marshal_request (make_request (String "255" EmptyString) None 1)
    = JObject [("jsonrpc"%string, JString "2.0");
               ("method"%string,
                JString (String "239" (String "191" (String "189" EmptyString))));
               ("id"%string, JNumber 1)] /\
  unmarshal_request (marshal_request (make_request "m" (Some (JNumber (2 ^ 53 + 1))) 1))
    = Some (make_request "m" (Some (JNumber (2 ^ 53))) 1) /\
  unmarshal_request (marshal_request (make_request "m"
      (Some (JObject [("b"%string, JNumber 1); ("a"%string, JNumber 2);
                      ("b"%string, JNumber 3)])) 1))
    = Some (make_request "m"
        (Some (JObject [("a"%string, JNumber 2); ("b"%string, JNumber 3)])) 1) /\
  unmarshal_request (JObject [("ID"%string, JNumber 5); ("Method"%string, JString "m")])
    = Some {| req_JSONRPC := EmptyString; Method := "m"; Params := None; req_ID := 5 |}.
Proof. by split_and!; vm_compute. Qed.

(** *** The UNIX socket transport *)

Lemma shape_url s s1 l : shape s s1 l -> url (client (world s1)) = url (client (world s)).
Proof. by destruct 1. Qed.

Lemma shape_requests s s1 l :
  shape s s1 l -> conn (client (world s)) = None -> requests l = [].
Proof. destruct 1; intros Hc; eauto. Qed.

Lemma unix_run tr : forall s s1 l,
  wf s -> unix s = true -> run tr s = Stepped s1 l ->
  unix s1 = true /\ requests l = [].
Proof.
  induction tr as [|ev tr IH]; intros s s1 l W U; simpl.
  - by intros [= <- <-].
  - destruct (sys_step ev s) as [s' l'| |] eqn:E; try done.
    destruct (run tr s') as [s'' l''| |] eqn:R; try done. intros [= <- <-].
    pose proof (step_shape _ _ _ _ W E) as Sh.
    assert (U' : unix s' = true) by (unfold unix; by rewrite (shape_url _ _ _ Sh)).
    destruct (IH _ _ _ (wf_step _ _ _ _ W E) U' R) as [U'' Hr].
    split; [done|]. rewrite requests_app, Hr.
    by rewrite (shape_requests _ _ _ Sh (proj1 (wf_unix _ W U))).
Qed.

(** C10. A client whose URL selects the UNIX socket never has a WebSocket
    handle, whatever has happened to it: [Connect] stores the dialed
    handle in [socketConn] only. In every state of such a client, and in
    every state of any client in which [conn] is nil while [socketConn] is
    not, [call] returns the not-connected error at its first check: it
    writes no request, registers nothing (the pending map and the
    channels are as before), and leaves [conn] nil, so that the next
    invocation fares the same; only the counter has moved. No schedule of
    such a client ever writes a request. *)
Theorem socket_client_call_not_connected u n p tr s l :
  is_unix_url u = true ->
  run tr (init_system u n p) = Stepped s l ->
  conn (client (world s)) = None /\ pend s = ∅ /\ requests l = [] /\
  (forall ce w1 l1, Connect ce (world s) = (w1, l1, ConnectOk) ->
     socketConn (client w1) = dialed ce /\ is_Some (dialed ce) /\ conn (client w1) = None) /\
  (forall m prm d,
     sys_step (EvCall m prm d) s =
       Stepped {| world := {| client := set_reqID (wrap64 (counter s + 1)) (client (world s));
                              chans := heap_of s |};
                  callers := callers s ++ [PcDone ErrNotConnected];
                  loops := loops s |} [Log LogNotConnected]) /\
  (forall w cn e m prm d,
     conn (client w) = None -> socketConn (client w) = Some cn ->
     exists w1,
       call e m prm d w = Some (w1, [Log LogNotConnected], ErrNotConnected) /\
       requests [Log LogNotConnected] = [] /\
       pending (client w1) = pending (client w) /\ chans w1 = chans w /\
       conn (client w1) = None /\ socketConn (client w1) = Some cn).
Proof.
  intros U R.
  pose proof (wf_run tr _ _ _ (wf_init u n p) R) as W.
  destruct (unix_run tr _ _ _ (wf_init u n p) U R) as [U' Hr].
  destruct (wf_unix _ W U') as [Hc Hp].
  split_and!; try done.
  - intros ce w1 l1 E. destruct (Connect_cases _ _ _ _ _ E) as (_ & _ & _ & _ & H & _).
    destruct (H eq_refl) as (cn & Hd & Hcase). unfold unix in U'. rewrite U' in Hcase.
    destruct Hcase as (Hs & Hc' & _). rewrite Hd. split_and!; [done|by eexists|congruence].
  - intros m prm d. unfold sys_step, call_begin. by rewrite Hc.
  - intros w cn e m prm d Hcw Hsw. rewrite (call_not_connected e m prm d w Hcw).
    eexists. split; [done|]. by simpl.
Qed.

Lemma socket_client_call_not_connected_witness :
  exists s l,
    run [EvConnect unix_env; EvCall "stats.get" None dA; EvCall "user.list" None dA]
        (init_system "unix" "panel" "secret") = Stepped s l /\
    callers s = [PcDone ErrNotConnected; PcDone ErrNotConnected] /\
    socketConn (client (world s)) = Some 3%nat /\
    conn (client (world s)) = None /\ pend s = ∅ /\ requests l = [].
Proof.
  assert (R : exists s l,
    run [EvConnect unix_env; EvCall "stats.get" None dA; EvCall "user.list" None dA]
        (init_system "unix" "panel" "secret") = Stepped s l /\
    callers s = [PcDone ErrNotConnected; PcDone ErrNotConnected] /\
    socketConn (client (world s)) = Some 3%nat).
  { eexists _, _. split_and!; vm_compute; reflexivity. }
  destruct R as (s & l & R & Hcs & Hs).
  destruct (socket_client_call_not_connected "unix" "panel" "secret" _ s l eq_refl R)
    as (Hc & Hp & Hr & _).
  exists s, l. split_and!; [exact R|exact Hcs|exact Hs|exact Hc|exact Hp|exact Hr].
Defined.

(** * The rest of the client and its callers: properties *)

(** ** [base64Encode] *)

Lemma byte_range_spec x : is_byte x -> x ∈ byte_range.
Proof.
  intros [H0 H1]. unfold byte_range. apply list_elem_of_fmap.
  exists (Z.to_nat x). split; [lia|]. apply elem_of_seq. lia.
Qed.

Lemma all_bytes (P : Z -> bool) :
  forallb P byte_range = true -> forall x, is_byte x -> P x = true.
Proof.
  intros H x Hx. rewrite forallb_forall in H. apply H.
  apply list_elem_of_In. by apply byte_range_spec.
Qed.

Lemma all_bytes2 (P : Z -> Z -> bool) :
  forallb (fun a => forallb (P a) byte_range) byte_range = true ->
  forall a b, is_byte a -> is_byte b -> P a b = true.
Proof.
  intros H a b Ha Hb.
  pose proof (all_bytes _ H a Ha) as H1. by apply (all_bytes _ H1).
Qed.

Lemma bytes_of_bytes s : Forall is_byte (bytes_of s).
Proof.
  unfold bytes_of. apply Forall_forall. intros x Hx.
  apply (proj1 (list_elem_of_fmap _ _ _)) in Hx as [a [-> _]].
  pose proof (N_ascii_bounded a). unfold is_byte. lia.
Qed.

Lemma base64_index_chars_at i :
  0 <= i < 64 -> base64_index (chars_at i) = Some i.
Proof.
  intros Hi.
  assert (H : forallb (fun i => bool_decide (base64_index (chars_at i) = Some i))
                (map Z.of_nat (seq 0 64)) = true) by (vm_compute; reflexivity).
  rewrite forallb_forall in H. eapply bool_decide_eq_true_1, H.
  apply list_elem_of_In, list_elem_of_fmap. exists (Z.to_nat i). split; [lia|].
  apply elem_of_seq. lia.
Qed.

Lemma chars_at_not_pad i : 0 <= i < 64 -> is_pad (chars_at i) = false.
Proof.
  intros Hi.
  assert (H : forallb (fun i => negb (is_pad (chars_at i))) (map Z.of_nat (seq 0 64)) = true)
    by (vm_compute; reflexivity).
  rewrite forallb_forall in H. apply negb_true_iff, H.
  apply list_elem_of_In, list_elem_of_fmap. exists (Z.to_nat i). split; [lia|].
  apply elem_of_seq. lia.
Qed.

(** The four indices that [base64Encode] computes from a group. *)
Lemma sextet_bounds a b :
  is_byte a -> is_byte b ->
  0 <= Z.shiftr a 2 < 64 /\
  0 <= Z.shiftl (Z.land a 3) 4 < 64 /\
  0 <= Z.lor (Z.shiftl (Z.land a 3) 4) (Z.shiftr b 4) < 64 /\
  0 <= Z.shiftl (Z.land b 15) 2 < 64 /\
  0 <= Z.lor (Z.shiftl (Z.land a 15) 2) (Z.shiftr b 6) < 64 /\
  0 <= Z.land b 63 < 64.
Proof.
  intros Ha Hb.
  pose (P := fun a b : Z =>
    let ok x := (0 <=? x) && (x <? 64) in
    ok (Z.shiftr a 2) && ok (Z.shiftl (Z.land a 3) 4) &&
    ok (Z.lor (Z.shiftl (Z.land a 3) 4) (Z.shiftr b 4)) &&
    ok (Z.shiftl (Z.land b 15) 2) &&
    ok (Z.lor (Z.shiftl (Z.land a 15) 2) (Z.shiftr b 6)) && ok (Z.land b 63)).
  assert (H : P a b = true).
  { apply all_bytes2; [vm_compute; reflexivity|done..]. }
  unfold P in H. cbv zeta in H.
  repeat (apply andb_true_iff in H as [H ?]); lia.
Qed.

(** The bytes read back from the indices. *)
Lemma sextet_bytes a b :
  is_byte a -> is_byte b ->
  Z.lor (Z.shiftl (Z.shiftr a 2) 2) (Z.shiftr (Z.shiftl (Z.land a 3) 4) 4) = a /\
  Z.lor (Z.shiftl (Z.shiftr a 2) 2)
        (Z.shiftr (Z.lor (Z.shiftl (Z.land a 3) 4) (Z.shiftr b 4)) 4) = a /\
  Z.land (Z.lor (Z.shiftl (Z.land a 3) 4) (Z.shiftr b 4)) 15 = Z.shiftr b 4 /\
  Z.shiftr (Z.shiftl (Z.land b 15) 2) 2 = Z.land b 15 /\
  Z.shiftr (Z.lor (Z.shiftl (Z.land a 15) 2) (Z.shiftr b 6)) 2 = Z.land a 15 /\
  Z.lor (Z.shiftl (Z.shiftr b 4) 4) (Z.land b 15) = b /\
  Z.lor (Z.shiftl (Z.land (Z.lor (Z.shiftl (Z.land a 15) 2) (Z.shiftr b 6)) 3) 6)
        (Z.land b 63) = b.
Proof.
  intros Ha Hb.
  pose (P := fun a b : Z =>
    (Z.lor (Z.shiftl (Z.shiftr a 2) 2) (Z.shiftr (Z.shiftl (Z.land a 3) 4) 4) =? a) &&
    (Z.lor (Z.shiftl (Z.shiftr a 2) 2)
        (Z.shiftr (Z.lor (Z.shiftl (Z.land a 3) 4) (Z.shiftr b 4)) 4) =? a) &&
    (Z.land (Z.lor (Z.shiftl (Z.land a 3) 4) (Z.shiftr b 4)) 15 =? Z.shiftr b 4) &&
    (Z.shiftr (Z.shiftl (Z.land b 15) 2) 2 =? Z.land b 15) &&
    (Z.shiftr (Z.lor (Z.shiftl (Z.land a 15) 2) (Z.shiftr b 6)) 2 =? Z.land a 15) &&
    (Z.lor (Z.shiftl (Z.shiftr b 4) 4) (Z.land b 15) =? b) &&
    (Z.lor (Z.shiftl (Z.land (Z.lor (Z.shiftl (Z.land a 15) 2) (Z.shiftr b 6)) 3) 6)
        (Z.land b 63) =? b)).
  assert (H : P a b = true).
  { apply all_bytes2; [vm_compute; reflexivity|done..]. }
  unfold P in H.
  repeat (apply andb_true_iff in H as [H ?]).
  repeat match goal with H : (_ =? _) = true |- _ => apply Z.eqb_eq in H end.
  done.
Qed.

Ltac read_back :=
  repeat match goal with
         | H : 0 <= ?i < 64 |- context [base64_index (chars_at ?i)] =>
             rewrite (base64_index_chars_at i H)
         end;
  cbn [mbind option_bind].

Lemma decode_groups n : forall l,
  (length l < n)%nat -> Forall is_byte l -> rfc4648_decode (base64_groups l) = Some l.
Proof.
  induction n as [|n IH]; intros l Hn Hl; [lia|].
  destruct l as [|a [|b [|c rest]]].
  - reflexivity.
  - apply Forall_cons in Hl as [Ha _].
    destruct (sextet_bounds a a Ha Ha) as (B0 & B1 & _).
    destruct (sextet_bytes a a Ha Ha) as (E0 & _).
    cbn [base64_groups rfc4648_decode].
    read_back.
    change (is_pad "=") with true. cbn [andb]. by rewrite E0.
  - apply Forall_cons in Hl as [Ha Hl]. apply Forall_cons in Hl as [Hb _].
    destruct (sextet_bounds a b Ha Hb) as (B0 & _ & B1 & B2 & _).
    destruct (sextet_bytes a b Ha Hb) as (_ & E0 & E1 & E2 & _ & E3 & _).
    cbn [base64_groups rfc4648_decode].
    read_back.
    rewrite (chars_at_not_pad _ B2). cbn [andb].
    read_back.
    change (is_pad "=") with true. cbv iota. by rewrite E0, E1, E2, E3.
  - apply Forall_cons in Hl as [Ha Hl]. apply Forall_cons in Hl as [Hb Hl].
    apply Forall_cons in Hl as [Hc Hl].
    destruct (sextet_bounds a b Ha Hb) as (B0 & _ & B1 & _).
    destruct (sextet_bounds b c Hb Hc) as (_ & _ & _ & _ & B2 & B3).
    destruct (sextet_bytes a b Ha Hb) as (_ & E0 & E1 & _ & _ & E3 & _).
    destruct (sextet_bytes b c Hb Hc) as (_ & _ & _ & _ & E4 & _ & E5).
    cbn [base64_groups rfc4648_decode app].
    read_back.
    rewrite (chars_at_not_pad _ B2). cbn [andb].
    read_back.
    rewrite (chars_at_not_pad _ B3).
    read_back.
    rewrite IH by (simpl in Hn; lia || done). cbn [mbind option_bind].
    by rewrite E0, E1, E4, E3, E5.
Qed.

Lemma bytes_of_inj s1 s2 : bytes_of s1 = bytes_of s2 -> s1 = s2.
Proof.
  unfold bytes_of. intros H.
  rewrite <- (string_of_list_ascii_of_string s1), <- (string_of_list_ascii_of_string s2).
  f_equal. revert H. generalize (list_ascii_of_string s2).
  induction (list_ascii_of_string s1) as [|a l IH]; intros [|b l']; simpl; try done.
  intros [= Hab Hl]. f_equal; [|by apply IH].
  rewrite <- (ascii_N_embedding a), <- (ascii_N_embedding b). f_equal. lia.
Qed.

Lemma base64Encode_decodes_aux s :
  rfc4648_decode (list_ascii_of_string (base64Encode s)) = Some (bytes_of s).
Proof.
  unfold base64Encode. rewrite list_ascii_of_string_of_list_ascii.
  apply (decode_groups (S (length (bytes_of s)))); [lia|apply bytes_of_bytes].
Qed.

Lemma base64Encode_inj s s' : base64Encode s = base64Encode s' -> s = s'.
Proof.
  intros E. apply bytes_of_inj. pose proof (base64Encode_decodes_aux s) as H.
  rewrite E, base64Encode_decodes_aux in H. congruence.
Qed.

(** X1. What [base64Encode] produces is the base64 encoding of its
    argument: decoding it by the rules of RFC 4648 gives the bytes of the
    argument back, for every string, of any length. Hence two different
    strings never have the same encoding. *)
Theorem base64Encode_decodes s :
  rfc4648_decode (list_ascii_of_string (base64Encode s)) = Some (bytes_of s) /\
  forall s', base64Encode s = base64Encode s' -> s = s'.
Proof. split; [apply base64Encode_decodes_aux|apply base64Encode_inj]. Qed.

Lemma chars_at_alphabet i : 0 <= i < 64 -> in_alphabet (chars_at i).
Proof.
  intros Hi.
  assert (H : forallb (fun i => bool_decide (in_alphabet (chars_at i)))
                (map Z.of_nat (seq 0 64)) = true) by (vm_compute; reflexivity).
  rewrite forallb_forall in H. eapply bool_decide_eq_true_1, H.
  apply list_elem_of_In, list_elem_of_fmap. exists (Z.to_nat i). split; [lia|].
  apply elem_of_seq. lia.
Qed.

Lemma groups_shape n : forall l,
  (length l < n)%nat -> Forall is_byte l ->
  exists body,
    base64_groups l = body ++ repeat "="%char ((3 - length l mod 3) mod 3) /\
    Forall in_alphabet body /\
    length (base64_groups l) = (4 * ((length l + 2) / 3))%nat.
Proof.
  induction n as [|n IH]; intros l Hn Hl; [lia|].
  destruct l as [|a [|b [|c rest]]].
  - exists []. done.
  - apply Forall_cons in Hl as [Ha _].
    destruct (sextet_bounds a a Ha Ha) as (B0 & B1 & _).
    eexists [_; _]. split_and!; [reflexivity| |reflexivity].
    repeat (apply Forall_cons_2; [by apply chars_at_alphabet|]). apply Forall_nil_2.
  - apply Forall_cons in Hl as [Ha Hl]. apply Forall_cons in Hl as [Hb _].
    destruct (sextet_bounds a b Ha Hb) as (B0 & _ & B1 & B2 & _).
    eexists [_; _; _]. split_and!; [reflexivity| |reflexivity].
    repeat (apply Forall_cons_2; [by apply chars_at_alphabet|]). apply Forall_nil_2.
  - apply Forall_cons in Hl as [Ha Hl]. apply Forall_cons in Hl as [Hb Hl].
    apply Forall_cons in Hl as [Hc Hl].
    destruct (sextet_bounds a b Ha Hb) as (B0 & _ & B1 & _).
    destruct (sextet_bounds b c Hb Hc) as (_ & _ & _ & _ & B2 & B3).
    destruct (IH rest) as (body & E & Hb' & Hlen); [simpl in Hn; lia|done|].
    cbn [base64_groups]. rewrite E.
    eexists (_ :: _ :: _ :: _ :: body). split_and!.
    + cbn [app length]. do 5 f_equal.
      replace (S (S (S (length rest)))) with (length rest + 1 * 3)%nat by lia.
      by rewrite Nat.Div0.mod_add.
    + repeat (apply Forall_cons_2; [by apply chars_at_alphabet|]). done.
    + rewrite <- E. cbn [app length]. rewrite Hlen.
      replace (S (S (S (length rest))) + 2)%nat with (length rest + 2 + 1 * 3)%nat by lia.
      rewrite Nat.div_add by lia. lia.
Qed.

Lemma bytes_of_length s : length (bytes_of s) = String.length s.
Proof.
  unfold bytes_of. rewrite length_map. induction s as [|a s IH]; simpl; [done|by rewrite IH].
Qed.

(** X2. The output of [base64Encode] has four characters for every
    started group of three input bytes; it consists of characters of the
    alphabet followed by as many [=] as bytes are missing from the last
    group (none, one or two). No index into [chars] is out of range. *)
Theorem base64Encode_shape s :
  String.length (base64Encode s) = (4 * ((String.length s + 2) / 3))%nat /\
  exists body,
    list_ascii_of_string (base64Encode s)
      = body ++ repeat "="%char ((3 - String.length s mod 3) mod 3) /\
    Forall in_alphabet body.
Proof.
  destruct (groups_shape (S (length (bytes_of s))) (bytes_of s)) as (body & E & Hb & Hlen);
    [lia|apply bytes_of_bytes|].
  rewrite bytes_of_length in E, Hlen. unfold base64Encode. split.
  - rewrite <- Hlen. generalize (base64_groups (bytes_of s)).
    induction l as [|a l IH]; simpl; [done|by rewrite IH].
  - exists body. by rewrite list_ascii_of_string_of_list_ascii.
Qed.

(** ** [basicAuth] *)

Lemma list_ascii_of_append s1 s2 :
  list_ascii_of_string (s1 +:+ s2) = list_ascii_of_string s1 ++ list_ascii_of_string s2.
Proof. induction s1 as [|a s1 IH]; simpl; [done|by rewrite IH]. Qed.

Lemma list_ascii_of_string_inj s1 s2 :
  list_ascii_of_string s1 = list_ascii_of_string s2 -> s1 = s2.
Proof.
  intros H. rewrite <- (string_of_list_ascii_of_string s1), <- (string_of_list_ascii_of_string s2).
  by rewrite H.
Qed.

(** Two texts that agree up to and after their first colon. *)
Lemma split_at_colon (u u' p p' : list ascii) :
  ":"%char ∉ u -> ":"%char ∉ u' ->
  u ++ ":"%char :: p = u' ++ ":"%char :: p' -> u = u' /\ p = p'.
Proof.
  revert u'. induction u as [|a u IH]; intros [|a' u'] Hu Hu'; simpl.
  - by intros [= ->].
  - intros [= <- _]. exfalso. apply Hu'. by left.
  - intros [= -> _]. exfalso. apply Hu. by left.
  - intros [= -> E]. destruct (IH u') as [-> ->]; try done.
    + intros H. apply Hu. by right.
    + intros H. apply Hu'. by right.
Qed.

(** X3. The Authorization header that [connectWebSocket] sends is the
    word Basic, a space, and the base64 encoding of the user name, a colon
    and the password: decoding it gives both back. When neither of two
    user names contains a colon, equal headers mean equal user names and
    equal passwords. *)
Theorem authHeader_credentials c c' :
  ":"%char ∉ list_ascii_of_string (username c) ->
  ":"%char ∉ list_ascii_of_string (username c') ->
  (exists b, authHeader c = "Basic " +:+ b /\
     rfc4648_decode (list_ascii_of_string b)
       = Some (bytes_of (username c +:+ ":" +:+ password c))) /\
  (authHeader c = authHeader c' ->
     username c = username c' /\ password c = password c').
Proof.
  intros Hu Hu'. split.
  - exists (basicAuth (username c) (password c)). split; [done|].
    apply base64Encode_decodes_aux.
  - unfold authHeader, basicAuth. intros [= E].
    apply base64Encode_inj, (f_equal list_ascii_of_string) in E.
    rewrite !list_ascii_of_append in E. simpl in E.
    destruct (split_at_colon _ _ _ _ Hu Hu' E) as [E1 E2].
    split; by apply list_ascii_of_string_inj.
Qed.

Lemma authHeader_credentials_witness :
  exists b,
    authHeader (NewRPCClient "wss://irc.example.org:8600/" "panel" "secret") = "Basic " +:+ b /\
    rfc4648_decode (list_ascii_of_string b) = Some (bytes_of "panel:secret").
Proof.
  assert (H : ":"%char ∉ list_ascii_of_string "panel").
  { apply (proj1 (bool_decide_eq_false _)). vm_compute. reflexivity. }
  exact (proj1 (authHeader_credentials
                  (NewRPCClient "wss://irc.example.org:8600/" "panel" "secret")
                  (NewRPCClient "wss://irc.example.org:8600/" "panel" "secret") H H)).
Defined.

(** ** [parseModesString] and [parseModeString] *)

Lemma fields_from_fields s : forall field,
  spaceless field -> Forall is_field (fields_from field s).
Proof.
  induction s as [|a s IH]; intros field Hf; simpl.
  - destruct (decide (field = [])); [apply Forall_nil_2|].
    apply Forall_cons_2; [by split|apply Forall_nil_2].
  - destruct (asciiSpace a) eqn:Ha.
    + destruct (decide (field = [])); [apply IH; apply Forall_nil_2|].
      apply Forall_cons_2; [by split|apply IH; apply Forall_nil_2].
    + apply IH. apply Forall_app. split; [done|].
      apply Forall_cons_2; [done|apply Forall_nil_2].
Qed.

Lemma fields_from_concat s : forall field,
  concat (fields_from field s) = field ++ filter (fun a => asciiSpace a = false) s.
Proof.
  induction s as [|a s IH]; intros field; simpl.
  - rewrite filter_nil. destruct (decide (field = [])) as [->|]; simpl; [done|].
    by rewrite !app_nil_r.
  - rewrite filter_cons. destruct (asciiSpace a) eqn:Ha.
    + rewrite (decide_False (P := true = false)) by done.
      destruct (decide (field = [])) as [->|]; simpl; by rewrite IH.
    + rewrite (decide_True (P := false = false)) by done. rewrite IH. by rewrite <- app_assoc.
Qed.

Lemma fields_from_nil s : forall field,
  fields_from field s = [] <-> field = [] /\ blank s.
Proof.
  unfold blank. induction s as [|a s IH]; intros field; simpl.
  - destruct (decide (field = [])) as [->|Hne]; split.
    + intros _. split; [done|apply Forall_nil_2].
    + done.
    + done.
    + by intros [? _].
  - destruct (asciiSpace a) eqn:Ha.
    + destruct (decide (field = [])) as [->|Hne].
      * rewrite IH. split; intros [_ H]; (split; [done|]).
        -- by apply Forall_cons_2.
        -- by apply Forall_cons in H as [_ H].
      * split; [done|]. by intros [? _].
    + rewrite IH. split.
      * intros [H _]. by destruct field.
      * intros [_ H]. apply Forall_cons in H as [H _]. congruence.
Qed.

Lemma fields_from_field f : forall field sp rest,
  spaceless f -> field ++ f <> [] -> asciiSpace sp = true ->
  fields_from field (f ++ sp :: rest) = (field ++ f) :: Fields rest.
Proof.
  induction f as [|a f IH]; intros field sp rest Hf Hne Hsp; simpl.
  - rewrite Hsp. rewrite app_nil_r in *. by rewrite decide_False.
  - apply Forall_cons in Hf as [Ha Hf]. rewrite Ha.
    rewrite IH; [|done| |done].
    + by rewrite <- app_assoc.
    + rewrite <- app_assoc. by destruct field.
Qed.

Lemma fields_from_last f : forall field,
  spaceless f -> field ++ f <> [] -> fields_from field f = [field ++ f].
Proof.
  induction f as [|a f IH]; intros field Hf Hne; simpl.
  - rewrite app_nil_r in *. by rewrite decide_False.
  - apply Forall_cons in Hf as [Ha Hf]. rewrite Ha.
    rewrite IH; [|done|].
    + by rewrite <- app_assoc.
    + rewrite <- app_assoc. by destruct field.
Qed.

Lemma Fields_blank_prefix lead s : blank lead -> Fields (lead ++ s) = Fields s.
Proof.
  unfold Fields. induction lead as [|a lead IH]; intros H; simpl; [done|].
  apply Forall_cons in H as [Ha H]. rewrite Ha. simpl. by apply IH.
Qed.

Lemma parseModesString_Fields modes : parseModesString modes = Fields modes.
Proof.
  unfold parseModesString. destruct (decide (modes = [])) as [->|]; [done|].
  cbv zeta. destruct (Fields modes); done.
Qed.

(** X4. On a string of ASCII bytes, every element that [parseModesString]
    returns is not empty and contains no white space; the elements, one
    after the other, are the bytes of the argument that are not white
    space, in their order; and the result is empty exactly when the
    argument holds nothing but white space (the empty string included). *)
Theorem parseModesString_fields modes :
  isASCII modes = true ->
  Forall is_field (parseModesString modes) /\
  concat (parseModesString modes) = filter (fun a => asciiSpace a = false) modes /\
  (parseModesString modes = [] <-> blank modes).
Proof.
  intros _. rewrite parseModesString_Fields. unfold Fields. split_and!.
  - apply fields_from_fields. constructor.
  - by rewrite fields_from_concat.
  - rewrite fields_from_nil. split; [by intros [_ H]|done].
Qed.

Lemma parseModesString_fields_witness :
  parseModesString (list_ascii_of_string "ntCHP 50:30d")
    = [list_ascii_of_string "ntCHP"; list_ascii_of_string "50:30d"] /\
  Forall is_field (parseModesString (list_ascii_of_string "ntCHP 50:30d")).
Proof.
  split; [vm_compute; reflexivity|].
  assert (H : isASCII (list_ascii_of_string "ntCHP 50:30d") = true) by (vm_compute; reflexivity).
  exact (proj1 (parseModesString_fields _ H)).
Defined.

Lemma Join_cons f fs sep :
  fs <> [] -> Join (f :: fs) sep = f ++ sep ++ Join fs sep.
Proof. by destruct fs. Qed.

Lemma Fields_Join fs : Forall is_field fs -> Fields (Join fs [" "%char]) = fs.
Proof.
  induction fs as [|f fs IH]; intros H; [done|].
  apply Forall_cons in H as [[Hne Hf] H].
  destruct fs as [|f' fs].
  - simpl. unfold Fields. by rewrite fields_from_last.
  - rewrite Join_cons by done. unfold Fields. cbn [app].
    rewrite fields_from_field; [|done..]. by rewrite IH.
Qed.

(** X5. Splitting undoes joining: for fields that are not empty and hold
    no white space, [parseModesString] applied to the fields joined by
    single spaces returns the fields. White space in front is skipped, and
    splitting what was split and joined again changes nothing. *)
Theorem parseModesString_Join modes fs lead :
  isASCII modes = true -> isASCII (lead ++ Join fs [" "%char]) = true ->
  Forall is_field fs -> blank lead ->
  parseModesString (Join fs [" "%char]) = fs /\
  parseModesString (lead ++ Join fs [" "%char]) = fs /\
  parseModesString (Join (parseModesString modes) [" "%char]) = parseModesString modes.
Proof.
  intros _ _ Hfs Hlead. rewrite !parseModesString_Fields. split_and!.
  - by apply Fields_Join.
  - rewrite Fields_blank_prefix by done. by apply Fields_Join.
  - apply Fields_Join. apply fields_from_fields. constructor.
Qed.

Lemma parseModesString_Join_witness :
  parseModesString (list_ascii_of_string "  ntCHP 50:30d")
    = [list_ascii_of_string "ntCHP"; list_ascii_of_string "50:30d"].
Proof.
  assert (H1 : isASCII (list_ascii_of_string " ntCHP   50:30d ") = true)
    by (vm_compute; reflexivity).
  assert (H2 : isASCII (list_ascii_of_string "  " ++
            Join [list_ascii_of_string "ntCHP"; list_ascii_of_string "50:30d"] [" "%char]) = true)
    by (vm_compute; reflexivity).
  assert (H3 : Forall is_field [list_ascii_of_string "ntCHP"; list_ascii_of_string "50:30d"]).
  { repeat (apply Forall_cons_2; [split; [discriminate|]|]); try apply Forall_nil_2;
      apply Forall_forall; intros a Ha; apply (proj1 (bool_decide_eq_true _));
      revert a Ha; apply Forall_forall, (proj1 (bool_decide_eq_true _)); vm_compute; reflexivity. }
  assert (H4 : blank (list_ascii_of_string "  ")).
  { apply (proj1 (bool_decide_eq_true _)). vm_compute. reflexivity. }
  exact (proj1 (proj2 (parseModesString_Join _ _ _ H1 H2 H3 H4))).
Defined.

(** X6. [parseModeString] of main.go, on ASCII strings: it returns the
    empty string exactly when the argument holds nothing but white space;
    otherwise it returns a plus sign followed by the first field, which is
    also the first element that [parseModesString] of client.go returns.
    Whatever follows the first field (the parameters of the modes) is
    dropped. *)
Theorem parseModeString_first_field modes lead f sp rest :
  isASCII modes = true -> isASCII (lead ++ f ++ sp :: rest) = true ->
  blank lead -> is_field f -> asciiSpace sp = true ->
  parseModeString modes
    = match parseModesString modes with [] => [] | p :: _ => "+"%char :: p end /\
  (parseModeString modes = [] <-> blank modes) /\
  parseModeString (lead ++ f ++ sp :: rest) = "+"%char :: f /\
  parseModeString (lead ++ f) = "+"%char :: f.
Proof.
  intros _ _ Hlead [Hne Hf] Hsp.
  assert (E : forall m, parseModeString m = match Fields m with [] => [] | p :: _ => "+"%char :: p end).
  { intros m. unfold parseModeString. by destruct (decide (m = [])) as [->|]. }
  split_and!.
  - by rewrite E, parseModesString_Fields.
  - rewrite E. unfold Fields. destruct (fields_from [] modes) eqn:F.
    + split; [|done]. intros _. by apply (fields_from_nil modes []).
    + split; [done|]. intros H. assert (F' : fields_from [] modes = []).
      { by apply fields_from_nil. }
      congruence.
  - rewrite E, Fields_blank_prefix by done. unfold Fields.
    by rewrite fields_from_field.
  - rewrite E, Fields_blank_prefix by done. unfold Fields.
    by rewrite fields_from_last.
Qed.

Lemma parseModeString_first_field_witness :
  parseModeString (list_ascii_of_string "ntCHP 50:30d") = list_ascii_of_string "+ntCHP".
Proof.
  assert (H1 : isASCII (list_ascii_of_string "") = true) by reflexivity.
  assert (H2 : isASCII ([] ++ list_ascii_of_string "ntCHP" ++ " "%char :: list_ascii_of_string "50:30d") = true)
    by (vm_compute; reflexivity).
  assert (H3 : blank []) by constructor.
  assert (H4 : is_field (list_ascii_of_string "ntCHP")).
  { split; [discriminate|]. apply (proj1 (bool_decide_eq_true _)). vm_compute. reflexivity. }
  exact (proj1 (proj2 (proj2 (parseModeString_first_field _ [] _ " "%char
           (list_ascii_of_string "50:30d") H1 H2 H3 H4 eq_refl)))).
Defined.

(** ** [matchesSearchQuery] *)

Lemma HasPrefix_spec s : forall p, HasPrefix s p = true <-> exists post, s = p ++ post.
Proof.
  induction s as [|a s IH]; intros [|b p]; simpl.
  - split; [by exists []|done].
  - split; [done|]. by intros [post [=]].
  - split; [by exists (a :: s)|done].
  - rewrite andb_true_iff, IH. split.
    + intros [->%Ascii.eqb_eq [post ->]]. by exists post.
    + intros [post [= -> ->]]. split; [apply Ascii.eqb_refl|by exists post].
Qed.

Lemma Index_unfold s sub :
  Index s sub =
    if HasPrefix s sub then Some 0%nat
    else match s with
         | [] => None
         | _ :: s' => S <$> Index s' sub
         end.
Proof. by destruct s. Qed.

Lemma Index_spec s : forall sub,
  match Index s sub with
  | Some i =>
      (exists pre post, s = pre ++ sub ++ post /\ length pre = i) /\
      (forall pre post, s = pre ++ sub ++ post -> (i <= length pre)%nat)
  | None => forall pre post, s <> pre ++ sub ++ post
  end.
Proof.
  induction s as [|a s IH]; intros sub; rewrite Index_unfold.
  - destruct (HasPrefix [] sub) eqn:P; cbn.
    + apply (proj1 (HasPrefix_spec _ _)) in P as [post E]. split; [|intros; lia].
      by exists [], post.
    + intros pre post E. symmetry in E.
      apply app_eq_nil in E as [-> [-> ->]%app_eq_nil]. done.
  - destruct (HasPrefix (a :: s) sub) eqn:P; cbn.
    + apply (proj1 (HasPrefix_spec _ _)) in P as [post E]. split; [|intros; lia].
      by exists [], post.
    + specialize (IH sub). destruct (Index s sub) as [i|]; simpl.
      * destruct IH as [(pre & post & -> & <-) Hmin]. split.
        -- by exists (a :: pre), post.
        -- intros [|a' pre'] post' E.
           ++ assert (HasPrefix (a :: pre ++ sub ++ post) sub = true); [|congruence].
              apply HasPrefix_spec. by exists post'.
           ++ injection E as <- E. simpl. apply le_n_S. by eapply Hmin.
      * intros [|a' pre'] post' E.
        -- assert (HasPrefix (a :: s) sub = true); [|congruence].
           apply HasPrefix_spec. by exists post'.
        -- injection E as <- E. by eapply IH.
Qed.

Lemma in_order_right ps : forall t y, in_order ps t -> in_order ps (t ++ y).
Proof.
  induction ps as [|p ps IH]; intros t y; simpl; [done|].
  intros (gap & rest & -> & H). exists gap, (rest ++ y). split; [|by apply IH].
  by rewrite <- !app_assoc.
Qed.

Lemma in_order_left ps t x : in_order ps t -> in_order ps (x ++ t).
Proof.
  destruct ps as [|p ps]; simpl; [done|].
  intros (gap & rest & -> & H). exists (x ++ gap), rest. split; [|done].
  by rewrite <- !app_assoc.
Qed.

(** The loop, from a position inside the text: it does not panic, and it
    answers whether the pieces that are not empty occur in order in what
    is left of the text. *)
Lemma match_parts_spec text parts : forall lastIndex,
  (lastIndex <= length text)%nat ->
  exists b, match_parts text parts lastIndex = Some b /\
    (b = true <-> in_order (filter (fun p => p <> []) parts) (drop lastIndex text)).
Proof.
  induction parts as [|part parts IH]; intros li Hli; simpl.
  - by exists true.
  - rewrite filter_cons. destruct (decide (part = [])) as [->|Hne].
    + rewrite decide_False by (by intros H; apply H). by apply IH.
    + rewrite decide_True by done.
      rewrite (proj2 (Nat.leb_le _ _) Hli).
      pose proof (Index_spec (drop li text) part) as HI.
      destruct (Index (drop li text) part) as [i|].
      * destruct HI as [(pre & post & E & Hpre) Hmin].
        assert (Hlen : length (drop li text) = (length pre + (length part + length post))%nat).
        { by rewrite E, !length_app. }
        rewrite length_drop in Hlen.
        assert (Hd : drop (li + (i + length part)) text = post).
        { rewrite <- drop_drop, E, app_assoc, <- Hpre.
          rewrite drop_app_length'; [done|]. by rewrite length_app. }
        destruct (IH (li + (i + length part))%nat) as (b & -> & Hb); [lia|].
        exists b. split; [done|]. rewrite Hb, Hd. simpl. split.
        -- intros H. by exists pre, post.
        -- intros (gap & rest & E' & H).
           pose proof (Hmin _ _ E') as Hle.
           assert (Hpost : post = drop (i + length part) (gap ++ part) ++ rest).
           { rewrite <- Hd, <- drop_drop, E', app_assoc.
             rewrite drop_app_le; [done|]. rewrite length_app. lia. }
           rewrite Hpost. by apply in_order_left.
      * exists false. split; [done|]. split; [done|]. simpl.
        intros (gap & rest & E & _). by apply HI in E.
Qed.

Lemma lower_star a : lower a = "*"%char <-> a = "*"%char.
Proof.
  split; [|by intros ->].
  destruct a as [[] [] [] [] [] [] [] []]; vm_compute; congruence.
Qed.

Lemma ToLower_star q : "*"%char ∈ ToLower q <-> "*"%char ∈ q.
Proof.
  unfold ToLower. rewrite list_elem_of_fmap. split.
  - intros (a & E & Ha). symmetry in E. apply (proj1 (lower_star _)) in E. by subst.
  - intros H. by exists "*"%char.
Qed.

Lemma Contains_char s a : Contains s [a] = true <-> a ∈ s.
Proof.
  unfold Contains. pose proof (Index_spec s [a]) as HI.
  destruct (Index s [a]) as [i|].
  - destruct HI as [(pre & post & -> & _) _]. split; [|done]. intros _.
    rewrite elem_of_app. right. by left.
  - split; [done|]. intros (pre & post & ->)%list_elem_of_split. by destruct (HI pre post).
Qed.

Lemma Contains_spec s sub :
  Contains s sub = true <-> exists pre post, s = pre ++ sub ++ post.
Proof.
  unfold Contains. pose proof (Index_spec s sub) as HI.
  destruct (Index s sub) as [i|].
  - destruct HI as [(pre & post & -> & _) _]. split; [|done]. intros _. by exists pre, post.
  - split; [done|]. intros (pre & post & E). by destruct (HI pre post).
Qed.

Lemma ToLower_nil q : ToLower q = [] <-> q = [].
Proof. by destruct q. Qed.

Lemma lower_lower a : lower (lower a) = lower a.
Proof. destruct a as [[] [] [] [] [] [] [] []]; vm_compute; reflexivity. Qed.

Lemma ToLower_idemp s : ToLower (ToLower s) = ToLower s.
Proof.
  unfold ToLower. rewrite map_map. apply map_ext. intros a. apply lower_lower.
Qed.

Lemma matches_total text query : exists b, matchesSearchQuery text query = Some b.
Proof.
  unfold matchesSearchQuery. destruct (decide (query = [])); [by exists true|].
  cbv zeta. destruct (Contains (ToLower query) ["*"%char]); [|by eexists].
  destruct (match_parts_spec (ToLower text) (Split (ToLower query) "*") 0) as (b & -> & _);
    [lia|by exists b].
Qed.

Lemma matches_wildcard text query :
  "*"%char ∈ query ->
  (matchesSearchQuery text query = Some true <-> in_order (pieces query) (ToLower text)).
Proof.
  intros Hs. unfold matchesSearchQuery, pieces.
  rewrite decide_False by (intros ->; by apply elem_of_nil in Hs).
  cbv zeta. rewrite (proj2 (Contains_char _ _) (proj2 (ToLower_star _) Hs)).
  destruct (match_parts_spec (ToLower text) (Split (ToLower query) "*") 0) as (b & -> & Hb);
    [lia|].
  rewrite drop_0 in Hb. rewrite <- Hb. split; congruence.
Qed.

Lemma matches_plain text query :
  query <> [] -> "*"%char ∉ query ->
  (matchesSearchQuery text query = Some true <->
   exists pre post, ToLower text = pre ++ ToLower query ++ post).
Proof.
  intros Hne Hs. unfold matchesSearchQuery. rewrite decide_False by done. cbv zeta.
  destruct (Contains (ToLower query) ["*"%char]) eqn:C.
  - apply (proj1 (Contains_char _ _)) in C. by apply (proj1 (ToLower_star _)) in C.
  - rewrite <- Contains_spec. split; congruence.
Qed.

(** X7. [matchesSearchQuery] does not panic: the slice
    [text[lastIndex:]] is always within the text, whatever the text and
    the query, and the function returns an answer. The empty query matches
    every text. The answer does not depend on the case of ASCII letters,
    neither in the text nor in the query. *)
Theorem matchesSearchQuery_total text query text' query' :
  isASCII text = true -> isASCII query = true ->
  isASCII text' = true -> isASCII query' = true ->
  (exists b, matchesSearchQuery text query = Some b) /\
  matchesSearchQuery text [] = Some true /\
  (ToLower text = ToLower text' -> ToLower query = ToLower query' ->
   matchesSearchQuery text query = matchesSearchQuery text' query').
Proof.
  intros _ _ _ _. split_and!; [apply matches_total|done|].
  intros Et Eq. unfold matchesSearchQuery.
  destruct (decide (query = [])) as [->|Hq].
  - symmetry in Eq. apply ToLower_nil in Eq as ->. done.
  - rewrite decide_False; [by rewrite Et, Eq|].
    intros ->. by apply Hq, ToLower_nil.
Qed.

Lemma matchesSearchQuery_total_witness :
  matchesSearchQuery (list_ascii_of_string "Guest0") (list_ascii_of_string "GUEST")
    = matchesSearchQuery (list_ascii_of_string "guest0") (list_ascii_of_string "guest") /\
  matchesSearchQuery (list_ascii_of_string "guest0") (list_ascii_of_string "guest") = Some true.
Proof.
  split; [|vm_compute; reflexivity].
  refine (proj2 (proj2 (matchesSearchQuery_total (list_ascii_of_string "Guest0")
    (list_ascii_of_string "GUEST") (list_ascii_of_string "guest0")
    (list_ascii_of_string "guest") _ _ _ _)) _ _); vm_compute; reflexivity.
Defined.

(** X8. For a query of ASCII bytes that is not empty and holds no
    asterisk, [matchesSearchQuery] answers true exactly when the query,
    in lower case, occurs somewhere in the text, in lower case: a partial
    match anywhere in the text, not a comparison of the whole text. *)
Theorem matchesSearchQuery_substring text query :
  isASCII text = true -> isASCII query = true ->
  query <> [] -> "*"%char ∉ query ->
  (matchesSearchQuery text query = Some true <->
   exists pre post, ToLower text = pre ++ ToLower query ++ post) /\
  (matchesSearchQuery text query = Some false <->
   forall pre post, ToLower text <> pre ++ ToLower query ++ post).
Proof.
  intros _ _ Hne Hs. pose proof (matches_plain text query Hne Hs) as H.
  split; [done|]. destruct (matches_total text query) as [[] E].
  - split; [congruence|]. intros Hno. apply H in E as (pre & post & E). by apply Hno in E.
  - split; [|done]. intros _ pre post E'.
    assert (matchesSearchQuery text query = Some true) by (apply H; eauto). congruence.
Qed.

Lemma matchesSearchQuery_substring_witness :
  matchesSearchQuery (list_ascii_of_string "#General") (list_ascii_of_string "gen") = Some true.
Proof.
  assert (H1 : list_ascii_of_string "gen" <> []) by discriminate.
  assert (H2 : "*"%char ∉ list_ascii_of_string "gen").
  { apply (proj1 (bool_decide_eq_false _)). vm_compute. reflexivity. }
  apply (proj1 (matchesSearchQuery_substring (list_ascii_of_string "#General")
                  (list_ascii_of_string "gen") eq_refl eq_refl H1 H2)).
  exists [lower "#"%char], (list_ascii_of_string "eral"). vm_compute. reflexivity.
Defined.

Lemma Split_stars q : (forall a, a ∈ q -> a = "*"%char) -> Forall (fun p => p = []) (Split q "*").
Proof.
  induction q as [|a q IH]; intros H; simpl.
  - by apply Forall_cons_2.
  - rewrite (H a) by (by left). simpl.
    apply Forall_cons_2; [done|]. apply IH. intros b Hb. apply H. by right.
Qed.

(** X9. For a query that holds an asterisk, [matchesSearchQuery] answers
    true exactly when the pieces of the query between the asterisks (in
    lower case, empty pieces left out) occur in the text (in lower case)
    one after the other without overlap, with anything before, between
    and after them. A query made of asterisks only matches every text. *)
Theorem matchesSearchQuery_wildcard text query :
  isASCII text = true -> isASCII query = true ->
  "*"%char ∈ query ->
  (matchesSearchQuery text query = Some true <-> in_order (pieces query) (ToLower text)) /\
  (matchesSearchQuery text query = Some false <-> ~ in_order (pieces query) (ToLower text)) /\
  ((forall a, a ∈ query -> a = "*"%char) -> matchesSearchQuery text query = Some true).
Proof.
  intros _ _ Hs. pose proof (matches_wildcard text query Hs) as H. split_and!.
  - done.
  - destruct (matches_total text query) as [[] E].
    + split; [congruence|]. intros Hno. by apply H in E.
    + split; [|done]. intros _ Hin. apply H in Hin. congruence.
  - intros Hall. apply H. unfold pieces.
    assert (Hq : forall a, a ∈ ToLower query -> a = "*"%char).
    { intros a (b & -> & Hb)%list_elem_of_fmap. rewrite (Hall b Hb). reflexivity. }
    apply Split_stars in Hq. revert Hq. generalize (Split (ToLower query) "*").
    induction l as [|p l IH]; intros Hl; [done|].
    apply Forall_cons in Hl as [-> Hl]. rewrite filter_cons.
    rewrite decide_False by (by intros Hp; apply Hp). by apply IH.
Qed.

Lemma matchesSearchQuery_wildcard_witness :
  matchesSearchQuery (list_ascii_of_string "irc.Valware.uk") (list_ascii_of_string "IRC*.uk")
    = Some true /\
  matchesSearchQuery (list_ascii_of_string "irc.Valware.uk") (list_ascii_of_string "uk*irc")
    = Some false.
Proof.
  split; [|vm_compute; reflexivity].
  assert (H1 : "*"%char ∈ list_ascii_of_string "IRC*.uk").
  { apply (proj1 (bool_decide_eq_true _)). vm_compute. reflexivity. }
  apply (proj1 (matchesSearchQuery_wildcard (list_ascii_of_string "irc.Valware.uk")
                  (list_ascii_of_string "IRC*.uk") eq_refl eq_refl H1)).
  exists [], (list_ascii_of_string ".valware.uk"). split; [vm_compute; reflexivity|].
  exists (list_ascii_of_string ".valware"), []. split; [vm_compute; reflexivity|]. exact I.
Defined.

Lemma ToLower_app s1 s2 : ToLower (s1 ++ s2) = ToLower s1 ++ ToLower s2.
Proof. apply map_app. Qed.

(** X10. The match is not anchored: a query that matches a text matches
    every text that contains it, whatever is put in front of it and after
    it. In particular a query without asterisk is not compared with the
    whole text, and a query such as [a*] is not a test for a prefix. *)
Theorem matchesSearchQuery_unanchored text query front back :
  isASCII text = true -> isASCII query = true ->
  isASCII front = true -> isASCII back = true ->
  matchesSearchQuery text query = Some true ->
  matchesSearchQuery (front ++ text ++ back) query = Some true.
Proof.
  intros _ _ _ _ H.
  destruct (decide (query = [])) as [->|Hne]; [done|].
  destruct (decide ("*"%char ∈ query)) as [Hs|Hs].
  - apply matches_wildcard; [done|]. apply (matches_wildcard _ _ Hs) in H.
    rewrite !ToLower_app. by apply in_order_left, in_order_right.
  - apply matches_plain; [done..|]. apply (matches_plain _ _ Hne Hs) in H as (pre & post & E).
    exists (ToLower front ++ pre), (post ++ ToLower back).
    rewrite !ToLower_app, E. by rewrite <- !app_assoc.
Qed.

Lemma matchesSearchQuery_unanchored_witness :
  matchesSearchQuery (list_ascii_of_string "xx-ab-yy") (list_ascii_of_string "a*") = Some true.
Proof.
  refine (matchesSearchQuery_unanchored (list_ascii_of_string "ab") (list_ascii_of_string "a*")
            (list_ascii_of_string "xx-") (list_ascii_of_string "-yy") _ _ _ _ _);
    vm_compute; reflexivity.
Defined.

(** ** The guards of the HTTP routes *)

Lemma role_loop_spec role allowedRoles :
  role_loop role allowedRoles = true <->
  allowedRoles <> [] /\ (role = "admin"%string \/ role ∈ allowedRoles).
Proof.
  induction allowedRoles as [|a rest IH]; simpl.
  - split; [done|]. by intros [? _].
  - destruct (String.eqb_spec role a) as [->|Hne]; simpl.
    + split; [|done]. intros _. split; [done|]. right. by left.
    + destruct (String.eqb_spec role "admin") as [->|Hna].
      * split; [|done]. intros _. split; [done|]. by left.
      * rewrite IH. split.
        -- intros [_ [?|?]]; [done|]. split; [done|]. right. by right.
        -- intros [_ [?|[?|?]%elem_of_cons]]; try done.
           split; [|by right]. intros ->. by apply elem_of_nil in H.
Qed.

Lemma requireRole_cases allowedRoles ctx :
  let role := (getUserFromContext ctx).2 in
  let ok := allowedRoles <> [] /\ (role = "admin"%string \/ role ∈ allowedRoles) in
  (ok /\ requireRole allowedRoles ctx = Next ctx) \/
  (~ ok /\ requireRole allowedRoles ctx = HttpError 403 "Insufficient permissions").
Proof.
  cbv zeta. unfold requireRole.
  destruct (getUserFromContext ctx) as [[uid name] role]. simpl.
  pose proof (role_loop_spec role allowedRoles) as H.
  destruct (role_loop role allowedRoles).
  - left. split; [by apply H|done].
  - right. split; [|done]. intros Hok. by apply H in Hok.
Qed.

(** X11. [requireRole] passes a request on exactly when the list of
    allowed roles is not empty and the role in the context is admin or is
    in the list; otherwise it answers 403. With an empty list every
    request is refused, the one of an admin included; a context without a
    role is refused unless the empty string is an allowed role. The
    context is passed on unchanged. *)
Theorem requireRole_spec allowedRoles ctx :
  let role := (getUserFromContext ctx).2 in
  (requireRole allowedRoles ctx = Next ctx <->
   allowedRoles <> [] /\ (role = "admin"%string \/ role ∈ allowedRoles)) /\
  (requireRole allowedRoles ctx = HttpError 403 "Insufficient permissions" <->
   ~ (allowedRoles <> [] /\ (role = "admin"%string \/ role ∈ allowedRoles))) /\
  requireRole [] ctx = HttpError 403 "Insufficient permissions" /\
  (ctx !! "role"%string = None -> ""%string ∉ allowedRoles ->
   requireRole allowedRoles ctx = HttpError 403 "Insufficient permissions").
Proof.
  cbv zeta. split_and!.
  - destruct (requireRole_cases allowedRoles ctx) as [[Hok ->]|[Hno ->]]; split; done.
  - destruct (requireRole_cases allowedRoles ctx) as [[Hok ->]|[Hno ->]]; split; done.
  - destruct (requireRole_cases [] ctx) as [[[Hok _] _]|[_ ->]]; done.
  - intros Hr Hne.
    destruct (requireRole_cases allowedRoles ctx) as [[[_ Hok] _]|[_ ->]]; [|done].
    unfold getUserFromContext in Hok. rewrite Hr in Hok. simpl in Hok.
    by destruct Hok.
Qed.

Lemma substring_all s : substring 0 (String.length s) s = s.
Proof. induction s as [|a s IH]; simpl; [done|by rewrite IH]. Qed.

Lemma prefix_split p : forall s,
  String.prefix p s = true ->
  s = p +:+ substring (String.length p) (String.length s - String.length p) s.
Proof.
  induction p as [|a p IH]; intros s H; simpl.
  - by rewrite Nat.sub_0_r, substring_all.
  - destruct s as [|b s]; simpl in H; [done|].
    destruct (ascii_dec a b) as [->|]; [|done].
    change (String b s = String b (p +:+ substring (String.length p)
              (String.length s - String.length p) s)). f_equal. by apply IH.
Qed.

Lemma prefix_append p t :
  String.prefix p (p +:+ t) = true /\
  substring (String.length p) (String.length (p +:+ t) - String.length p) (p +:+ t) = t.
Proof.
  induction p as [|a p [IH1 IH2]].
  - change (""%string +:+ t) with t. simpl. split; [by destruct t|].
    by rewrite Nat.sub_0_r, substring_all.
  - change (String a p +:+ t) with (String a (p +:+ t)). simpl.
    destruct (ascii_dec a a); [|done]. done.
Qed.

(** X12. A request reaches the handler of a route guarded by
    [authMiddleware] and [requireRole] exactly when its Authorization
    header is the word Bearer, a space and a token that [validateJWT]
    accepts, the list of allowed roles is not empty, and the role in the
    claims of the token is admin or in the list. The handler then finds
    the user ID, the user name and the role of the claims in the context.
    Without such a token the answer is 401, with one whose role does not
    suffice it is 403. *)
Theorem guarded_spec validateJWT allowedRoles authHeader ctx :
  (forall ctx', guarded validateJWT allowedRoles authHeader ctx = Next ctx' <->
     exists token claims,
       authHeader = bearerPrefix +:+ token /\ validateJWT token = Some claims /\
       allowedRoles <> [] /\
       (claims_Role claims = "admin"%string \/ claims_Role claims ∈ allowedRoles) /\
       ctx' = <["role"%string := CtxString (claims_Role claims)]>
                (<["username"%string := CtxString (claims_Username claims)]>
                  (<["user_id"%string := CtxInt (claims_UserID claims)]> ctx))) /\
  (forall ctx', guarded validateJWT allowedRoles authHeader ctx = Next ctx' ->
     exists token claims,
       authHeader = bearerPrefix +:+ token /\ validateJWT token = Some claims /\
       getUserFromContext ctx'
         = (claims_UserID claims, claims_Username claims, claims_Role claims)) /\
  (forall status body, guarded validateJWT allowedRoles authHeader ctx = HttpError status body ->
     (status = 401 /\
      ~ exists token claims, authHeader = bearerPrefix +:+ token /\
                             validateJWT token = Some claims) \/
     (status = 403 /\
      exists token claims, authHeader = bearerPrefix +:+ token /\
        validateJWT token = Some claims /\
        ~ (allowedRoles <> [] /\
           (claims_Role claims = "admin"%string \/ claims_Role claims ∈ allowedRoles)))).
Proof.
  assert (Hinj : forall t t', bearerPrefix +:+ t = bearerPrefix +:+ t' -> t = t').
  { intros t t' E. by injection E. }
  unfold guarded, authMiddleware.
  destruct (String.eqb_spec authHeader "") as [->|Hne]; cbv beta iota.
  { split_and!.
    - intros ctx'. split; [done|]. by intros (token & claims & E & _).
    - done.
    - intros status body [= <- <-]. left. split; [done|]. by intros (token & claims & E & _). }
  destruct (String.prefix bearerPrefix authHeader) eqn:P; cbn [negb]; cbv beta iota zeta.
  2:{ assert (Hno : forall token, authHeader <> bearerPrefix +:+ token).
      { intros token ->. by rewrite (proj1 (prefix_append bearerPrefix token)) in P. }
      split_and!.
      - intros ctx'. split; [done|]. intros (token & claims & E & _). by apply Hno in E.
      - done.
      - intros status body [= <- <-]. left. split; [done|].
        intros (token & claims & E & _). by apply Hno in E. }
  apply prefix_split in P.
  set (tok := substring (String.length bearerPrefix)
                (String.length authHeader - String.length bearerPrefix) authHeader) in *.
  destruct (validateJWT tok) as [claims|] eqn:V; cbv beta iota.
  2:{ split_and!.
      - intros ctx'. split; [done|]. intros (token & cl & E & V' & _).
        rewrite E in P. apply Hinj in P. congruence.
      - done.
      - intros status body [= <- <-]. left. split; [done|].
        intros (token & cl & E & V').
        rewrite E in P. apply Hinj in P. congruence. }
  set (ctx1 := <["role"%string := _]> _).
  assert (G : getUserFromContext ctx1
              = (claims_UserID claims, claims_Username claims, claims_Role claims)).
  { assert (H1 : ctx1 !! "user_id"%string = Some (CtxInt (claims_UserID claims)))
      by (unfold ctx1; by simplify_map_eq).
    assert (H2 : ctx1 !! "username"%string = Some (CtxString (claims_Username claims)))
      by (unfold ctx1; by simplify_map_eq).
    assert (H3 : ctx1 !! "role"%string = Some (CtxString (claims_Role claims)))
      by (unfold ctx1; by simplify_map_eq).
    unfold getUserFromContext. by rewrite H1, H2, H3. }
  pose proof (requireRole_cases allowedRoles ctx1) as R. rewrite G in R. simpl in R.
  destruct R as [[Hok ->]|[Hno ->]]; split_and!.
  - intros ctx'. split.
    + intros [= <-]. exists tok, claims. by destruct Hok.
    + intros (token & cl & E & V' & _ & _ & ->).
      rewrite E in P. apply Hinj in P. subst token. rewrite V in V'. by injection V' as <-.
  - intros ctx' [= <-]. by exists tok, claims.
  - done.
  - intros ctx'. split; [done|]. intros (token & cl & E & V' & Hne' & Hrole & _).
    rewrite E in P. apply Hinj in P. subst token. rewrite V in V'. injection V' as <-.
    by destruct Hno.
  - done.
  - intros status body [= <- <-]. right. split; [done|]. by exists tok, claims.
Qed.

(** ** Configuration and start-up *)

Lemma ParseBool_false s :
  ParseBool s = Some false <-> s ∈ ["0"; "f"; "F"; "FALSE"; "false"; "False"]%string.
Proof.
  unfold ParseBool.
  destruct (existsb (String.eqb s) ["1"; "t"; "T"; "TRUE"; "true"; "True"]%string) eqn:T.
  - split; [done|]. intros H. exfalso.
    apply existsb_exists in T as (x & Hx & ->%String.eqb_eq).
    apply list_elem_of_In in Hx. revert H Hx.
    rewrite !elem_of_cons, !elem_of_nil. intros H Hx.
    destruct H as [E|[E|[E|[E|[E|[E|[]]]]]]]; rewrite E in Hx;
    destruct Hx as [?|[?|[?|[?|[?|[?|[]]]]]]]; done.
  - destruct (existsb (String.eqb s) ["0"; "f"; "F"; "FALSE"; "false"; "False"]%string) eqn:F.
    + split; [|done]. intros _.
      apply existsb_exists in F as (x & Hx & ->%String.eqb_eq). by apply list_elem_of_In.
    + split; [done|]. intros H. apply list_elem_of_In in H.
      assert (existsb (String.eqb s) ["0"; "f"; "F"; "FALSE"; "false"; "False"]%string = true);
        [|congruence].
      apply existsb_exists. exists s. split; [done|apply String.eqb_refl].
Qed.

Lemma getEnv_nonempty env key d : d <> ""%string -> getEnv env key d <> ""%string.
Proof.
  intros Hd. unfold getEnv. cbv zeta.
  destruct (String.eqb_spec (Getenv env key) ""); simpl; done.
Qed.

Lemma getEnv_value env key d :
  getEnv env key d = if decide (Getenv env key = ""%string) then d else Getenv env key.
Proof.
  unfold getEnv. cbv zeta.
  destruct (String.eqb_spec (Getenv env key) ""); simpl;
    [by rewrite decide_True|by rewrite decide_False].
Qed.

(** X13. The configuration that [loadConfig] reads from the environment:
    a variable that is not set, or set to the empty string, gives the
    default, so the port and the JWT secret are never empty. Mock data is
    switched off only by one of the six spellings of false that
    [strconv.ParseBool] knows; a variable that is not set, is empty, or
    holds anything else leaves it on. With an empty environment the
    server listens on 8080 with mock data. *)
Theorem loadConfig_defaults env :
  Port (loadConfig env) <> ""%string /\
  JWTSecret (loadConfig env) <> ""%string /\
  (UseMockData (loadConfig env) = false <->
   Getenv env "USE_MOCK_DATA" ∈ ["0"; "f"; "F"; "FALSE"; "false"; "False"]%string) /\
  (forall key v, env !! key = Some v -> v <> ""%string ->
     forall d, getEnv env key d = v) /\
  (forall key, (env !! key = None \/ env !! key = Some ""%string) ->
     forall d, getEnv env key d = d) /\
  loadConfig ∅ = {| Port := "8080"; UnrealRPCURL := ""; UnrealRPCUsername := "";
                    UnrealRPCPassword := ""; UseMockData := true;
                    JWTSecret := "default-secret-change-me" |}.
Proof.
  split_and!.
  - by apply getEnv_nonempty.
  - by apply getEnv_nonempty.
  - simpl. unfold getEnvBool. cbv zeta. rewrite <- ParseBool_false.
    destruct (String.eqb_spec (Getenv env "USE_MOCK_DATA") "") as [->|Hne]; simpl; [done|].
    destruct (ParseBool (Getenv env "USE_MOCK_DATA")) as [[]|]; split; congruence.
  - intros key v Hv Hne d. rewrite getEnv_value. unfold Getenv. rewrite Hv.
    destruct (decide _) as [E|]; [|done]. by simpl in E.
  - intros key Hk d. rewrite getEnv_value. unfold Getenv.
    destruct Hk as [-> | ->]; destruct (decide _) as [|E]; try done; by simpl in E.
  - reflexivity.
Qed.

(** ** The operations of the client *)

Lemma call_outcome e m p d w w1 l r :
  call e m p d w = Some (w1, l, r) ->
  (requests l = [] \/ requests l = [make_request m p (wrap64 (reqID (client w) + 1))]) /\
  (conn (client w) = None -> r = ErrNotConnected /\ l = [Log LogNotConnected] /\
     w1 = {| client := set_reqID (wrap64 (reqID (client w) + 1)) (client w);
             chans := chans w |}) /\
  (r = ErrNotConnected -> conn (client w) = None) /\
  (forall raw, r = CallOk (Some raw) -> exists valid, d = Some valid /\ valid raw = true).
Proof.
  unfold call, call_begin, call_send, call_wait. intros E.
  destruct (conn (client w)) as [cn|] eqn:C; cbv zeta in E; cbn iota beta in E.
  2:{ injection E as <- <- <-. simpl. split_and!; try done. by left. }
  assert (Hfin : forall v lf rf, call_finish d v = (lf, rf) ->
    requests lf = [] /\ rf <> ErrNotConnected /\
    forall raw, rf = CallOk (Some raw) -> exists valid, d = Some valid /\ valid raw = true).
  { intros v lf rf F. destruct (call_finish_quiet d v) as [_ Hq]. rewrite F in Hq.
    split; [done|]. unfold call_finish in F.
    destruct v as [resp|]; [|by injection F as <- <-].
    destruct (Error resp); [by injection F as <- <-|].
    destruct d as [valid|]; [|by injection F as <- <-].
    destruct (Result resp) as [raw'|]; [|by injection F as <- <-].
    destruct (valid raw') eqn:V; injection F as <- <-; split; try done.
    intros raw [= ->]. by exists valid. }
  destruct (conn (client (before_write e _))) as [cn'|].
  2:{ injection E as <- <- <-. simpl. split_and!; try done. by left. }
  destruct (write_err e).
  { injection E as <- <- <-. simpl. split_and!; try done. by right. }
  destruct (case_ready _ _ _ _); [|done].
  destruct (pick e).
  - destruct (chan_recv _ _) as [[v h]| |]; try done.
    destruct (call_finish d v) as [lf rf] eqn:F.
    destruct (Hfin v lf rf F) as (Hq & Hn & Hv).
    injection E as <- <- <-. split_and!; try done.
    right. simpl. change (omap _ lf) with (requests lf). by rewrite Hq.
  - injection E as <- <- <-. simpl. split_and!; try done. by right.
  - injection E as <- <- <-. simpl. split_and!; try done. by right.
Qed.

Lemma coerce_fixed s : coerce_utf8 s = s <-> ValidString s = true.
Proof.
  split; [|apply coerce_valid]. intros E. rewrite <- E. apply coerce_from_valid.
Qed.

Lemma wrapped_request_decodes m p id :
  ValidString m = true -> p <> JNull -> generic p = true ->
  unmarshal_request (marshal_request (make_request m (Some p) (wrap64 id)))
    = Some (make_request m (Some p) (wrap64 id)) /\
  marshal_request (make_request m (Some p) (wrap64 id))
    = JObject [("jsonrpc"%string, JString "2.0"); ("method"%string, JString m);
               ("params"%string, p); ("id"%string, JNumber (wrap64 id))].
Proof.
  intros Hm Hp Hg.
  assert (R : representable (make_request m (Some p) (wrap64 id))).
  { split; [apply wrap64_range|]. split; [reflexivity|]. by split. }
  split; [by apply marshal_request_decodes|].
  by apply marshal_request_present.
Qed.

(** The object that [marshal_string_map] gives for a map given by its
    insertions: the entries are sorted with the values left symbolic. *)
Ltac string_map_form H :=
  unfold marshal_string_map in H;
  match type of H with
  | context [sort_keys (map_to_list ?m)] =>
      let l := eval vm_compute in (sort_keys (map_to_list m)) in
      replace (sort_keys (map_to_list m)) with l in H by (vm_compute; reflexivity)
  end;
  cbn [fmap list_fmap fst snd] in H;
  repeat match type of H with
         | context [coerce_utf8 (String ?a ?s)] =>
             let k := eval compute in (coerce_utf8 (String a s)) in
             change (coerce_utf8 (String a s)) with k in H
         end.

Ltac written_generic :=
  cbn -[coerce_utf8 ValidString String.ltb]; rewrite ?andb_true_iff;
  split_and!; try reflexivity; apply coerce_from_valid.

(** X14. The requests of the moderation and logging operations. Each of
    [KickUser], [BanUser] and [SendLog] writes at most one request. The
    request has the method of the operation ([channel.kick],
    [channel.ban_add], [log.send]), the next ID of the client, and as
    parameters the JSON form of the map of the arguments: an object with
    the keys of the map in sorted order, each holding its argument coerced
    to UTF-8, that is with U+FFFD in place of every byte that starts no
    well-formed sequence. The object is written as it is, and decoding
    what is written gives it back under the method and the ID. It holds
    the arguments themselves exactly when all of them are well-formed
    UTF-8. *)
Theorem moderation_requests e w :
  let id := wrap64 (reqID (client w) + 1) in
  let written m p :=
    JObject [("jsonrpc"%string, JString "2.0"); ("method"%string, JString m);
             ("params"%string, p); ("id"%string, JNumber id)] in
  (forall channel nick reason w1 l r,
     KickUser e channel nick reason w = Some (w1, l, r) ->
     let p := JObject [("channel"%string, JString (coerce_utf8 channel));
                       ("nick"%string, JString (coerce_utf8 nick));
                       ("reason"%string, JString (coerce_utf8 reason))] in
     let req := make_request "channel.kick" (Some p) id in
     (requests l = [] \/ requests l = [req]) /\
     marshal_request req = written "channel.kick"%string p /\
     unmarshal_request (marshal_request req) = Some req /\
     (p = JObject [("channel"%string, JString channel); ("nick"%string, JString nick);
                   ("reason"%string, JString reason)]
      <-> ValidString channel = true /\ ValidString nick = true /\
          ValidString reason = true)) /\
  (forall channel mask reason w1 l r,
     BanUser e channel mask reason w = Some (w1, l, r) ->
     let p := JObject [("channel"%string, JString (coerce_utf8 channel));
                       ("mask"%string, JString (coerce_utf8 mask));
                       ("reason"%string, JString (coerce_utf8 reason))] in
     let req := make_request "channel.ban_add" (Some p) id in
     (requests l = [] \/ requests l = [req]) /\
     marshal_request req = written "channel.ban_add"%string p /\
     unmarshal_request (marshal_request req) = Some req /\
     (p = JObject [("channel"%string, JString channel); ("mask"%string, JString mask);
                   ("reason"%string, JString reason)]
      <-> ValidString channel = true /\ ValidString mask = true /\
          ValidString reason = true)) /\
  (forall message level subsystem eventID w1 l r,
     SendLog e message level subsystem eventID w = Some (w1, l, r) ->
     let p := JObject [("event_id"%string, JString (coerce_utf8 eventID));
                       ("level"%string, JString (coerce_utf8 level));
                       ("msg"%string, JString (coerce_utf8 message));
                       ("subsystem"%string, JString (coerce_utf8 subsystem))] in
     let req := make_request "log.send" (Some p) id in
     (requests l = [] \/ requests l = [req]) /\
     marshal_request req = written "log.send"%string p /\
     unmarshal_request (marshal_request req) = Some req /\
     (p = JObject [("event_id"%string, JString eventID); ("level"%string, JString level);
                   ("msg"%string, JString message);
                   ("subsystem"%string, JString subsystem)]
      <-> ValidString eventID = true /\ ValidString level = true /\
          ValidString message = true /\ ValidString subsystem = true)).
Proof.
  cbv zeta. split_and!.
  - intros channel nick reason w1 l r E. unfold KickUser in E. cbv zeta in E.
    apply call_outcome in E as (Hr & _).
    string_map_form Hr.
    split; [done|].
    match goal with
    | |- context [make_request _ (Some ?p) _] =>
        assert (G : generic p = true) by written_generic;
        destruct (wrapped_request_decodes "channel.kick" p (reqID (client w) + 1)
                    eq_refl ltac:(discriminate) G) as [D M]
    end.
    split; [exact M|]. split; [exact D|]. split.
    + intros [= E1 E2 E3]. by rewrite <- !coerce_fixed.
    + intros (V1 & V2 & V3). by rewrite !coerce_valid.
  - intros channel mask reason w1 l r E. unfold BanUser in E. cbv zeta in E.
    apply call_outcome in E as (Hr & _).
    string_map_form Hr.
    split; [done|].
    match goal with
    | |- context [make_request _ (Some ?p) _] =>
        assert (G : generic p = true) by written_generic;
        destruct (wrapped_request_decodes "channel.ban_add" p (reqID (client w) + 1)
                    eq_refl ltac:(discriminate) G) as [D M]
    end.
    split; [exact M|]. split; [exact D|]. split.
    + intros [= E1 E2 E3]. by rewrite <- !coerce_fixed.
    + intros (V1 & V2 & V3). by rewrite !coerce_valid.
  - intros message level subsystem eventID w1 l r E. unfold SendLog in E. cbv zeta in E.
    apply call_outcome in E as (Hr & _).
    string_map_form Hr.
    split; [done|].
    match goal with
    | |- context [make_request _ (Some ?p) _] =>
        assert (G : generic p = true) by written_generic;
        destruct (wrapped_request_decodes "log.send" p (reqID (client w) + 1)
                    eq_refl ltac:(discriminate) G) as [D M]
    end.
    split; [exact M|]. split; [exact D|]. split.
    + intros [= E1 E2 E3 E4]. by rewrite <- !coerce_fixed.
    + intros (V1 & V2 & V3 & V4). by rewrite !coerce_valid.
Qed.

(** [KickUser] with a reason that is the one byte FF, on a connected
    client whose write fails: the request handed to the transport holds
    U+FFFD in its place. *)
Lemma moderation_requests_witness :
  exists w1 l r,
    KickUser failing_write "#ops" "bob" (String "255" EmptyString)
      {| client := set_conn (Some 7%nat) false (NewRPCClient "wss://h/" "panel" "secret");
         chans := [] |} = Some (w1, l, r) /\
    requests l = [make_request "channel.kick"
      (Some (JObject [("channel"%string, JString "#ops"); ("nick"%string, JString "bob");
                      ("reason"%string,
                       JString (String "239" (String "191" (String "189" EmptyString))))]))
      1].
Proof.
  assert (E : exists w1 l r,
    KickUser failing_write "#ops" "bob" (String "255" EmptyString)
      {| client := set_conn (Some 7%nat) false (NewRPCClient "wss://h/" "panel" "secret");
         chans := [] |} = Some (w1, l, r) /\ requests l <> []).
  { eexists _, _, _. split; [vm_compute; reflexivity|discriminate]. }
  destruct E as (w1 & l & r & E & Hn). exists w1, l, r. split; [exact E|].
  destruct (proj1 (moderation_requests _ _) _ _ _ _ _ _ E) as ([Hr|Hr] & _); [done|exact Hr].
Defined.

(** X15. [GetNetworkInfo] returns a value exactly when [call] returns no
    error. When the response carries a result, the value holds the
    decoded counts, users as [UsersOnline] and opers as [Operators]. When
    the response carries neither an error nor a result, nothing is
    decoded and the value holds zeros, with no error. The one request it
    may write is [stats.get], without parameters. *)
Theorem GetNetworkInfo_outcomes unmarshal e w w1 l info r :
  GetNetworkInfo unmarshal e w = Some (w1, l, (info, r)) ->
  (is_Some info <-> exists payload, r = CallOk payload) /\
  (r = CallOk None -> info = Some (mkNetworkInfo 0 0 0 0 0)) /\
  (forall raw, r = CallOk (Some raw) ->
     exists st, unmarshal raw = Some st /\
       info = Some {| UsersOnline := stats_Users st; Channels := stats_Channels st;
                      Servers := stats_Servers st; Operators := stats_Opers st;
                      Uptime := stats_Uptime st |}) /\
  (requests l = [] \/
   requests l = [make_request "stats.get" None (wrap64 (reqID (client w) + 1))]) /\
  keys (marshal_request (make_request "stats.get" None (wrap64 (reqID (client w) + 1))))
    = ["jsonrpc"; "method"; "id"]%string.
Proof.
  unfold GetNetworkInfo. intros E.
  destruct (call e "stats.get" None _ w) as [[[w' l'] r']|] eqn:Ec; [|done].
  destruct (call_outcome _ _ _ _ _ _ _ _ Ec) as (Hr & _ & _ & Hv).
  destruct r'; injection E as <- <- <- <-; split_and!; try done;
    try (split; [by intros []|by intros [? [=]]]).
  - split; [by eexists|done].
  - by intros [= ->].
  - intros raw [= ->]. destruct (Hv raw eq_refl) as (valid & [= <-] & Hok).
    destruct (unmarshal raw) as [st|]; [|done]. by exists st.
Qed.

Lemma GetNetworkInfo_outcomes_witness :
  exists w1 l,
    GetNetworkInfo (fun _ => None)
      {| write_err := false; before_write := fun w => w;
         while_waiting := fun w =>
           {| client := client w;
              chans := [ {| buf := Some {| resp_JSONRPC := "2.0"; Result := None;
                                           Error := None; resp_ID := 1 |};
                            closed := false |} ] |};
         before_unregister := fun w => w; wenv := mkWaitEnv false 0; pick := SelResp |}
      {| client := set_conn (Some 7%nat) false (NewRPCClient "wss://irc.example.org:8600/" "panel" "secret");
         chans := [] |}
    = Some (w1, l, (Some (mkNetworkInfo 0 0 0 0 0), CallOk None)).
Proof.
  assert (E : exists w1 l info,
    GetNetworkInfo (fun _ => None)
      {| write_err := false; before_write := fun w => w;
         while_waiting := fun w =>
           {| client := client w;
              chans := [ {| buf := Some {| resp_JSONRPC := "2.0"; Result := None;
                                           Error := None; resp_ID := 1 |};
                            closed := false |} ] |};
         before_unregister := fun w => w; wenv := mkWaitEnv false 0; pick := SelResp |}
      {| client := set_conn (Some 7%nat) false (NewRPCClient "wss://irc.example.org:8600/" "panel" "secret");
         chans := [] |}
    = Some (w1, l, (info, CallOk None))).
  { eexists _, _, _. vm_compute. reflexivity. }
  destruct E as (w1 & l & info & E). exists w1, l.
  destruct (GetNetworkInfo_outcomes _ _ _ _ _ _ _ E) as (_ & H & _).
  by rewrite <- (H eq_refl).
Defined.

(** ** [initRPCClient] *)

Lemma Connect_requests ce w w1 l r : Connect ce w = (w1, l, r) -> requests l = [].
Proof.
  unfold Connect, connectUnixSocket, connectWebSocket.
  destruct (is_unix_url _); [|destruct (parsed ce)]; destruct (dialed ce);
    by intros [= <- <- <-].
Qed.

Lemma initRPCClient_mock ce e cfg :
  UnrealRPCURL cfg = ""%string \/ UnrealRPCUsername cfg = ""%string \/ UseMockData cfg = true ->
  initRPCClient ce e cfg = Some (InitDone (set_UseMockData true cfg) None, []).
Proof.
  unfold initRPCClient. intros [-> | [-> | ->]]; simpl; [done| |].
  - by rewrite andb_false_r.
  - by rewrite andb_false_r.
Qed.

(** X16. What [initRPCClient] leaves behind. When the URL or the user
    name is empty, or mock data is asked for, it dials nothing, writes
    nothing, leaves no client and switches mock data on. Otherwise, when
    it returns, either there is no client and mock data is on (the
    connection failed), or there is a client, the configuration is
    unchanged and mock data is off. So a nil client always goes with mock
    data. In all cases at most one request is written, the startup
    [log.send], with ID 1. *)
Theorem initRPCClient_outcomes ce e cfg :
  (UnrealRPCURL cfg = ""%string \/ UnrealRPCUsername cfg = ""%string \/ UseMockData cfg = true ->
   initRPCClient ce e cfg = Some (InitDone (set_UseMockData true cfg) None, [])) /\
  (forall cfg' rpcClient l,
     initRPCClient ce e cfg = Some (InitDone cfg' rpcClient, l) ->
     ((rpcClient = None /\ cfg' = set_UseMockData true cfg) \/
      (exists w, rpcClient = Some w /\ cfg' = cfg /\ UseMockData cfg = false /\
         UnrealRPCURL cfg <> ""%string /\ UnrealRPCUsername cfg <> ""%string)) /\
     (rpcClient = None -> UseMockData cfg' = true) /\
     (requests l = [] \/
      requests l = [make_request "log.send"
        (Some (JObject [("event_id"%string, JString "COPILOT_MESSAGE");
                        ("level"%string, JString "info");
                        ("msg"%string, JString "Co-pilot is the best");
                        ("subsystem"%string, JString "admin")])) 1])).
Proof.
  split; [apply initRPCClient_mock|].
  intros cfg' cl l. unfold initRPCClient.
  destruct (String.eqb_spec (UnrealRPCURL cfg) "") as [Hu|Hu]; simpl.
  { intros [= <- <- <-]. split_and!; try done; by left. }
  destruct (String.eqb_spec (UnrealRPCUsername cfg) "") as [Hn|Hn]; simpl.
  { intros [= <- <- <-]. split_and!; try done; by left. }
  destruct (UseMockData cfg) eqn:Hm; simpl.
  { intros [= <- <- <-]. split_and!; try done; by left. }
  destruct (Connect ce _) as [[w1 l1] rc] eqn:Ec.
  pose proof (Connect_requests _ _ _ _ _ Ec) as Hr1.
  destruct (Connect_cases _ _ _ _ _ Ec) as (_ & _ & Hid & _ & _ & _). simpl in Hid.
  destruct rc; try (intros [= <- <- <-]; split_and!; try done; by left).
  destruct (SendCopilotLog e w1) as [[[w2 l2] r2]|] eqn:Es; [|done].
  unfold SendCopilotLog, SendLog in Es. cbv zeta in Es.
  apply call_outcome in Es as (Hr2 & _). rewrite Hid in Hr2.
  replace (marshal_string_map _) with
    (JObject [("event_id"%string, JString "COPILOT_MESSAGE");
              ("level"%string, JString "info");
              ("msg"%string, JString "Co-pilot is the best");
              ("subsystem"%string, JString "admin")]) in Hr2 by (vm_compute; reflexivity).
  change (wrap64 (0 + 1)) with 1 in Hr2.
  assert (Hreq : requests (l1 ++ l2) = requests l2).
  { by rewrite requests_app, Hr1. }
  destruct r2; intros [= <- <- <-]; rewrite Hreq;
    (split_and!; [right; by exists w2|done|done]).
Qed.

Lemma loadConfig_real env :
  real_mode env <->
  UnrealRPCURL (loadConfig env) <> ""%string /\
  UnrealRPCUsername (loadConfig env) <> ""%string /\
  UseMockData (loadConfig env) = false.
Proof.
  unfold real_mode. simpl. rewrite !getEnv_value.
  assert (Hb : getEnvBool env "USE_MOCK_DATA" true = false <->
               ParseBool (Getenv env "USE_MOCK_DATA") = Some false).
  { unfold getEnvBool. cbv zeta.
    destruct (String.eqb_spec (Getenv env "USE_MOCK_DATA") "") as [->|Hne]; simpl; [done|].
    destruct (ParseBool (Getenv env "USE_MOCK_DATA")) as [[]|]; split; congruence. }
  rewrite Hb.
  destruct (decide (Getenv env "UNREAL_RPC_URL" = ""%string));
    destruct (decide (Getenv env "UNREAL_RPC_USERNAME" = ""%string)); split; intros (? & ? & ?); done.
Qed.

(** X17. From the environment to the connection. Unless the environment
    holds a URL, a user name and a USE_MOCK_DATA that reads as false,
    [initRPCClient] after [loadConfig] dials nothing, writes nothing and
    leaves the server in mock mode without a client: a URL and a user
    name alone are not enough, since mock data is on by default. When the
    three are there, the first thing it does is to dial (or to reject a
    URL that does not parse), and the UNIX socket is chosen exactly by
    the URL [unix]: the empty URL, which [Connect] also takes for the
    socket, never reaches it. *)
Theorem startup_from_environment ce e env :
  (~ real_mode env ->
   initRPCClient ce e (loadConfig env)
     = Some (InitDone (set_UseMockData true (loadConfig env)) None, [])) /\
  (real_mode env ->
   (is_unix_url (UnrealRPCURL (loadConfig env)) = true <->
    Getenv env "UNREAL_RPC_URL" = "unix"%string) /\
   forall r l, initRPCClient ce e (loadConfig env) = Some (r, l) ->
     exists first rest, l = first :: rest /\
       (is_dial first = true \/ first = Log LogInvalidURL)).
Proof.
  split.
  - intros Hno. apply initRPCClient_mock.
    destruct (decide (UnrealRPCURL (loadConfig env) = ""%string)) as [|H1]; [by left|].
    destruct (decide (UnrealRPCUsername (loadConfig env) = ""%string)) as [|H2];
      [by right; left|].
    destruct (UseMockData (loadConfig env)) eqn:H3; [by right; right|].
    exfalso. apply Hno. by apply loadConfig_real.
  - intros Hreal. pose proof Hreal as (Hu & Hn & _).
    apply loadConfig_real in Hreal as (H1 & H2 & H3). split.
    + simpl. rewrite getEnv_value. rewrite decide_False by done.
      unfold is_unix_url. rewrite orb_true_iff, !String.eqb_eq. split; [|by left].
      by intros [?|?].
    + intros r l. unfold initRPCClient.
      rewrite (proj2 (String.eqb_neq _ _) H1), (proj2 (String.eqb_neq _ _) H2), H3.
      cbn [negb andb].
      destruct (Connect ce _) as [[w1 l1] rc] eqn:Ec.
      assert (Hl1 : exists first rest, l1 = first :: rest /\
                (is_dial first = true \/ first = Log LogInvalidURL)).
      { revert Ec. unfold Connect, connectUnixSocket, connectWebSocket.
        destruct (is_unix_url _); [|destruct (parsed ce)]; destruct (dialed ce);
          intros [= <- <- <-]; eexists _, _; (split; [reflexivity|]); auto. }
      destruct Hl1 as (first & rest & -> & Hf).
      destruct rc; try (intros [= <- <-]; by exists first, rest).
      destruct (SendCopilotLog e w1) as [[[w2 l2] r2]|]; [|done].
      destruct r2; intros [= <- <-]; by exists first, (rest ++ l2).
Qed.

Lemma operations_not_connected e w :
  conn (client w) = None ->
  let bumped := {| client := set_reqID (wrap64 (reqID (client w) + 1)) (client w);
                   chans := chans w |} in
  (forall channel nick reason,
     KickUser e channel nick reason w = Some (bumped, [Log LogNotConnected], ErrNotConnected)) /\
  (forall channel mask reason,
     BanUser e channel mask reason w = Some (bumped, [Log LogNotConnected], ErrNotConnected)) /\
  (forall message level subsystem eventID,
     SendLog e message level subsystem eventID w
       = Some (bumped, [Log LogNotConnected], ErrNotConnected)) /\
  (forall unmarshal,
     GetNetworkInfo unmarshal e w
       = Some (bumped, [Log LogNotConnected], (None, ErrNotConnected))) /\
  conn (client bumped) = None.
Proof.
  intros Hc. cbv zeta. split_and!.
  - intros. unfold KickUser. cbv zeta. by rewrite call_not_connected.
  - intros. unfold BanUser. cbv zeta. by rewrite call_not_connected.
  - intros. unfold SendLog. cbv zeta. by rewrite call_not_connected.
  - intros. unfold GetNetworkInfo. by rewrite call_not_connected.
  - done.
Qed.

(** X18. The UNIX socket from start-up on. With the URL [unix], a user
    name and mock data off, and a dial that succeeds, [initRPCClient]
    leaves a client and real mode, and has written no request: the
    startup log call has failed as not connected. The client holds the
    socket but reports that it is not connected; every operation on it
    returns the not-connected error without writing and leaves it so, so
    that the same holds for the operations that follow. *)
Theorem unix_socket_startup ce e cfg cn :
  UnrealRPCURL cfg = "unix"%string -> UnrealRPCUsername cfg <> ""%string ->
  UseMockData cfg = false -> dialed ce = Some cn ->
  exists w,
    initRPCClient ce e cfg
      = Some (InitDone cfg (Some w),
              [DialUnix socketPath; Log LogConnected; Go SocketLoop; Log LogNotConnected]) /\
    IsConnected w = false /\ socketConn (client w) = Some cn /\
    pending (client w) = ∅ /\ reqID (client w) = 1 /\
    forall e' w',
      conn (client w') = None ->
      let bumped := {| client := set_reqID (wrap64 (reqID (client w') + 1)) (client w');
                       chans := chans w' |} in
      (forall channel nick reason,
         KickUser e' channel nick reason w'
           = Some (bumped, [Log LogNotConnected], ErrNotConnected)) /\
      (forall channel mask reason,
         BanUser e' channel mask reason w'
           = Some (bumped, [Log LogNotConnected], ErrNotConnected)) /\
      (forall message level subsystem eventID,
         SendLog e' message level subsystem eventID w'
           = Some (bumped, [Log LogNotConnected], ErrNotConnected)) /\
      (forall unmarshal,
         GetNetworkInfo unmarshal e' w'
           = Some (bumped, [Log LogNotConnected], (None, ErrNotConnected))) /\
      conn (client bumped) = None.
Proof.
  intros Hu Hn Hm Hd. unfold initRPCClient. rewrite Hu, Hm.
  rewrite (proj2 (String.eqb_neq _ _) Hn). cbn [String.eqb Ascii.eqb Bool.eqb negb andb].
  unfold Connect, connectUnixSocket. cbn [client url NewRPCClient is_unix_url].
  change (is_unix_url "unix") with true. cbv iota. rewrite Hd.
  unfold SendCopilotLog, SendLog. cbv zeta. rewrite call_not_connected by done.
  eexists. split; [reflexivity|]. split_and!; try done.
  intros e' w' Hc. by apply operations_not_connected.
Qed.

Lemma unix_socket_startup_witness :
  exists w,
    initRPCClient unix_env failing_write
      {| Port := "8080"; UnrealRPCURL := "unix"; UnrealRPCUsername := "panel";
         UnrealRPCPassword := "secret"; UseMockData := false;
         JWTSecret := "default-secret-change-me" |}
    = Some (InitDone {| Port := "8080"; UnrealRPCURL := "unix"; UnrealRPCUsername := "panel";
                        UnrealRPCPassword := "secret"; UseMockData := false;
                        JWTSecret := "default-secret-change-me" |} (Some w),
            [DialUnix socketPath; Log LogConnected; Go SocketLoop; Log LogNotConnected]) /\
    IsConnected w = false.
Proof.
  assert (Hn : "panel"%string <> ""%string) by discriminate.
  destruct (unix_socket_startup unix_env failing_write
              {| Port := "8080"; UnrealRPCURL := "unix"; UnrealRPCUsername := "panel";
                 UnrealRPCPassword := "secret"; UseMockData := false;
                 JWTSecret := "default-secret-change-me" |} 3%nat eq_refl Hn eq_refl eq_refl)
    as (w & E & Hc & _).
  exists w. split; [exact E|exact Hc].
Defined.

(** ** The pending map and the goroutines inside [call] *)

Lemma owns_snoc s w ls t id ch pc :
  owns s t id ch ->
  owns {| world := w; callers := callers s ++ [pc]; loops := ls |} t id ch.
Proof.
  intros (pc' & Ht & Hl). exists pc'. split; [|done]. simpl.
  by apply lookup_app_l_Some.
Qed.

Lemma owns_keep s w t t' id ch pc pc' :
  callers s !! t' = Some pc -> pc_local pc' = pc_local pc ->
  owns s t id ch -> owns (with_caller s w t' pc') t id ch.
Proof.
  intros Ht' Hl (pc0 & Ht & Hl0). unfold owns, with_caller. simpl.
  destruct (decide (t = t')) as [->|Hne].
  - exists pc'. rewrite list_lookup_insert_eq by (by eapply lookup_lt_Some).
    split; [done|]. congruence.
  - exists pc0. by rewrite list_lookup_insert_ne.
Qed.

Lemma owns_other s w t t' id ch pc' :
  t <> t' -> owns s t id ch -> owns (with_caller s w t' pc') t id ch.
Proof.
  intros Hne (pc0 & Ht & Hl0). exists pc0. unfold with_caller. simpl.
  by rewrite list_lookup_insert_ne.
Qed.

Lemma owns_loops s w ls t id ch :
  owns s t id ch -> owns {| world := w; callers := callers s; loops := ls |} t id ch.
Proof. done. Qed.

Lemma tidy_init u n p : tidy (init_system u n p).
Proof. split; simpl; [intros id ch H; by rewrite lookup_empty in H|done]. Qed.

Lemma tidy_step ev s s1 l :
  wf s -> tidy s -> sys_step ev s = Stepped s1 l -> tidy s1.
Proof.
  intros W [To Tc]. unfold sys_step. destruct ev as [ce|m prm d|t werr|t e k|t|i|i f|i|i|].
  - (* Connect *)
    destruct (Connect ce (world s)) as [[w l'] r] eqn:Ec. intros [= <- <-].
    destruct (Connect_cases _ _ _ _ _ Ec) as (_ & Hp & _ & _ & Hok & Hfail).
    split; simpl.
    + rewrite Hp. intros id ch H. destruct (To id ch H) as (t & Ht). by exists t.
    + rewrite Hp. intros Hc. apply Tc.
      destruct r.
      * destruct (Hok eq_refl) as (cn & _ & Hcase).
        destruct (is_unix_url _); [by destruct Hcase as (_ & <- & _)|].
        destruct Hcase as (Hc' & _). congruence.
      * by destruct Hfail as [<- _].
      * by destruct Hfail as [<- _].
      * by destruct Hfail as [<- _].
  - (* call: the first critical section *)
    unfold call_begin. cbv zeta.
    destruct (conn (client (world s))) as [cn|] eqn:C; intros [= <- <-]; split; simpl.
    + intros id ch [[<- <-]|[Hne H]]%lookup_insert_Some.
      * exists (length (callers s)). eexists. split; [by apply list_lookup_middle|done].
      * destruct (To id ch H) as (t & Ht). exists t. by apply owns_snoc.
    + by rewrite C.
    + intros id ch H. destruct (To id ch H) as (t & Ht). exists t. by apply owns_snoc.
    + intros _. by apply Tc.
  - (* the write *)
    destruct (callers s !! t) as [[respCh req d| | |]|] eqn:Ht; try done.
    unfold call_send. destruct (conn (client (world s))) as [cn|] eqn:C.
    + destruct werr; intros [= <- <-]; (split; simpl; [|by rewrite C]);
        intros id ch H; destruct (To id ch H) as (t' & Ht'); exists t';
        by eapply owns_keep.
    + intros [= <- <-]. split; simpl; [|intros _; by apply Tc].
      intros id ch H. rewrite (Tc eq_refl), lookup_empty in H. done.
  - (* the select *)
    destruct (callers s !! t) as [[| id respCh d | |]|] eqn:Ht; try done.
    unfold call_wait. destruct (case_ready _ _ _ _) eqn:Rdy; [|done]. destruct k.
    + destruct (chan_recv _ _) as [[v h]| |] eqn:Rv; try done.
      destruct (call_finish d v) as [lf rf]. intros [= <- <-]. split; simpl; [|exact Tc].
      intros id' ch' H. destruct (To id' ch' H) as (t' & Ht').
      exists t'. apply owns_other; [|done]. intros ->.
      destruct Ht' as (pc & Hpc & Hl). rewrite Ht in Hpc. injection Hpc as <-.
      injection Hl as <- <-.
      pose proof (wf_pending _ W _ _ H) as Hfr.
      simpl in Rdy. by rewrite (chan_recv_ready_fresh _ _ Hfr) in Rdy.
    + intros [= <- <-]. split; simpl; [|exact Tc].
      intros id' ch' H. destruct (To id' ch' H) as (t' & Ht'). exists t'.
      by eapply owns_keep.
    + intros [= <- <-]. split; simpl; [|exact Tc].
      intros id' ch' H. destruct (To id' ch' H) as (t' & Ht'). exists t'.
      by eapply owns_keep.
  - (* the removal by a caller that gave up *)
    destruct (callers s !! t) as [[| | id respCh r |]|] eqn:Ht; try done.
    intros [= <- <-]. split; simpl.
    + intros id' ch' [Hne H]%lookup_delete_Some.
      destruct (To id' ch' H) as (t' & Ht'). exists t'. apply owns_other; [|done].
      intros ->. destruct Ht' as (pc & Hpc & Hl). rewrite Ht in Hpc. injection Hpc as <-.
      by injection Hl as <- <-.
    + intros Hc. rewrite (Tc Hc). apply delete_empty.
  - (* the top of the WebSocket loop *)
    destruct (loops s !! i) as [[[] []]|]; try done.
    destruct (hm_top (world s)) as [l' []]; intros [= <- <-]; by split.
  - (* the read *)
    destruct (loops s !! i) as [[[] []]|]; try done.
    + destruct (hm_read f) as [l' [r|]]; intros [= <- <-]; by split.
    + destruct (hs_read f) as [l' [| |r]]; intros [= <- <-]; by split.
  - (* the claim *)
    destruct (loops s !! i) as [[[] []]|]; try done.
    + unfold hm_claim. cbv zeta. destruct (pend s !! resp_ID r) as [ch|] eqn:P;
        intros [= <- <-]; [|by split]. split; simpl.
      * intros id' ch' [Hne H]%lookup_delete_Some. by apply To.
      * intros Hc. rewrite (Tc Hc). apply delete_empty.
    + destruct (hs_claim r (world s)); intros [= <- <-]; by split.
  - (* the send of a loop *)
    destruct (loops s !! i) as [[k []]|]; try done.
    destruct k; unfold hm_deliver, hs_deliver;
      destruct (chan_send _ _ _); try done; intros [= <- <-]; by split.
  - (* Disconnect *)
    unfold Disconnect. cbv zeta. destruct (close_all _ _) as [[h e]| |]; try done.
    intros [= <- <-]. split; simpl; [|done]. intros id ch H. by rewrite lookup_empty in H.
Qed.

Lemma tidy_run tr : forall s s1 l,
  wf s -> tidy s -> run tr s = Stepped s1 l -> tidy s1.
Proof.
  induction tr as [|ev tr IH]; intros s s1 l W T; simpl.
  - by intros [= <- _].
  - destruct (sys_step ev s) as [s' l'| |] eqn:E; try done.
    destruct (run tr s') as [s'' l''| |] eqn:R; try done. intros [= <- _].
    eapply IH; [by eapply wf_step|by eapply tidy_step|done].
Qed.

(** X19. No entry outlives its call. In every state that a client made
    by [NewRPCClient] reaches, each entry of the pending map belongs to a
    goroutine that is still inside [call] and holds that ID and that
    channel in its local variables; when every call has returned (or
    panicked) the map is empty; and a client whose WebSocket handle is nil
    has no entry. *)
Theorem no_entry_without_caller s :
  reachable s ->
  (forall id ch, pend s !! id = Some ch ->
     exists t pc, callers s !! t = Some pc /\ pc_local pc = Some (id, ch)) /\
  ((forall t pc, callers s !! t = Some pc -> exists r, pc = PcDone r) -> pend s = ∅) /\
  (conn (client (world s)) = None -> pend s = ∅).
Proof.
  intros (u & n & p & tr & l & R).
  pose proof (tidy_run tr _ _ _ (wf_init u n p) (tidy_init u n p) R) as [To Tc].
  split_and!.
  - intros id ch H. destruct (To id ch H) as (t & pc & Ht & Hl). by exists t, pc.
  - intros Hall. apply map_eq. intros id. rewrite lookup_empty.
    destruct (pend s !! id) as [ch|] eqn:H; [|done].
    destruct (To id ch H) as (t & pc & Ht & Hl).
    destruct (Hall t pc Ht) as [r ->]. done.
  - done.
Qed.

Lemma no_entry_without_caller_witness :
  pend two_waiting !! 2 = Some 1%nat /\
  exists t pc, callers two_waiting !! t = Some pc /\ pc_local pc = Some (2, 1%nat).
Proof.
  split; [vm_compute; reflexivity|].
  apply (proj1 (no_entry_without_caller two_waiting two_waiting_reachable)).
  vm_compute. reflexivity.
Defined.

(** ** [Disconnect] *)

Lemma Disconnect_idle w :
  conn (client w) = None -> pending (client w) = ∅ ->
  Disconnect w = ChanOk (w, [Log (LogCleaningUp 0); Log LogDisconnected]).
Proof.
  intros Hc Hp. unfold Disconnect. cbv zeta. rewrite Hc, Hp, map_to_list_empty. simpl.
  destruct w as [c h]. simpl in *. destruct c. simpl in *. by subst.
Qed.

Lemma Disconnect_twice s :
  wf s ->
  exists s1 l1,
    sys_step EvDisconnect s = Stepped s1 l1 /\
    IsConnected (world s1) = false /\ pend s1 = ∅ /\
    socketConn (client (world s1)) = socketConn (client (world s)) /\
    sys_step EvDisconnect s1 = Stepped s1 [Log (LogCleaningUp 0); Log LogDisconnected] /\
    (forall m prm d, exists s2,
       sys_step (EvCall m prm d) s1 = Stepped s2 [Log LogNotConnected] /\
       callers s2 = callers s1 ++ [PcDone ErrNotConnected] /\ pend s2 = ∅) /\
    (forall i, loops s1 !! i = Some (WebSocketLoop, LpTop) ->
       sys_step (EvTop i) s1
         = Stepped (with_loop s1 (world s1) i WebSocketLoop LpDone)
                   [Log LogConnNil; Log LogHandlerStopped]).
Proof.
  intros W.
  destruct (Disconnect_spec s W) as (h & e & Ec & _).
  unfold sys_step at 1. unfold Disconnect. cbv zeta. rewrite Ec.
  eexists _, _. split; [reflexivity|]. split_and!; [done..| | |].
  - unfold sys_step. by rewrite Disconnect_idle.
  - intros m prm d. unfold sys_step, call_begin. cbv zeta. cbn [world client conn set_pending set_conn].
    eexists. split; [reflexivity|]. done.
  - intros i Hi. unfold sys_step. rewrite Hi. done.
Qed.

(** X20. [Disconnect] can be called again. In every state that the client
    reaches under its mutex without a write having panicked with the read
    lock held, it gets the lock, runs without panic and leaves the client
    not connected, with an empty pending map; a second [Disconnect] right
    after it closes nothing and changes nothing; a call made after it
    returns the not-connected error and registers nothing; and a
    WebSocket loop that comes to the top of its iteration after it
    stops. The socket handle is left as it was. *)
Theorem Disconnect_again g :
  reachable_guarded g -> rlock_leaked g = false ->
  exists s1 l1,
    mutex_step EvDisconnect g = Ran (unlocked s1) l1 /\
    IsConnected (world s1) = false /\ pend s1 = ∅ /\
    socketConn (client (world s1)) = socketConn (client (world (sys g))) /\
    mutex_step EvDisconnect (unlocked s1)
      = Ran (unlocked s1) [Log (LogCleaningUp 0); Log LogDisconnected] /\
    (forall m prm d, exists s2,
       mutex_step (EvCall m prm d) (unlocked s1) = Ran (unlocked s2) [Log LogNotConnected] /\
       callers s2 = callers s1 ++ [PcDone ErrNotConnected] /\ pend s2 = ∅) /\
    (forall i, loops s1 !! i = Some (WebSocketLoop, LpTop) ->
       mutex_step (EvTop i) (unlocked s1)
         = Ran (unlocked (with_loop s1 (world s1) i WebSocketLoop LpDone))
               [Log LogConnNil; Log LogHandlerStopped]).
Proof.
  intros R L. destruct (guarded_free g R L) as [W Eg].
  destruct (Disconnect_twice (sys g) W) as (s1 & l1 & E1 & Hc & Hp & Hs & E2 & Hcall & Htop).
  assert (Lw : lock_waiting g = false) by (by rewrite Eg).
  exists s1, l1. split_and!; try done.
  - by rewrite mutex_step_free, E1.
  - rewrite mutex_step_free by done. unfold unlocked at 1 2. cbn [sys]. by rewrite E2.
  - intros m prm d. destruct (Hcall m prm d) as (s2 & E & Hs2). exists s2.
    split; [|done]. rewrite mutex_step_free by done. unfold unlocked at 1 2. cbn [sys].
    by rewrite E.
  - intros i Hi. rewrite mutex_step_free by done. unfold unlocked at 1 2. cbn [sys].
    by rewrite (Htop i Hi).
Qed.

Lemma Disconnect_again_witness :
  exists s1 l1,
    mutex_step EvDisconnect (unlocked two_waiting) = Ran (unlocked s1) l1 /\
    mutex_step EvDisconnect (unlocked s1)
      = Ran (unlocked s1) [Log (LogCleaningUp 0); Log LogDisconnected].
Proof.
  destruct (Disconnect_again (unlocked two_waiting) two_waiting_guarded eq_refl)
    as (s1 & l1 & E & _ & _ & _ & E2 & _).
  exists s1, l1. split; [exact E|exact E2].
Defined.

(** X21. Calls that are inside [call] when [Disconnect] runs. A
    goroutine whose entry is still registered and which is suspended in
    the select finds its channel closed: when it takes the receive case
    it reads a nil response and panics at [resp.Error]. A goroutine that
    has registered and not yet written finds the handle nil: it panics in
    [WriteJSON], and nothing is written. Neither returns an error. *)
Theorem Disconnect_panics_callers s :
  reachable s ->
  exists s1 l1,
    sys_step EvDisconnect s = Stepped s1 l1 /\
    (forall t id ch d e,
       callers s !! t = Some (PcWait id ch d) -> pend s !! id = Some ch ->
       exists s2 l2,
         sys_step (EvSelect t e SelResp) s1 = Stepped s2 l2 /\
         callers s2 !! t = Some (PcDone CallPanic)) /\
    (forall t ch req d werr,
       callers s !! t = Some (PcSend ch req d) ->
       exists s2,
         sys_step (EvWrite t werr) s1 = Stepped s2 [] /\
         callers s2 !! t = Some (PcDone CallPanic)).
Proof.
  intros W%wf_reachable.
  destruct (Disconnect_spec s W) as (h & e & Ec & _ & H1 & _).
  unfold sys_step at 1. unfold Disconnect. cbv zeta. rewrite Ec.
  eexists _, _. split; [reflexivity|]. split.
  - intros t id ch d e' Ht Hp. pose proof (lookup_lt_Some _ _ _ Ht) as Hlt.
    pose proof (H1 _ _ Hp) as Hch.
    unfold sys_step, call_wait, case_ready, chan_recv_ready, chan_recv.
    cbn [callers world chans]. rewrite Ht, Hch. cbn [buf closed].
    unfold call_finish. eexists _, _. split; [reflexivity|].
    simpl. by rewrite list_lookup_insert_eq.
  - intros t ch req d werr Ht. pose proof (lookup_lt_Some _ _ _ Ht) as Hlt.
    unfold sys_step, call_send. cbn [callers world client conn set_pending set_conn].
    rewrite Ht. eexists. split; [reflexivity|]. simpl. by rewrite list_lookup_insert_eq.
Qed.

Lemma Disconnect_panics_callers_witness :
  exists s1 l1 s2 l2,
    sys_step EvDisconnect two_waiting = Stepped s1 l1 /\
    sys_step (EvSelect 0 (mkWaitEnv false 0) SelResp) s1 = Stepped s2 l2 /\
    callers s2 !! 0%nat = Some (PcDone CallPanic).
Proof.
  destruct (Disconnect_panics_callers two_waiting two_waiting_reachable)
    as (s1 & l1 & E & H & _).
  assert (H1 : callers two_waiting !! 0%nat = Some (PcWait 1 0%nat dA))
    by (vm_compute; reflexivity).
  assert (H2 : pend two_waiting !! 1 = Some 0%nat) by (vm_compute; reflexivity).
  destruct (H 0%nat 1 0%nat dA (mkWaitEnv false 0) H1 H2) as (s2 & l2 & E2 & Hr).
  exists s1, l1, s2, l2. split_and!; [exact E|exact E2|exact Hr].
Defined.

(** ** The socket handle *)

Lemma closes_app l1 l2 : closes (l1 ++ l2) = closes l1 ++ closes l2.
Proof. apply omap_app. Qed.

Lemma close_all_closes l : forall h h' e, close_all l h = ChanOk (h', e) -> closes e = [].
Proof.
  induction l as [|[id c] l IH]; intros h h' e; simpl.
  - by intros [= _ <-].
  - destruct (chan_close h c) as [h1| |]; try done.
    destruct (close_all l h1) as [[h2 e2]| |] eqn:E; try done.
    intros [= _ <-]. simpl. by eapply IH.
Qed.

Lemma call_finish_closes d v : closes (call_finish d v).1 = [].
Proof.
  unfold call_finish. destruct v as [resp|]; [|done].
  destruct (Error resp); [done|]. destruct d as [valid|]; [|done].
  destruct (Result resp) as [raw|]; [|done]. by destruct (valid raw).
Qed.

(** One step: nothing is closed unless there is a WebSocket handle, and
    the socket handle, once set, stays set. *)
Lemma step_socket ev s s1 l :
  sys_step ev s = Stepped s1 l ->
  (conn (client (world s)) = None -> closes l = []) /\
  (is_Some (socketConn (client (world s))) -> is_Some (socketConn (client (world s1)))).
Proof.
  unfold sys_step. destruct ev as [ce|m prm d|t werr|t e k|t|i|i f|i|i|].
  - unfold Connect, connectUnixSocket, connectWebSocket.
    destruct (is_unix_url _); [|destruct (parsed ce)]; destruct (dialed ce);
      intros [= <- <-]; split; done.
  - unfold call_begin. cbv zeta. destruct (conn (client (world s))); by intros [= <- <-].
  - destruct (callers s !! t) as [[respCh req d| | |]|]; try done.
    unfold call_send. destruct (conn (client (world s))); [destruct werr|];
      by intros [= <- <-].
  - destruct (callers s !! t) as [[| id respCh d | |]|]; try done.
    unfold call_wait. destruct (case_ready _ _ _ _); [|done]. destruct k.
    + destruct (chan_recv _ _) as [[v h]| |]; try done.
      pose proof (call_finish_closes d v) as Hc.
      destruct (call_finish d v) as [lf rf]. by intros [= <- <-].
    + by intros [= <- <-].
    + by intros [= <- <-].
  - destruct (callers s !! t) as [[| | id respCh r |]|]; try done. by intros [= <- <-].
  - destruct (loops s !! i) as [[[] []]|]; try done.
    destruct (hm_top (world s)) as [l' []] eqn:E; intros [= <- <-]; split; try done;
      intros Hc; unfold hm_top in E; rewrite Hc in E; by injection E as <-.
  - destruct (loops s !! i) as [[[] []]|]; try done.
    + destruct f; by intros [= <- <-].
    + destruct f; by intros [= <- <-].
  - destruct (loops s !! i) as [[[] []]|]; try done.
    + unfold hm_claim. cbv zeta. destruct (pend s !! resp_ID r); by intros [= <- <-].
    + destruct (hs_claim r (world s)); by intros [= <- <-].
  - destruct (loops s !! i) as [[k []]|]; try done.
    destruct k; unfold hm_deliver, hs_deliver;
      destruct (chan_send _ _ _); try done; by intros [= <- <-].
  - unfold Disconnect. cbv zeta.
    destruct (close_all _ _) as [[h e]| |] eqn:E; try done. intros [= <- <-].
    split; [|done]. intros ->. simpl. rewrite closes_app. simpl.
    by rewrite (close_all_closes _ _ _ _ E).
Qed.

(** X22. The socket handle is never given up. Whatever the schedule, a
    socket handle that has been stored stays stored: [Disconnect] neither
    closes nor clears it. On a client whose URL selects the UNIX socket
    no step closes any handle at all. *)
Theorem socket_never_closed u n p tr s l :
  run tr (init_system u n p) = Stepped s l ->
  (is_unix_url u = true -> closes l = []) /\
  (forall tr' s' l',
     run tr' s = Stepped s' l' ->
     is_Some (socketConn (client (world s))) -> is_Some (socketConn (client (world s')))).
Proof.
  intros R. split.
  - intros U.
    assert (H : forall tr s0 s1 l0, wf s0 -> unix s0 = true ->
              run tr s0 = Stepped s1 l0 -> closes l0 = []).
    { clear. induction tr as [|ev tr IH]; intros s0 s1 l0 W U; simpl.
      - by intros [= _ <-].
      - destruct (sys_step ev s0) as [s' l'| |] eqn:E; try done.
        destruct (run tr s') as [s'' l''| |] eqn:R; try done. intros [= _ <-].
        destruct (unix_run [ev] s0 s' l' W U) as [U' _]; [by simpl; rewrite E, app_nil_r|].
        rewrite closes_app, (IH _ _ _ (wf_step _ _ _ _ W E) U' R), app_nil_r.
        apply (proj1 (step_socket _ _ _ _ E)). by apply (wf_unix _ W). }
    by apply (H tr _ _ _ (wf_init u n p) U R).
  - clear. intros tr'. revert s. induction tr' as [|ev tr IH]; intros s s' l'; simpl.
    + by intros [= <- _].
    + destruct (sys_step ev s) as [s1 l1| |] eqn:E; try done.
      destruct (run tr s1) as [s2 l2| |] eqn:R; try done. intros [= <- _] Hs.
      apply (IH _ _ _ R). by apply (proj2 (step_socket _ _ _ _ E)).
Qed.

Lemma socket_never_closed_witness :
  exists s l,
    run [EvConnect unix_env; EvCall "stats.get" None dA; EvDisconnect]
        (init_system "unix" "panel" "secret") = Stepped s l /\
    closes l = [] /\ socketConn (client (world s)) = Some 3%nat.
Proof.
  assert (R : exists s l,
    run [EvConnect unix_env; EvCall "stats.get" None dA; EvDisconnect]
        (init_system "unix" "panel" "secret") = Stepped s l /\
    socketConn (client (world s)) = Some 3%nat).
  { eexists _, _. split; vm_compute; reflexivity. }
  destruct R as (s & l & R & Hs).
  destruct (socket_never_closed _ _ _ _ _ _ R) as [Hc _].
  exists s, l. split_and!; [exact R|exact (Hc eq_refl)|exact Hs].
Defined.

(** ** The URL that is dialed *)

(** X23. The scheme of the URL that [connectWebSocket] dials is never
    [http], [tcp], [https] or [tls]: the first two become [ws], the last
    two [wss], and every other scheme, [ws] and [wss] included, is passed
    on as it is. Host and path are not touched, and converting twice is
    converting once. *)
Theorem final_url_scheme u :
  (Scheme (final_url u) ∉ ["http"; "tcp"; "https"; "tls"]%string) /\
  (Scheme u ∈ ["http"; "tcp"]%string -> Scheme (final_url u) = "ws"%string) /\
  (Scheme u ∈ ["https"; "tls"]%string -> Scheme (final_url u) = "wss"%string) /\
  (Scheme u ∉ ["http"; "tcp"; "https"; "tls"]%string -> final_url u = u) /\
  Host (final_url u) = Host u /\ Path (final_url u) = Path u /\
  final_url (final_url u) = final_url u.
Proof.
  destruct u as [sch host path]. unfold final_url, ws_scheme. simpl.
  rewrite !elem_of_cons, !elem_of_nil.
  assert (Hws : forall x, x = "ws"%string \/ x = "wss"%string ->
            ~ (x = "http"%string \/ x = "tcp"%string \/ x = "https"%string \/
               x = "tls"%string \/ False)).
  { intros x [-> | ->] [?|[?|[?|[?|?]]]]; done. }
  destruct (String.eqb_spec sch "http") as [->|H1]; simpl.
  { split_and!; try done.
    - apply Hws. by left.
    - by intros [?|[?|?]].
    - intros H. exfalso. apply H. by left. }
  destruct (String.eqb_spec sch "tcp") as [->|H2]; simpl.
  { split_and!; try done.
    - apply Hws. by left.
    - by intros [?|[?|?]].
    - intros H. exfalso. apply H. right. by left. }
  destruct (String.eqb_spec sch "https") as [->|H3]; simpl.
  { split_and!; try done.
    - apply Hws. by right.
    - by intros [?|[?|?]].
    - intros H. exfalso. apply H. right. right. by left. }
  destruct (String.eqb_spec sch "tls") as [->|H4]; simpl.
  { split_and!; try done.
    - apply Hws. by right.
    - by intros [?|[?|?]].
    - intros H. exfalso. apply H. right. right. right. by left. }
  rewrite (proj2 (String.eqb_neq _ _) H1), (proj2 (String.eqb_neq _ _) H2),
    (proj2 (String.eqb_neq _ _) H3), (proj2 (String.eqb_neq _ _) H4). simpl.
  split_and!; try done.
  - by intros [?|[?|[?|[?|?]]]].
  - by intros [?|[?|?]].
  - by intros [?|[?|?]].
Qed.

(** ** The receive loop of the UNIX socket *)

Lemma shape_quiet s s1 l :
  wf s -> unix s = true -> no_loop_sends s -> shape s s1 l ->
  no_loop_sends s1 /\ forall c, deliveries c l = 0%nat.
Proof.
  intros W U Q Sh. destruct (wf_unix _ W U) as [Hc Hp].
  assert (Hsnoc : forall ls, (forall k pc, (k, pc) ∈ ls -> forall ch r, pc <> LpSend ch r) ->
            forall w cs, no_loop_sends {| world := w; callers := cs; loops := loops s ++ ls |}).
  { intros ls Hls w cs i k ch r. simpl. intros [H|[_ H]]%lookup_app_Some; [by eapply Q|].
    apply list_elem_of_lookup_2 in H. by eapply Hls. }
  assert (Hsame : forall w cs, no_loop_sends {| world := w; callers := cs; loops := loops s |}).
  { intros w cs i k ch r. apply Q. }
  destruct Sh.
  - split; [|done]. apply Hsnoc. intros k pc Hk ch r.
    destruct H6 as [->| ->]; [by apply elem_of_nil in Hk|].
    apply list_elem_of_singleton in Hk. injection Hk as -> ->. by destruct (unix s).
  - congruence.
  - split; [apply Hsame|done].
  - split; [apply Hsame|done].
  - split; [apply Hsame|done].
  - split; [apply Hsame|done].
  - split; [|done]. intros j k' ch r. unfold with_loop. simpl.
    destruct (decide (j = i)) as [->|Hne].
    + rewrite list_lookup_insert_eq by (by eapply lookup_lt_Some). intros [= _ E]. by eapply H0.
    + rewrite list_lookup_insert_ne by done. apply Q.
  - rewrite Hp, lookup_empty in H0. done.
  - by apply Q in H.
  - split; [apply Hsame|]. intros c. apply H3. intros id. by rewrite Hp, lookup_empty.
Qed.

Lemma unix_quiet_run tr : forall s s1 l,
  wf s -> unix s = true -> no_loop_sends s -> run tr s = Stepped s1 l ->
  no_loop_sends s1 /\ forall c, deliveries c l = 0%nat.
Proof.
  induction tr as [|ev tr IH]; intros s s1 l W U Q; simpl.
  - by intros [= <- <-].
  - destruct (sys_step ev s) as [s' l'| |] eqn:E; try done.
    destruct (run tr s') as [s'' l''| |] eqn:R; try done. intros [= <- <-].
    pose proof (step_shape _ _ _ _ W E) as Sh.
    destruct (shape_quiet _ _ _ W U Q Sh) as [Q' Hd'].
    assert (U' : unix s' = true) by (unfold unix; by rewrite (shape_url _ _ _ Sh)).
    destruct (IH _ _ _ (wf_step _ _ _ _ W E) U' Q' R) as [Q'' Hd''].
    split; [done|]. intros c. by rewrite deliveries_app, Hd', Hd''.
Qed.

(** X24. The receive loop of the UNIX socket delivers nothing. On a
    client whose URL selects the UNIX socket, whatever the socket sends
    and whatever the schedule, no channel is ever sent on or closed: the
    loop finds no entry for any response it decodes, drops it and reads
    on, with the pending map and the channels as they were. *)
Theorem unix_loop_delivers_nothing u n p tr s l :
  is_unix_url u = true ->
  run tr (init_system u n p) = Stepped s l ->
  (forall c, deliveries c l = 0%nat) /\
  (forall i k ch r, loops s !! i <> Some (k, LpSend ch r)) /\
  (forall i r, loops s !! i = Some (SocketLoop, LpRead) ->
     run [EvRead i (Frame r); EvClaim i] s = Stepped s [Log LogSocketLine]).
Proof.
  intros U R.
  pose proof (wf_run tr _ _ _ (wf_init u n p) R) as W.
  destruct (unix_run tr _ _ _ (wf_init u n p) U R) as [U' _].
  assert (Q0 : no_loop_sends (init_system u n p)) by (by intros i k ch r H).
  destruct (unix_quiet_run tr _ _ _ (wf_init u n p) U Q0 R) as [Q Hd].
  split_and!; try done.
  intros i r Hi. pose proof (lookup_lt_Some _ _ _ Hi) as Hlt.
  destruct (wf_unix _ W U') as [_ Hp].
  cbn [run]. unfold sys_step at 1. rewrite Hi. cbn [hs_read].
  unfold sys_step. cbn [with_loop loops world callers].
  rewrite list_lookup_insert_eq by done. unfold hs_claim. rewrite Hp, lookup_empty.
  unfold with_loop. cbn [loops world callers app].
  rewrite list_insert_insert_eq. by rewrite (list_insert_id (loops s)), system_eta.
Qed.

Lemma unix_loop_delivers_nothing_witness :
  exists s l,
    run [EvConnect unix_env; EvCall "stats.get" None dA; EvRead 0 (Frame respA); EvClaim 0]
        (init_system "unix" "panel" "secret") = Stepped s l /\
    forall c, deliveries c l = 0%nat.
Proof.
  assert (R : exists s l,
    run [EvConnect unix_env; EvCall "stats.get" None dA; EvRead 0 (Frame respA); EvClaim 0]
        (init_system "unix" "panel" "secret") = Stepped s l).
  { eexists _, _. vm_compute. reflexivity. }
  destruct R as (s & l & R).
  destruct (unix_loop_delivers_nothing "unix" "panel" "secret" _ _ _ eq_refl R) as [Hd _].
  exists s, l. split; [exact R|exact Hd].
Defined.

(** ** Users and channels for the API *)

Lemma append_nil_r s : s +:+ "" = s.
Proof. induction s as [|a s IH]; [done|]. change (String a s +:+ "") with (String a (s +:+ "")). by rewrite IH. Qed.

Lemma append_assoc (s1 s2 s3 : string) : (s1 +:+ s2) +:+ s3 = s1 +:+ (s2 +:+ s3).
Proof.
  induction s1 as [|a s1 IH]; [done|].
  change (String a ((s1 +:+ s2) +:+ s3) = String a (s1 +:+ (s2 +:+ s3))). by rewrite IH.
Qed.

Lemma fold_append rest : forall acc,
  fold_left (fun result s => result +:+ s) rest acc = acc +:+ foldr String.append "" rest.
Proof.
  induction rest as [|s rest IH]; intros acc; simpl.
  - by rewrite append_nil_r.
  - by rewrite IH, append_assoc.
Qed.

Lemma joinStrings_foldr strs : joinStrings strs = foldr String.append "" strs.
Proof. destruct strs as [|s0 rest]; [done|]. simpl. apply fold_append. Qed.

(** X25. [joinStrings] is concatenation without a separator: the result
    is the elements one after the other, so joining two lists put
    together is joining each and putting the results together, and the
    empty list and a list of empty strings both give the empty string. The
    boundaries between the elements are lost: the user modes [i] and [w]
    and the single element [iw] give the same text. *)
Theorem joinStrings_concat xs ys :
  joinStrings (xs ++ ys) = joinStrings xs +:+ joinStrings ys /\
  joinStrings xs = foldr String.append "" xs /\
  list_ascii_of_string (joinStrings xs) = concat (list_ascii_of_string <$> xs) /\
  joinStrings [] = ""%string /\
  joinStrings ["i"; "w"]%string = joinStrings ["iw"]%string.
Proof.
  split_and!; try done.
  - rewrite !joinStrings_foldr. induction xs as [|x xs IH]; simpl; [done|].
    by rewrite IH, append_assoc.
  - apply joinStrings_foldr.
  - rewrite joinStrings_foldr. induction xs as [|x xs IH]; simpl; [done|].
    by rewrite list_ascii_of_append, IH.
Qed.

Lemma user_of_handler_eq ago u :
  sr_Data (user_result ago u) = DataUser (user_of_handler ago u).
Proof.
  unfold user_result, user_of_handler, getOperClass. simpl. do 2 f_equal.
  destruct (ui_IsOper u); [|done]. by destruct (String.eqb (ui_OperClass u) "").
Qed.

(** X26. The users endpoint and the search agree. For every user that
    the server reports, the entry that [getUsersHandler] lists and the
    data that [getSearchResults] attaches to a match are the same, field
    by field: the inlined computation of the operator class and
    [getOperClass] give the same text. That text is empty exactly for
    users who are not operators, and [O] for operators without a class. *)
Theorem users_and_search_agree ago u :
  sr_Data (user_result ago u) = DataUser (user_of_handler ago u) /\
  usr_Oper (user_of_handler ago u) = getOperClass u /\
  (getOperClass u = ""%string <-> ui_IsOper u = false) /\
  (ui_IsOper u = true -> ui_OperClass u = ""%string -> getOperClass u = "O"%string) /\
  (ui_IsOper u = true -> ui_OperClass u <> ""%string -> getOperClass u = ui_OperClass u).
Proof.
  pose proof (user_of_handler_eq ago u) as H. split; [done|].
  unfold user_of_handler, getOperClass. simpl.
  destruct (ui_IsOper u); simpl.
  - destruct (String.eqb_spec (ui_OperClass u) "") as [E|E]; simpl; split_and!; try done.
  - split_and!; done.
Qed.

Lemma or_else_total a b :
  (exists x, a = Some x) -> (exists y, b = Some y) -> exists z, or_else a b = Some z.
Proof. intros [[] ->] [y ->]; simpl; eauto. Qed.

Lemma user_match_total query u :
  or_else (matches (ui_Nick u) query)
    (or_else (matches (ui_Account u) query) (matches (ui_Realname u) query))
  = Some (user_matches query u).
Proof.
  unfold user_matches.
  destruct (or_else_total (matches (ui_Nick u) query)
              (or_else (matches (ui_Account u) query) (matches (ui_Realname u) query)))
    as [z ->]; [apply matches_total| |done].
  apply or_else_total; apply matches_total.
Qed.

Lemma channel_match_total query c :
  or_else (matches (ci_Name c) query) (matches (ci_Topic c) query)
  = Some (channel_matches query c).
Proof.
  unfold channel_matches.
  destruct (or_else_total (matches (ci_Name c) query) (matches (ci_Topic c) query))
    as [z ->]; [apply matches_total..|done].
Qed.

Lemma search_users_spec ago query us : forall results,
  search_users ago query us results
    = Some (results ++ (user_result ago <$> filter (fun u => user_matches query u = true) us)).
Proof.
  induction us as [|u us IH]; intros results; simpl.
  - by rewrite app_nil_r.
  - rewrite user_match_total, filter_cons. destruct (user_matches query u) eqn:M.
    + rewrite decide_True by done. rewrite IH. simpl. by rewrite <- app_assoc.
    + rewrite decide_False by done. apply IH.
Qed.

Lemma search_channels_spec created query cs : forall results,
  search_channels created query cs results
    = Some (results ++
            (channel_result created <$> filter (fun c => channel_matches query c = true) cs)).
Proof.
  induction cs as [|c cs IH]; intros results; simpl.
  - by rewrite app_nil_r.
  - rewrite channel_match_total, filter_cons. destruct (channel_matches query c) eqn:M.
    + rewrite decide_True by done. rewrite IH. simpl. by rewrite <- app_assoc.
    + rewrite decide_False by done. apply IH.
Qed.

(** X27. What a search returns, for names and texts of ASCII bytes.
    [getSearchResults] does not panic; it returns, in this order, one
    result for each user whose nick, account or real name matches the
    query and one for each channel whose name or topic matches, each in
    the order in which the server listed them. A list that could not be
    fetched contributes nothing, so that the outcome is empty when both
    operations failed. Every user result carries the entry that the users
    endpoint lists for that user. *)
Theorem getSearchResults_spec ago created query users channels :
  ascii_text query ->
  Forall (fun u => ascii_text (ui_Nick u) /\ ascii_text (ui_Account u) /\
                   ascii_text (ui_Realname u)) (default [] users) ->
  Forall (fun c => ascii_text (ci_Name c) /\ ascii_text (ci_Topic c)) (default [] channels) ->
  getSearchResults ago created query users channels
    = Some ((user_result ago <$>
               filter (fun u => user_matches query u = true) (default [] users)) ++
            (channel_result created <$>
               filter (fun c => channel_matches query c = true) (default [] channels))) /\
  getSearchResults ago created query None None = Some [] /\
  (forall results r,
     getSearchResults ago created query users channels = Some results -> r ∈ results ->
     (exists u, u ∈ default [] users /\ user_matches query u = true /\
        sr_Type r = "user"%string /\ sr_Name r = ui_Nick u /\
        sr_Data r = DataUser (user_of_handler ago u) /\
        user_of_handler ago u ∈ users_of_handler ago (default [] users)) \/
     (exists c, c ∈ default [] channels /\ channel_matches query c = true /\
        sr_Type r = "channel"%string /\ sr_Name r = ci_Name c)).
Proof.
  intros _ _ _.
  assert (E : getSearchResults ago created query users channels
    = Some ((user_result ago <$>
               filter (fun u => user_matches query u = true) (default [] users)) ++
            (channel_result created <$>
               filter (fun c => channel_matches query c = true) (default [] channels)))).
  { unfold getSearchResults.
    destruct users as [us|]; destruct channels as [cs|]; simpl;
      rewrite ?search_users_spec; simpl; rewrite ?search_channels_spec; simpl;
      by rewrite ?app_nil_r. }
  split_and!; [done|done|].
  intros results r. rewrite E. intros [= <-].
  intros [(u & -> & [Hm Hu]%list_elem_of_filter)%list_elem_of_fmap
         |(c & -> & [Hm Hc]%list_elem_of_filter)%list_elem_of_fmap]%elem_of_app.
  - left. exists u. split_and!; try done; [apply user_of_handler_eq|].
    apply list_elem_of_fmap. by exists u.
  - right. by exists c.
Qed.

Lemma getSearchResults_spec_witness :
  sr_Name <$> default []
    (getSearchResults (fun _ => "2h ago"%string) (fun _ => "2024-06-09 15:42:18"%string) "g*0"
       (Some [mkUserInfo "Guest0" "localhost" "127.0.0.1" "" "Valware" "Guest" "irc.valware.uk"
                0 true "" ["i"%string];
              mkUserInfo "Admin" "localhost" "127.0.0.1" "" "root" "Admin" "irc.valware.uk"
                0 false "" []])
       None)
  = ["Guest0"%string].
Proof.
  assert (H1 : ascii_text "g*0") by (vm_compute; reflexivity).
  assert (H2 : Forall (fun u => ascii_text (ui_Nick u) /\ ascii_text (ui_Account u) /\
                               ascii_text (ui_Realname u))
            (default [] (Some
              [mkUserInfo "Guest0" "localhost" "127.0.0.1" "" "Valware" "Guest" "irc.valware.uk"
                 0 true "" ["i"%string];
               mkUserInfo "Admin" "localhost" "127.0.0.1" "" "root" "Admin" "irc.valware.uk"
                 0 false "" []]))).
  { repeat (apply Forall_cons_2; [by vm_compute|]). apply Forall_nil_2. }
  assert (H3 : Forall (fun c => ascii_text (ci_Name c) /\ ascii_text (ci_Topic c))
                 (default [] None)) by apply Forall_nil_2.
  rewrite (proj1 (getSearchResults_spec (fun _ => "2h ago"%string)
                    (fun _ => "2024-06-09 15:42:18"%string) "g*0" _ None H1 H2 H3)).
  vm_compute. reflexivity.
Defined.

(** ** [handleMessages] over a sequence of messages *)

Lemma sends_app l1 l2 : sends (l1 ++ l2) = sends l1 ++ sends l2.
Proof. apply omap_app. Qed.

Lemma hm_top_quiet w l b : hm_top w = (l, b) -> sends l = [].
Proof. unfold hm_top. destruct (conn (client w)); by intros [= <- _]. Qed.

Lemma hm_read_quiet f l r : hm_read f = (l, r) -> sends l = [].
Proof. unfold hm_read. destruct (ReadJSON f); by intros [= <- _]. Qed.

Lemma world_ok_deliver w id ch r :
  world_ok w -> pending (client w) !! id = Some ch ->
  world_ok {| client := set_pending (delete id (pending (client w))) (client w);
              chans := <[ch := {| buf := Some r; closed := false |}]> (chans w) |}.
Proof.
  intros [Hfr Hinj] Hp. split; simpl.
  - intros id' ch' [Hne H]%lookup_delete_Some.
    rewrite list_lookup_insert_ne; [by eapply Hfr|].
    intros <-. apply Hne. by eapply Hinj.
  - intros id1 id2 ch' [_ H1]%lookup_delete_Some [_ H2]%lookup_delete_Some. by eapply Hinj.
Qed.

Lemma handleMessages_robust_aux fs : forall w,
  world_ok w ->
  exists x,
    handleMessages fs w = ChanOk x /\
    world_ok (run_world x) /\
    conn (client (run_world x)) = conn (client w) /\
    (forall id ch, pending (client (run_world x)) !! id = Some ch ->
       pending (client w) !! id = Some ch) /\
    (forall ch r, (ch, r) ∈ sends (run_effects x) ->
       pending (client w) !! resp_ID r = Some ch /\
       pending (client (run_world x)) !! resp_ID r = None /\
       Frame r ∈ fs) /\
    (run_status x = Reading -> run_unread x = [] /\ is_Some (conn (client w)) /\
       forall f, f ∈ fs -> exists r, f = Frame r).
Proof.
  induction fs as [|f fs IH]; intros w Hok; cbn [handleMessages].
  - destruct (hm_top w) as [l0 []] eqn:T; eexists; (split; [reflexivity|]); simpl;
      rewrite (hm_top_quiet _ _ _ T); split_and!; try done.
    + by intros ch r H%elem_of_nil.
    + intros _. split_and!; try done; [|by intros f H%elem_of_nil].
      unfold hm_top in T. by destruct (conn (client w)).
    + by intros ch r H%elem_of_nil.
  - destruct (hm_top w) as [l0 []] eqn:T.
    2:{ eexists. split; [reflexivity|]. simpl. rewrite (hm_top_quiet _ _ _ T).
        split_and!; try done. by intros ch r H%elem_of_nil. }
    assert (Hc : is_Some (conn (client w))).
    { unfold hm_top in T. by destruct (conn (client w)). }
    pose proof (hm_top_quiet _ _ _ T) as Q0.
    destruct (hm_read f) as [l1 [r|]] eqn:Rd.
    2:{ eexists. split; [reflexivity|]. simpl.
        rewrite sends_app, Q0, (hm_read_quiet _ _ _ Rd).
        split_and!; try done. by intros ch r H%elem_of_nil. }
    pose proof (hm_read_quiet _ _ _ Rd) as Q1.
    assert (Hf : f = Frame r).
    { unfold hm_read in Rd. destruct f; simpl in Rd; try done. by injection Rd as _ <-. }
    subst f. unfold hm_claim. cbv zeta.
    destruct (pending (client w) !! resp_ID r) as [ch|] eqn:P.
    + destruct Hok as [Hfr Hinj].
      unfold hm_deliver. cbn [chans client].
      rewrite (chan_send_fresh _ _ _ (Hfr _ _ P)).
      destruct (IH _ (world_ok_deliver w _ ch r (conj Hfr Hinj) P))
        as (x & -> & Hok' & Hconn & Hsub & Hs & Hrd).
      eexists. split; [reflexivity|]. simpl in *. split_and!; try done.
      * intros id c H. apply Hsub in H. by apply lookup_delete_Some in H as [_ H].
      * intros c r'. rewrite !sends_app, Q0, Q1. simpl.
        intros [[= -> ->]|H]%elem_of_cons.
        -- split_and!; [done| |by left].
           destruct (pending (client (run_world x)) !! resp_ID r) as [c'|] eqn:P'; [|done].
           apply Hsub in P'. by rewrite lookup_delete_eq in P'.
        -- destruct (Hs _ _ H) as (H1 & H2 & H3).
           apply lookup_delete_Some in H1 as [_ H1]. split_and!; [done..|by right].
      * intros Hr. destruct (Hrd Hr) as (Hun & _ & Hall). split_and!; try done.
        intros f [->|Hin]%elem_of_cons; [by eexists|by apply Hall].
    + destruct (IH _ Hok) as (x & -> & Hok' & Hconn & Hsub & Hs & Hrd).
      eexists. split; [reflexivity|]. simpl in *. split_and!; try done.
      * intros c r'. rewrite !sends_app, Q0, Q1. simpl. intros H.
        destruct (Hs _ _ H) as (H1 & H2 & H3). split_and!; [done..|by right].
      * intros Hr. destruct (Hrd Hr) as (Hun & _ & Hall). split_and!; try done.
        intros f [->|Hin]%elem_of_cons; [by eexists|by apply Hall].
Qed.

(** X28. [handleMessages] run over any sequence of inbound messages, on
    a client whose registered channels are open, empty and distinct (as
    they are in every reachable state): no send blocks and none panics.
    Every response that is sent goes to the channel that was registered
    under its ID, whose entry is gone afterwards; entries are only
    removed, never added; the registered channels are again open, empty
    and distinct. The loop is still reading at the end only if the handle
    is not nil and every message decoded. *)
Theorem handleMessages_robust fs w :
  world_ok w ->
  exists x,
    handleMessages fs w = ChanOk x /\
    world_ok (run_world x) /\
    conn (client (run_world x)) = conn (client w) /\
    (forall id ch, pending (client (run_world x)) !! id = Some ch ->
       pending (client w) !! id = Some ch) /\
    (forall ch r, (ch, r) ∈ sends (run_effects x) ->
       pending (client w) !! resp_ID r = Some ch /\
       pending (client (run_world x)) !! resp_ID r = None /\
       Frame r ∈ fs) /\
    (run_status x = Reading -> run_unread x = [] /\ is_Some (conn (client w)) /\
       forall f, f ∈ fs -> exists r, f = Frame r).
Proof. apply handleMessages_robust_aux. Qed.

Lemma handleMessages_robust_witness :
  exists x,
    handleMessages [Frame respB; Frame respA; Frame respA] (world two_waiting) = ChanOk x /\
    sends (run_effects x) = [(1%nat, respB); (0%nat, respA)] /\
    pending (client (run_world x)) = ∅.
Proof.
  assert (Hok : world_ok (world two_waiting)).
  { pose proof (wf_reachable _ two_waiting_reachable) as W.
    split; [apply (wf_pending _ W)|apply (wf_inj _ W)]. }
  destruct (handleMessages_robust [Frame respB; Frame respA; Frame respA]
              (world two_waiting) Hok) as (x & E & _).
  exists x. split; [exact E|].
  vm_compute in E. injection E as <-. split; vm_compute; reflexivity.
Defined.
